(** * augmented-rpc: a caching, throttling and retrying JSON-RPC proxy

    A shallow embedding of the HTTP request pipeline of the proxy (the file
    with the optional sqlite backing, and [app.js] where it differs) and of
    its websocket relay, and the properties of the cache layer, the
    duplicate detector, the upstream retry loop, the request handler as a
    whole and the relay.

    Conventions.
    - JavaScript numbers that hold timestamps, counters and delays are
      integers in the code paths modelled here and are represented in [Z].
    - [undefined] is [None] in an [option]; JSON [null] is [Json.Null].
    - [Math.random()] is a rational in the interval [0,1).
    - Exceptions are values of [exn]; a computation either returns or throws. *)

From Stdlib Require Import ZArith QArith Qround Ascii String.
From Stdlib Require Import DecimalString DecimalZ DecimalPos Lia.
From stdpp Require Import gmap strings list fin_maps.

Set Warnings "-register-all".

Local Open Scope Z_scope.

(** ** JSON values and [JSON.stringify] *)

Module Json.

(** A value produced by [JSON.parse] (what [bodyParser.json()] hands to the
    handler).  Object members are kept in property order, which is the order
    [JSON.stringify] prints them in.  Numbers are the integral ones. *)
Inductive value : Type :=
| Null
| Bool (b : bool)
| Num (z : Z)
| Str (s : string)
| Arr (l : list value)
| Obj (m : list (string * value)).

Section value_rect_nested.
Variable P : value → Prop.
Hypothesis HNull : P Null.
Hypothesis HBool : ∀ b, P (Bool b).
Hypothesis HNum : ∀ z, P (Num z).
Hypothesis HStr : ∀ s, P (Str s).
Hypothesis HArr : ∀ l, Forall P l → P (Arr l).
Hypothesis HObj : ∀ m, Forall (λ kv, P kv.2) m → P (Obj m).

Fixpoint value_ind_nested (v : value) : P v :=
  match v with
  | Null => HNull
  | Bool b => HBool b
  | Num z => HNum z
  | Str s => HStr s
  | Arr l =>
      HArr l ((fix go (l : list value) : Forall P l :=
                 match l with
                 | [] => Forall_nil_2 P
                 | x :: l' => Forall_cons_2 P x l' (value_ind_nested x) (go l')
                 end) l)
  | Obj m =>
      HObj m ((fix go (m : list (string * value)) : Forall (λ kv, P kv.2) m :=
                 match m with
                 | [] => Forall_nil_2 _
                 | kv :: m' =>
                     Forall_cons_2 (λ kv, P kv.2) kv m'
                       (value_ind_nested kv.2) (go m')
                 end) m)
  end.
End value_rect_nested.

Abbreviation dquote := ("034"%char) (only parsing).
Abbreviation backslash := ("\"%char) (only parsing).

Definition hex_digit (n : N) : ascii :=
  if (n <? 10)%N then ascii_of_N (48 + n) else ascii_of_N (87 + n).

(** QuoteJSONString, one code unit at a time. *)
Definition escape_char (c : ascii) : string :=
  let n := N_of_ascii c in
  if (n =? 34)%N then String backslash (String dquote EmptyString)
  else if (n =? 92)%N then String backslash (String backslash EmptyString)
  else if (n =? 8)%N then "\b"
  else if (n =? 9)%N then "\t"
  else if (n =? 10)%N then "\n"
  else if (n =? 12)%N then "\f"
  else if (n =? 13)%N then "\r"
  else if (n <? 32)%N then
    "\u00" +:+ String (hex_digit (n / 16)) (String (hex_digit (n mod 16)) EmptyString)
  else String c EmptyString.

Fixpoint escape (s : string) : string :=
  match s with
  | EmptyString => EmptyString
  | String c s' => escape_char c +:+ escape s'
  end.

Definition quote (s : string) : string :=
  String dquote (escape s +:+ String dquote EmptyString).

Definition string_of_Z (z : Z) : string := NilEmpty.string_of_int (Z.to_int z).

(** [JSON.stringify] without indentation: no white space, members in
    property order. *)
Fixpoint stringify (v : value) : string :=
  match v with
  | Null => "null"
  | Bool true => "true"
  | Bool false => "false"
  | Num z => string_of_Z z
  | Str s => quote s
  | Arr l =>
      "[" +:+
      (fix elems (l : list value) : string :=
         match l with
         | [] => "]"
         | x :: l' =>
             stringify x +:+
             match l' with [] => "]" | _ :: _ => "," +:+ elems l' end
         end) l
  | Obj m =>
      "{" +:+
      (fix members (m : list (string * value)) : string :=
         match m with
         | [] => "}"
         | kv :: m' =>
             quote kv.1 +:+ ":" +:+ stringify kv.2 +:+
             match m' with [] => "}" | _ :: _ => "," +:+ members m' end
         end) m
  end.

(** The two local loops of [stringify], named. *)
Fixpoint elems (l : list value) : string :=
  match l with
  | [] => "]"
  | x :: l' =>
      stringify x +:+ match l' with [] => "]" | _ :: _ => "," +:+ elems l' end
  end.

Fixpoint members (m : list (string * value)) : string :=
  match m with
  | [] => "}"
  | kv :: m' =>
      quote kv.1 +:+ ":" +:+ stringify kv.2 +:+
      match m' with [] => "}" | _ :: _ => "," +:+ members m' end
  end.


End Json.

(** ** The JavaScript runtime the handler runs in *)

Module Js.

(** [req.body] of a JSON-RPC request.  [None] stands for an absent member
    ([undefined]). *)
Record ReqBody : Type := {
  body_method : string;
  body_params : option Json.value;
  body_id : option Json.value
}.

(** What [axios.post] rejects with: the three shapes the retry loop tells
    apart ([err.response], else [err.request], else neither).  [response]
    is what the upstream answered (an HTTP error status and its body); the
    response object of axios holds, besides that, the request it answers.
    [request_data] is [err.request.data], a value [JSON.stringify] can
    print, or [undefined]. *)
Inductive axios_failure : Type :=
| WithResponse (response : Json.value)
| NoResponse (request_data : option Json.value)
| Unclassified.

(** What [axios.post] resolves with; only [.data] is read. *)
Record AxiosResponse : Type := { data : Json.value }.

Inductive exn : Type :=
| TypeError (msg : string)
| ReferenceError (msg : string)
| AxiosError (e : axios_failure)
| DbError (msg : string).

(** [err.message], and [`${err}`]. *)
Definition message (e : exn) : string :=
  match e with
  | TypeError msg | ReferenceError msg | DbError msg => msg
  | AxiosError _ => "Request failed"
  end.

Definition to_string (e : exn) : string :=
  match e with
  | TypeError msg => "TypeError: " +:+ msg
  | ReferenceError msg => "ReferenceError: " +:+ msg
  | DbError msg => "Error: " +:+ msg
  | AxiosError _ => "AxiosError: Request failed"
  end.

(** The envelope built on a cache hit: [{ jsonrpc, id, result }]. *)
Record CachedResponse : Type := {
  jsonrpc : string;
  res_id : option Json.value;
  result : option Json.value
}.

Inductive payload : Type :=
| PCached (r : CachedResponse)
| PUpstream (d : Json.value)
| PError (e : exn).

(** Observable actions, in the order they happen. *)
Inductive event : Type :=
| EvSleep (ms : Z)
| EvPost (rpc : string) (body : ReqBody)
| EvSend (status : Z) (p : payload).

(** The value type of the [cache] map: [{ ts, val, readCnt, writeCnt }]. *)
Record CacheEntry : Type := {
  val : option Json.value;
  ts : Z;
  readCnt : Z;
  writeCnt : Z
}.

(** The module-level bindings the handlers share. *)
Record Globals : Type := {
  cache : gmap string CacheEntry;
  duplicateDetector : gmap string Z;
  httpReqCnt : Z;
  httpUpstreamResCnt : Z;
  httpCacheResCnt : Z
}.

(** A row of [data(key TEXT PRIMARY KEY, val TEXT, ts INTEGER)]. *)
Record DbRow : Type := { row_val : option string; row_ts : Z }.

(** [maxAgeMs]: a number of milliseconds or [Infinity]. *)
Inductive MaxAge : Type :=
| Infinity
| Ms (z : Z).

(** [age <= maxAgeMs]. *)
Definition within (age : Z) (maxAgeMs : MaxAge) : bool :=
  match maxAgeMs with
  | Infinity => true
  | Ms z => age <=? z
  end.

(** The operations a handler performs on its environment.  [SetTimeout],
    [AxiosPost] and [DbGet] are awaited: the handler is suspended there and
    other handlers may run; everything between two of them is atomic.
    [DbRun] is [db.run] with its callback, which logs a failure; the write
    is taken to be done when it is issued.  [ResSend] is [res.send],
    after [res.status] where the status is not 200; that Express refuses a
    second send on one response is not modelled. *)
Inductive eff : Type → Type :=
| DateNow : eff Z
| MathRandom : eff Q
| SetTimeout (ms : Z) : eff unit
| AxiosPost (rpc : string) (body : ReqBody) : eff (axios_failure + AxiosResponse)
| DbDefined : eff bool
| DbGet (key : string) : eff (string + option (option string))
| DbRun (key : string) (v : option string) (t : Z) : eff unit
| GetGlobals : eff Globals
| SetGlobals (g : Globals) : eff unit
| ConsoleError (msg : string) : eff unit
| ResSend (status : Z) (p : payload) : eff unit.

Definition suspends {X} (e : eff X) : bool :=
  match e with
  | SetTimeout _ | AxiosPost _ _ | DbGet _ => true
  | _ => false
  end.

(** A (finite) asynchronous computation: it returns, throws, or performs an
    operation and goes on with its answer. *)
Inductive prog (A : Type) : Type :=
| Ret (a : A)
| Throw (e : exn)
| Vis (X : Type) (op : eff X) (k : X → prog A).

Arguments Ret {A} a.
Arguments Throw {A} e.
Arguments Vis {A X} op k.

Fixpoint bind {A B} (m : prog A) (f : A → prog B) : prog B :=
  match m with
  | Ret a => f a
  | Throw e => Throw e
  | Vis op k => Vis op (λ x, bind (k x) f)
  end.

(** [try { m } catch (err) { h err }]. *)
Fixpoint try_catch {A} (m : prog A) (h : exn → prog A) : prog A :=
  match m with
  | Ret a => Ret a
  | Throw e => h e
  | Vis op k => Vis op (λ x, try_catch (k x) h)
  end.

Definition perform {X} (op : eff X) : prog X := Vis op Ret.

#[global] Instance prog_ret : MRet prog := @Ret.
#[global] Instance prog_bind : MBind prog := λ A B f m, bind m f.

(** *** Running a computation *)

(** What the outside world answers: the draws of [Math.random], the outcome
    of each upstream post, how much longer than its minimum each wait takes,
    and whether a database operation fails. *)
Record Env : Type := {
  random : nat → Q;
  upstream : nat → axios_failure + AxiosResponse;
  lag : nat → N;
  db_error : nat → option string
}.

Record World : Type := {
  globals : Globals;
  db : option (gmap string DbRow);
  now : Z;
  n_random : nat;
  n_post : nat;
  n_await : nat;
  n_db : nat;
  trace : list event;
  console : list string
}.

Definition set_globals (g : Globals) (w : World) : World :=
  {| globals := g; db := db w; now := now w; n_random := n_random w;
     n_post := n_post w; n_await := n_await w; n_db := n_db w;
     trace := trace w; console := console w |}.

Definition set_db (d : option (gmap string DbRow)) (w : World) : World :=
  {| globals := globals w; db := d; now := now w; n_random := n_random w;
     n_post := n_post w; n_await := n_await w; n_db := n_db w;
     trace := trace w; console := console w |}.

Definition drew (w : World) : World :=
  {| globals := globals w; db := db w; now := now w;
     n_random := S (n_random w);
     n_post := n_post w; n_await := n_await w; n_db := n_db w;
     trace := trace w; console := console w |}.

Definition posted (w : World) : World :=
  {| globals := globals w; db := db w; now := now w; n_random := n_random w;
     n_post := S (n_post w); n_await := n_await w; n_db := n_db w;
     trace := trace w; console := console w |}.

Definition queried (w : World) : World :=
  {| globals := globals w; db := db w; now := now w; n_random := n_random w;
     n_post := n_post w; n_await := n_await w; n_db := S (n_db w);
     trace := trace w; console := console w |}.

(** A wait of at least [ms] milliseconds (a timer never fires early, and a
    negative delay counts as none). *)
Definition waited (env : Env) (ms : Z) (w : World) : World :=
  {| globals := globals w; db := db w;
     now := now w + Z.max 0 ms + Z.of_N (lag env (n_await w));
     n_random := n_random w; n_post := n_post w;
     n_await := S (n_await w); n_db := n_db w;
     trace := trace w; console := console w |}.

Definition emit (ev : event) (w : World) : World :=
  {| globals := globals w; db := db w; now := now w; n_random := n_random w;
     n_post := n_post w; n_await := n_await w; n_db := n_db w;
     trace := trace w ++ [ev]; console := console w |}.

Definition logged (msg : string) (w : World) : World :=
  {| globals := globals w; db := db w; now := now w; n_random := n_random w;
     n_post := n_post w; n_await := n_await w; n_db := n_db w;
     trace := trace w; console := console w ++ [msg] |}.

Definition handle (env : Env) {X} (op : eff X) (w : World) : X * World :=
  match op in eff X return X * World with
  | DateNow => (now w, w)
  | MathRandom => (random env (n_random w), drew w)
  | SetTimeout ms => (tt, waited env ms (emit (EvSleep ms) w))
  | AxiosPost rpc body =>
      (upstream env (n_post w), waited env 0 (posted (emit (EvPost rpc body) w)))
  | DbDefined => (match db w with Some _ => true | None => false end, w)
  | DbGet key =>
      match db w, db_error env (n_db w) with
      | Some store, None =>
          (inr (row_val <$> store !! key), waited env 0 (queried w))
      | Some _, Some msg => (inl msg, waited env 0 (queried w))
      | None, _ => (inl "db is undefined", w)
      end
  | DbRun key v t =>
      match db w, db_error env (n_db w) with
      | Some store, None =>
          (tt, set_db (Some (<[key := {| row_val := v; row_ts := t |}]> store))
                 (queried w))
      | Some _, Some msg => (tt, logged msg (queried w))
      | None, _ => (tt, w)
      end
  | GetGlobals => (globals w, w)
  | SetGlobals g => (tt, set_globals g w)
  | ConsoleError msg => (tt, logged msg w)
  | ResSend status p => (tt, emit (EvSend status p) w)
  end.

(** Run to completion, every wait answered by [env]. *)
Fixpoint exec (env : Env) {A} (p : prog A) (w : World) : (A + exn) * World :=
  match p with
  | Ret a => (inl a, w)
  | Throw e => (inr e, w)
  | Vis op k => let '(x, w') := handle env op w in exec env (k x) w'
  end.

(** Where a computation stands when it hands control back to the event
    loop. *)
Inductive paused (A : Type) : Type :=
| Finished (r : A + exn)
| Awaiting (X : Type) (op : eff X) (k : X → prog A).

Arguments Finished {A} r.
Arguments Awaiting {A X} op k.

(** Run the atomic stretch up to the next awaited operation. *)
Fixpoint run_sync (env : Env) {A} (p : prog A) (w : World) : paused A * World :=
  match p with
  | Ret a => (Finished (inl a), w)
  | Throw e => (Finished (inr e), w)
  | Vis op k =>
      if suspends op then (Awaiting op k, w)
      else let '(x, w') := handle env op w in run_sync env (k x) w'
  end.

(** The timer a paused computation waits for, if it waits for one. *)
Definition awaited_timeout {A} (s : paused A) : option Z :=
  match s with
  | Awaiting op _ =>
      match op with SetTimeout ms => Some ms | _ => None end
  | Finished _ => None
  end.

End Js.

(** ** The proxy: code common to [app.js] and to the file with the sqlite
    backing *)

Module Shared.
Import Js.

Definition includes (l : list string) (x : string) : bool := bool_decide (x ∈ l).

(** [`${req.body.method}${JSON.stringify(req.body.params)}`]; the template
    prints an absent [params] as [undefined]. *)
Definition getCacheKey (req : ReqBody) : string :=
  body_method req +:+
  match body_params req with
  | Some p => Json.stringify p
  | None => "undefined"
  end.

Definition with_cache (c : gmap string CacheEntry) (g : Globals) : Globals :=
  {| cache := c; duplicateDetector := duplicateDetector g;
     httpReqCnt := httpReqCnt g; httpUpstreamResCnt := httpUpstreamResCnt g;
     httpCacheResCnt := httpCacheResCnt g |}.

Definition with_duplicateDetector (d : gmap string Z) (g : Globals) : Globals :=
  {| cache := cache g; duplicateDetector := d;
     httpReqCnt := httpReqCnt g; httpUpstreamResCnt := httpUpstreamResCnt g;
     httpCacheResCnt := httpCacheResCnt g |}.

Definition cache_get (key : string) : prog (option CacheEntry) :=
  g ← perform GetGlobals; mret (cache g !! key).

Definition cache_set (key : string) (e : CacheEntry) : prog unit :=
  g ← perform GetGlobals;
  perform (SetGlobals (with_cache (<[key := e]> (cache g)) g)).

Definition duplicateDetector_get (key : string) : prog (option Z) :=
  g ← perform GetGlobals; mret (duplicateDetector g !! key).

Definition duplicateDetector_set (key : string) (t : Z) : prog unit :=
  g ← perform GetGlobals;
  perform (SetGlobals (with_duplicateDetector (<[key := t]> (duplicateDetector g)) g)).

(** [httpReqCnt++], [httpUpstreamResCnt++], [httpCacheResCnt++]. *)
Definition incr_httpReqCnt : prog unit :=
  g ← perform GetGlobals;
  perform (SetGlobals
    {| cache := cache g; duplicateDetector := duplicateDetector g;
       httpReqCnt := httpReqCnt g + 1;
       httpUpstreamResCnt := httpUpstreamResCnt g;
       httpCacheResCnt := httpCacheResCnt g |}).

Definition incr_httpUpstreamResCnt : prog unit :=
  g ← perform GetGlobals;
  perform (SetGlobals
    {| cache := cache g; duplicateDetector := duplicateDetector g;
       httpReqCnt := httpReqCnt g;
       httpUpstreamResCnt := httpUpstreamResCnt g + 1;
       httpCacheResCnt := httpCacheResCnt g |}).

Definition incr_httpCacheResCnt : prog unit :=
  g ← perform GetGlobals;
  perform (SetGlobals
    {| cache := cache g; duplicateDetector := duplicateDetector g;
       httpReqCnt := httpReqCnt g;
       httpUpstreamResCnt := httpUpstreamResCnt g;
       httpCacheResCnt := httpCacheResCnt g + 1 |}).

Definition DUPLICATE_DELAY_TRIGGER_THRESHOLD_MS : Z := 1000.
Definition DUPLICATE_MIN_DELAY_MS : Z := 500.
Definition DUPLICATE_RANDOM_MAX_EXTRA_DELAY_MS : Z := 1000.

(** The duplicate check at the head of the POST handler:
    [if (duplicateDetector.has(cacheKey)) { ... await setTimeout ... }]. *)
Definition delayDuplicate (cacheKey : string) : prog unit :=
  prev ← duplicateDetector_get cacheKey;
  match prev with
  | Some prevCallTs =>
      t ← perform DateNow;
      if t - prevCallTs <? DUPLICATE_DELAY_TRIGGER_THRESHOLD_MS then
        r ← perform MathRandom;
        let delayMs :=
          DUPLICATE_MIN_DELAY_MS +
          Qfloor (r * inject_Z DUPLICATE_RANDOM_MAX_EXTRA_DELAY_MS) in
        perform (SetTimeout delayMs)
      else mret tt
  | None => mret tt
  end.

(** [duplicateDetector.set(cacheKey, Date.now())], the statement after it. *)
Definition recordCall (cacheKey : string) : prog unit :=
  t ← perform DateNow; duplicateDetector_set cacheKey t.

Definition axios_post (rpc : string) (reqBody : ReqBody) : prog AxiosResponse :=
  r ← perform (AxiosPost rpc reqBody);
  match r with
  | inl f => Throw (AxiosError f)
  | inr res => mret res
  end.

(** [JSON.stringify(err.response)].  The response object of axios holds the
    request it answers ([response.request], under Node the [ClientRequest],
    which refers back to itself through its socket), so [JSON.stringify]
    throws a [TypeError], whatever the upstream answered.  The message is
    the first line of the engine's. *)
Definition stringify_response (response : Json.value) : prog string :=
  Throw (TypeError "Converting circular structure to JSON").

(** The [console.error] of the catch block.  With a response, the argument
    is evaluated first, and that throws. *)
Definition log_upstream_err (err : exn) : prog unit :=
  match err with
  | AxiosError (WithResponse response) =>
      s ← stringify_response response;
      perform (ConsoleError ("upstream err | response: " +:+ s))
  | AxiosError (NoResponse _) => perform (ConsoleError "upstream err | no response´")
  | _ => perform (ConsoleError "upstream err | no response, no request -> WTF´")
  end.

(** The local [forwardedErr] of the catch block, assigned after the
    [console.error].  It is never read: the [throw] names [forwardErr]. *)
Definition forwardedErr (err : exn) : prog (option string) :=
  match err with
  | AxiosError (WithResponse response) =>
      s ← stringify_response response; mret (Some s)
  | AxiosError (NoResponse request_data) => mret (Json.stringify <$> request_data)
  | _ => mret (Some "unspecified")
  end.

(** [async function upstreamHttpRequest(rpc, reqBody, nrRetries = 10,
    initialTimeoutMs = 2000)].  The identifier [forwardErr] in
    [throw Error(forwardErr)] is bound nowhere, so evaluating the argument
    throws a [ReferenceError] before [Error] is called.  An exception
    thrown in the catch block itself leaves the function: nothing catches
    it there. *)
Fixpoint upstreamHttpRequest (rpc : string) (reqBody : ReqBody)
    (nrRetries : nat) (initialTimeoutMs : Z) : prog AxiosResponse :=
  try_catch (axios_post rpc reqBody)
    (λ err,
       log_upstream_err err;;
       forwardedErr err;;
       match nrRetries with
       | S n =>
           perform (SetTimeout initialTimeoutMs);;
           upstreamHttpRequest rpc reqBody n (initialTimeoutMs * 2)
       | O => Throw (ReferenceError "forwardErr is not defined")
       end).

(** [typeof param === 'object' && 'blockHash' in param].  [typeof null] is
    ['object'], and [in] throws on [null]. *)
Definition pins_blockHash (param : Json.value) : prog bool :=
  match param with
  | Json.Null =>
      Throw (TypeError "Cannot use 'in' operator to search for 'blockHash' in null")
  | Json.Obj m => mret (bool_decide ("blockHash" ∈ m.*1))
  | Json.Arr _ => mret false
  | _ => mret false
  end.

(** [Array.prototype.some]: left to right, stops at the first [true]. *)
Fixpoint some (f : Json.value → prog bool) (l : list Json.value) : prog bool :=
  match l with
  | [] => mret false
  | x :: l' => b ← f x; if (b : bool) then mret true else some f l'
  end.

(** [req.body.params.some(...)]: only an array has a [some] to call, and
    [undefined] and [null] have no property to read. *)
Definition params_some (f : Json.value → prog bool) (params : option Json.value)
    : prog bool :=
  match params with
  | Some (Json.Arr l) => some f l
  | None => Throw (TypeError "Cannot read properties of undefined (reading 'some')")
  | Some Json.Null =>
      Throw (TypeError "Cannot read properties of null (reading 'some')")
  | _ => Throw (TypeError "req.body.params.some is not a function")
  end.

Fixpoint member (name : string) (m : list (string * Json.value))
    : option Json.value :=
  match m with
  | [] => None
  | kv :: m' => if decide (kv.1 = name) then Some kv.2 else member name m'
  end.

(** [rpcRes.data.result]. *)
Definition data_result (d : Json.value) : prog (option Json.value) :=
  match d with
  | Json.Null => Throw (TypeError "Cannot read properties of null (reading 'result')")
  | Json.Obj m => mret (member "result" m)
  | _ => mret None
  end.

End Shared.

(** ** The file with the sqlite backing *)

Module AppDb.
Import Js Shared.

Section WithConfig.

(** [process.env.RPC] and [process.env.CACHE_MAX_AGE || 10], in seconds. *)
Variable rpc : string.
Variable CACHE_MAX_AGE : Z.

(** The built-in [JSON.parse], applied to the [val] column of a row. *)
Variable JSON_parse : option string → Json.value + exn.

(** [getFromDb(key)]: resolves with the row ([undefined] when there is
    none), rejects when the query fails. *)
Definition getFromDb (key : string) : prog (option (option string)) :=
  r ← perform (DbGet key);
  match r with
  | inl msg => Throw (DbError msg)
  | inr row => mret row
  end.

(** [cache.get(key).ts] *)
Definition entry_ts (e : option CacheEntry) : prog Z :=
  match e with
  | Some e => mret (ts e)
  | None => Throw (TypeError "Cannot read properties of undefined (reading 'ts')")
  end.

(** [async function getResponseFromCache(key, maxAgeMs, reqId)]; the local
    [val] is [None] while it is [undefined]. *)
Definition getResponseFromCache (key : string) (maxAgeMs : MaxAge)
    (reqId : option Json.value) : prog (option CachedResponse) :=
  found ← cache_get key;
  v ← match found with
      | Some e =>
          t ← perform DateNow;
          if within (t - ts e) maxAgeMs then
            cache_set key
              {| val := val e; ts := ts e;
                 readCnt := readCnt e + 1; writeCnt := writeCnt e |};;
            mret (val e)
          else mret None
      | None =>
          hasDb ← perform DbDefined;
          if (hasDb : bool) then
            try_catch
              (row ← getFromDb key;
               match row with
               | Some row_val =>
                   t ← perform DateNow;
                   e ← cache_get key;
                   written ← entry_ts e;
                   if within (t - written) maxAgeMs then
                     match JSON_parse row_val with
                     | inl parsed => mret (Some parsed)
                     | inr err => Throw err
                     end
                   else mret None
               | None => mret None
               end)
              (λ err,
                 perform (ConsoleError ("DB read error: " +:+ message err));;
                 mret None)
          else mret None
      end;
  match v with
  | Some Json.Null | None => mret None
  | Some r =>
      mret (Some {| jsonrpc := "2.0"; res_id := reqId; result := Some r |})
  end.

(** [function writeResponseToCache(key, val)] *)
Definition writeResponseToCache (key : string) (v : option Json.value)
    : prog unit :=
  t ← perform DateNow;
  old ← cache_get key;
  let newValue :=
    {| val := v; ts := t;
       readCnt := match old with Some e => readCnt e | None => 0 end;
       writeCnt := match old with Some e => writeCnt e + 1 | None => 1 end |} in
  hasDb ← perform DbDefined;
  if (hasDb : bool) then
    perform (DbRun key (Json.stringify <$> val newValue) (ts newValue))
  else cache_set key newValue.

(** [cacheMaxAgeMs] of the POST handler. *)
Definition cacheMaxAgeMs (method : string) : MaxAge :=
  if includes ["eth_chainId"; "net_version"; "eth_getTransactionReceipt"] method
  then Infinity
  else Ms (CACHE_MAX_AGE * 1000).

(** The condition under which the upstream result is written to the
    cache. *)
Definition cacheable (req : ReqBody) : prog bool :=
  if includes ["eth_chainId"; "eth_blockNumber"; "net_version"] (body_method req)
  then mret true
  else if decide (body_method req = "eth_call")
       then params_some pins_blockHash (body_params req)
       else mret false.

(** The POST handler from the cache lookup on. *)
Definition respond (req : ReqBody) (cacheKey : string) : prog unit :=
  cachedResponse ← getResponseFromCache cacheKey
                     (cacheMaxAgeMs (body_method req)) (body_id req);
  match cachedResponse with
  | Some c =>
      perform (ResSend 200 (PCached c));;
      incr_httpCacheResCnt
  | None =>
      try_catch
        (rpcRes ← upstreamHttpRequest rpc req 10 2000;
         incr_httpUpstreamResCnt;;
         perform (ResSend 200 (PUpstream (data rpcRes)));;
         c ← cacheable req;
         if (c : bool) then
           r ← data_result (data rpcRes);
           writeResponseToCache cacheKey r
         else mret tt)
        (λ err,
           perform (ConsoleError ("upstream request permanently failed: " +:+ to_string err));;
           perform (ResSend 500 (PError err)))
  end;;
  incr_httpReqCnt.

(** [app.post("/", async (req, res) => { ... })] *)
Definition handlePost (req : ReqBody) : prog unit :=
  let cacheKey := getCacheKey req in
  delayDuplicate cacheKey;;
  recordCall cacheKey;;
  respond req cacheKey.

End WithConfig.

End AppDb.

(** ** [app.js], where it differs *)

Module AppJs.
Import Js Shared.

Section WithConfig.

Variable rpc : string.
Variable CACHE_MAX_AGE : Z.

(** [function getResponseFromCache(key, maxAgeMs, reqId)] *)
Definition getResponseFromCache (key : string) (maxAgeMs : MaxAge)
    (reqId : option Json.value) : prog (option CachedResponse) :=
  found ← cache_get key;
  match found with
  | Some e =>
      t ← perform DateNow;
      if within (t - ts e) maxAgeMs then
        let cacheRes :=
          {| jsonrpc := "2.0"; res_id := reqId; result := val e |} in
        cache_set key
          {| val := val e; ts := ts e;
             readCnt := readCnt e + 1; writeCnt := writeCnt e |};;
        mret (Some cacheRes)
      else mret None
  | None => mret None
  end.

(** [function writeResponseToCache(key, val)] *)
Definition writeResponseToCache (key : string) (v : option Json.value)
    : prog unit :=
  t ← perform DateNow;
  old ← cache_get key;
  cache_set key
    {| val := v; ts := t;
       readCnt := match old with Some e => readCnt e | None => 0 end;
       writeCnt := match old with Some e => writeCnt e + 1 | None => 1 end |}.

Definition cacheMaxAgeMs (method : string) : MaxAge :=
  if includes ["eth_chainId"; "net_version"] method
  then Infinity
  else Ms (CACHE_MAX_AGE * 1000).

Definition cacheable (req : ReqBody) : bool :=
  includes ["eth_chainId"; "eth_blockNumber"; "net_version";
            "eth_getTransactionReceipt"] (body_method req).

(** The POST handler from the cache lookup on. *)
Definition respond (req : ReqBody) (cacheKey : string) : prog unit :=
  cachedResponse ← getResponseFromCache cacheKey
                     (cacheMaxAgeMs (body_method req)) (body_id req);
  match cachedResponse with
  | Some c =>
      perform (ResSend 200 (PCached c));;
      incr_httpCacheResCnt
  | None =>
      try_catch
        (rpcRes ← upstreamHttpRequest rpc req 10 2000;
         incr_httpUpstreamResCnt;;
         perform (ResSend 200 (PUpstream (data rpcRes)));;
         if cacheable req then
           r ← data_result (data rpcRes);
           writeResponseToCache cacheKey r
         else mret tt)
        (λ err,
           perform (ConsoleError ("upstream request permanently failed: " +:+ to_string err));;
           perform (ResSend 500 (PError err)))
  end;;
  incr_httpReqCnt.

(** [app.post("/", async (req, res) => { ... })] *)
Definition handlePost (req : ReqBody) : prog unit :=
  let cacheKey := getCacheKey req in
  delayDuplicate cacheKey;;
  recordCall cacheKey;;
  respond req cacheKey.

End WithConfig.

End AppJs.

(** ** Reading a serialization back

    What the proof that [JSON.stringify] is injective needs to name: the
    inverse of one escaped character, and the characters a value or a
    number can start with. *)

Module JsonLex.
Import Json.

Definition unhex (c : ascii) : N :=
  let n := N_of_ascii c in if (n <? 58)%N then (n - 48)%N else (n - 87)%N.

Definition unescape_char (s : string) : option (ascii * string) :=
  match s with
  | EmptyString => None
  | String c r =>
      if Ascii.eqb c backslash then
        match r with
        | String e r' =>
            if Ascii.eqb e "u" then
              match r' with
              | String _ (String _ (String h (String l r''))) =>
                  Some (ascii_of_N (16 * unhex h + unhex l), r'')
              | _ => None
              end
            else if Ascii.eqb e "b" then Some ("008"%char, r')
            else if Ascii.eqb e "t" then Some ("009"%char, r')
            else if Ascii.eqb e "n" then Some ("010"%char, r')
            else if Ascii.eqb e "f" then Some ("012"%char, r')
            else if Ascii.eqb e "r" then Some ("013"%char, r')
            else Some (e, r')
        | EmptyString => None
        end
      else Some (c, r)
  end.

Definition is_digit (c : ascii) : bool :=
  let n := N_of_ascii c in ((48 <=? n) && (n <=? 57))%N.

(** What may follow a number without being read as part of it. *)
Definition ok_rest (r : string) : bool :=
  match r with EmptyString => true | String c _ => negb (is_digit c) end.

Definition num_start (c : ascii) : bool := is_digit c || Ascii.eqb c "-".

Definition value_start (c : ascii) : bool :=
  num_start c || bool_decide (c ∈ ["n"; "t"; "f"; dquote; "["; "{"]%char).

Definition inj_at (v1 : value) : Prop :=
  ∀ v2 r1 r2, ok_rest r1 → ok_rest r2 →
    stringify v1 +:+ r1 = stringify v2 +:+ r2 → v1 = v2 ∧ r1 = r2.

End JsonLex.

(** ** Vocabulary of the statements *)

Module Obs.
Import Js Shared.

(** The events a run added to the trace. *)
Definition new_events (w w' : World) : list event :=
  drop (length (trace w)) (trace w').

(** The timer delays in a list of events, in order. *)
Fixpoint sleeps (evs : list event) : list Z :=
  match evs with
  | [] => []
  | EvSleep ms :: evs' => ms :: sleeps evs'
  | _ :: evs' => sleeps evs'
  end.

(** The number of upstream posts in a list of events. *)
Fixpoint attempts (evs : list event) : nat :=
  match evs with
  | [] => 0
  | EvPost _ _ :: evs' => S (attempts evs')
  | _ :: evs' => attempts evs'
  end.

(** What the retry loop does when post after post fails without a
    response: a post, then for each retry a wait and a post, the wait
    doubling. *)
Fixpoint retry_trace (rpc : string) (reqBody : ReqBody) (nrRetries : nat)
    (timeoutMs : Z) : list event :=
  EvPost rpc reqBody ::
  match nrRetries with
  | O => []
  | S n => EvSleep timeoutMs :: retry_trace rpc reqBody n (timeoutMs * 2)
  end.

(** The failure carries a response: [err.response] is set, the upstream
    answered with an HTTP error status. *)
Definition has_response (f : axios_failure) : bool :=
  match f with
  | WithResponse _ => true
  | _ => false
  end.

(** The next [n] upstream posts fail, none of them with a response: the
    connection is refused or reset, or the post times out. *)
Definition upstream_unreachable (env : Env) (w : World) (n : nat) : Prop :=
  ∀ i, (i < n)%nat →
    ∃ f, upstream env (n_post w + i) = inl f ∧ has_response f = false.

(** What the retry loop throws when [f] is the failure it stops at. *)
Definition rejection (f : axios_failure) : exn :=
  if has_response f then TypeError "Converting circular structure to JSON"
  else ReferenceError "forwardErr is not defined".

(** The request counts as a duplicate: a record for its key exists and is
    younger than the threshold. *)
Definition recentb (w : World) (key : string) : bool :=
  match duplicateDetector (globals w) !! key with
  | Some lastSeenAt => now w - lastSeenAt <? DUPLICATE_DELAY_TRIGGER_THRESHOLD_MS
  | None => false
  end.

(** The delay the handler draws for a duplicate. *)
Definition delayMs (env : Env) (w : World) : Z :=
  DUPLICATE_MIN_DELAY_MS +
  Qfloor (random env (n_random w) * inject_Z DUPLICATE_RANDOM_MAX_EXTRA_DELAY_MS).

(** [Math.random()] answers in the interval it is specified to. *)
Definition fair_random (env : Env) : Prop :=
  ∀ i, (0 <= random env i)%Q ∧ (random env i < 1)%Q.

(** The world once [duplicateDetector.set(key, Date.now())] has run. *)
Definition recorded (key : string) (w : World) : World :=
  set_globals
    (with_duplicateDetector (<[key := now w]> (duplicateDetector (globals w)))
       (globals w)) w.

(** What the POST handler [handler] of a request with key [key] does with
    the duplicate record, started in [w]: when it is done the record holds
    the time read once the duplicate check (and its delay, if it had one)
    was over; a duplicate pauses on the delay timer with the shared state
    as it found it, and resumes no earlier than the delay after its
    arrival. *)
Definition records_after_delay (env : Env) (handler : prog unit)
    (key : string) (w : World) : Prop :=
  let resumed := (exec env (delayDuplicate key) w).2 in
  duplicateDetector (globals (exec env handler w).2) !! key = Some (now resumed) ∧
  if recentb w key
  then awaited_timeout (run_sync env handler w).1 = Some (delayMs env w) ∧
       globals (run_sync env handler w).2 = globals w ∧
       now resumed =
         now w + Z.max 0 (delayMs env w) + Z.of_N (lag env (n_await w))
  else now resumed = now w.

(** The entry after a lookup that found it fresh: [readCnt] one up. *)
Definition touch (e : CacheEntry) : CacheEntry :=
  {| val := val e; ts := ts e; readCnt := readCnt e + 1; writeCnt := writeCnt e |}.

(** The world with [e] stored in the in-memory cache under [key]. *)
Definition cached (key : string) (e : CacheEntry) (w : World) : World :=
  set_globals (with_cache (<[key := e]> (cache (globals w))) (globals w)) w.

(** What the lookup of the file with the sqlite backing returns for a
    stored value it found fresh: nothing for [undefined] and [null]. *)
Definition served (reqId : option Json.value) (v : option Json.value)
    : option CachedResponse :=
  match v with
  | Some Json.Null | None => None
  | Some r => Some {| jsonrpc := "2.0"; res_id := reqId; result := Some r |}
  end.

(** A run ended in a cache hit. *)
Definition is_hit (r : option CachedResponse + exn) : Prop :=
  ∃ c, r = inl (Some c).

(** A run posted [req] to the upstream at [rpc]. *)
Definition forwarded (rpc : string) (req : ReqBody) (w w' : World) : Prop :=
  EvPost rpc req ∈ new_events w w'.

(** Every entry of the in-memory cache was written at or before the
    current time: the clock has not gone back since. *)
Definition written_in_past (w : World) : Prop :=
  ∀ k e, cache (globals w) !! k = Some e → ts e ≤ now w.

(** The operations on the cache store, and a history of them, each after
    some time has passed. *)
Inductive cache_op : Type :=
| Lookup (key : string) (maxAgeMs : MaxAge) (reqId : option Json.value)
| Store (key : string) (v : option Json.value).

Definition run_op (parse : option string → Json.value + exn) (op : cache_op)
    : prog unit :=
  match op with
  | Lookup key maxAgeMs reqId =>
      AppDb.getResponseFromCache parse key maxAgeMs reqId;; mret ()
  | Store key v => AppDb.writeResponseToCache key v
  end.

Definition elapse (dt : N) (w : World) : World :=
  {| globals := globals w; db := db w; now := now w + Z.of_N dt;
     n_random := n_random w; n_post := n_post w; n_await := n_await w;
     n_db := n_db w; trace := trace w; console := console w |}.

Fixpoint run_ops (env : Env) (parse : option string → Json.value + exn)
    (ops : list (N * cache_op)) (w : World) : World :=
  match ops with
  | [] => w
  | (dt, op) :: ops' =>
      run_ops env parse ops' (exec env (run_op parse op) (elapse dt w)).2
  end.

(** An entry as a later state of another: written no earlier, written and
    read no fewer times. *)
Definition evolved (e e' : CacheEntry) : Prop :=
  ts e ≤ ts e' ∧ writeCnt e ≤ writeCnt e' ∧ readCnt e ≤ readCnt e'.

(** The value stored for [key] is [null]: in the in-memory map, or, when
    the map has no entry, in the row of the durable store. *)
Definition stored_null (w : World) (key : string) : Prop :=
  match cache (globals w) !! key with
  | Some e => val e = Some Json.Null
  | None =>
      ∃ store row, db w = Some store ∧ store !! key = Some row ∧
                   row_val row = Some "null"
  end.

(** The methods whose results one of the two files writes to the cache. *)
Definition cacheable_methods : list string :=
  ["eth_chainId"; "eth_blockNumber"; "net_version"; "eth_call";
   "eth_getTransactionReceipt"].

(** Whatever the environment answers, the first thing [p] does that shows
    in the trace is to post [req] to the upstream at [rpc]. *)
Definition posts_first {A} (rpc : string) (req : ReqBody) (p : prog A) : Prop :=
  ∀ env w, ∃ evs, trace (exec env p w).2 = trace w ++ EvPost rpc req :: evs.

(** A relation between the world before and after that a program
    maintains, whatever the environment answers. *)
Definition preserves {A} (R : World → World → Prop) (p : prog A) : Prop :=
  ∀ env w, R w (exec env p w).2.

Definition same_globals (w w' : World) : Prop := globals w' = globals w.

Definition same_detector (w w' : World) : Prop :=
  duplicateDetector (globals w') = duplicateDetector (globals w).

Definition trace_grows (w w' : World) : Prop := trace w `prefix_of` trace w'.

#[global] Instance same_globals_refl : Reflexive same_globals.
Proof. by intros w. Qed.
#[global] Instance same_globals_trans : Transitive same_globals.
Proof. unfold same_globals. intros w1 w2 w3 H1 H2. congruence. Qed.
#[global] Instance same_detector_refl : Reflexive same_detector.
Proof. by intros w. Qed.
#[global] Instance same_detector_trans : Transitive same_detector.
Proof. unfold same_detector. intros w1 w2 w3 H1 H2. congruence. Qed.
#[global] Instance trace_grows_refl : Reflexive trace_grows.
Proof. intros w. unfold trace_grows. reflexivity. Qed.
#[global] Instance trace_grows_trans : Transitive trace_grows.
Proof. unfold trace_grows. intros w1 w2 w3 H1 H2. by etrans. Qed.

End Obs.

(** ** Sample inputs *)

Module Samples.
Import Js Shared Obs.

Definition no_globals : Globals :=
  {| cache := ∅; duplicateDetector := ∅; httpReqCnt := 0;
     httpUpstreamResCnt := 0; httpCacheResCnt := 0 |}.

(** A fresh process at time [t], without or with the sqlite backing. *)
Definition boot (t : Z) : World :=
  {| globals := no_globals; db := None; now := t; n_random := 0; n_post := 0;
     n_await := 0; n_db := 0; trace := []; console := [] |}.

Definition boot_db (t : Z) : World := set_db (Some ∅) (boot t).

Definition reply (v : Json.value) : axios_failure + AxiosResponse :=
  inr {| data := Json.Obj [("jsonrpc", Json.Str "2.0"); ("id", Json.Num 1);
                           ("result", v)] |}.

(** An upstream that answers every post with [v], timers and posts that
    take no longer than they must, [Math.random() = 1/2]. *)
Definition env_up (v : Json.value) : Env :=
  {| random := λ _, (1 # 2)%Q; upstream := λ _, reply v;
     lag := λ _, 0%N; db_error := λ _, None |}.

(** An upstream that answers every post with HTTP 429. *)
Definition env_down : Env :=
  {| random := λ _, (1 # 2)%Q;
     upstream := λ _, inl (WithResponse (Json.Obj [("status", Json.Num 429)]));
     lag := λ _, 0%N; db_error := λ _, None |}.

(** An upstream that cannot be reached: every post fails without a
    response, and [err.request.data] is [undefined]. *)
Definition env_unreachable : Env :=
  {| random := λ _, (1 # 2)%Q;
     upstream := λ _, inl (NoResponse None);
     lag := λ _, 0%N; db_error := λ _, None |}.

(** An upstream that cannot be reached for the first [n] posts and answers
    [v] from then on. *)
Definition env_recovering (n : nat) (v : Json.value) : Env :=
  {| random := λ _, (1 # 2)%Q;
     upstream := λ i, if (i <? n)%nat then inl (NoResponse None) else reply v;
     lag := λ _, 0%N; db_error := λ _, None |}.

(** The process after it has seen a request with key [key] at time [t]. *)
Definition seen (key : string) (t : Z) (w : World) : World :=
  set_globals
    (with_duplicateDetector (<[key := t]> (duplicateDetector (globals w)))
       (globals w)) w.

(** An upstream that answers every post with a JSON-RPC error object: the
    body has no [result] member. *)
Definition env_rpc_error : Env :=
  {| random := λ _, (1 # 2)%Q;
     upstream := λ _, inr {| data := Json.Obj
       [("jsonrpc", Json.Str "2.0"); ("id", Json.Num 2);
        ("error", Json.Obj [("code", Json.Num (-32005));
                            ("message", Json.Str "rate limited")])] |};
     lag := λ _, 0%N; db_error := λ _, None |}.

Definition upstream_url : string := "http://upstream".

Definition no_parse : option string → Json.value + exn :=
  λ _, inr (TypeError "JSON.parse").

Definition chainId : ReqBody :=
  {| body_method := "eth_chainId"; body_params := Some (Json.Arr []);
     body_id := Some (Json.Num 1) |}.

Definition blockNumber : ReqBody :=
  {| body_method := "eth_blockNumber"; body_params := Some (Json.Arr []);
     body_id := Some (Json.Num 2) |}.

Definition receipt : ReqBody :=
  {| body_method := "eth_getTransactionReceipt";
     body_params := Some (Json.Arr [Json.Str "0xabc"]);
     body_id := Some (Json.Num 3) |}.

(** [eth_call] pinned to a block by hash, and the same call with the members
    of its first object in the other order. *)
Definition call_params : Json.value :=
  Json.Arr [Json.Obj [("to", Json.Str "0x01"); ("data", Json.Str "0x02")];
            Json.Obj [("blockHash", Json.Str "0x03")]].


Definition call_at_block : ReqBody :=
  {| body_method := "eth_call"; body_params := Some call_params;
     body_id := Some (Json.Num 4) |}.


(** The process after it has answered [req] once, with the upstream of
    [env], the default [CACHE_MAX_AGE] and no sqlite backing. *)
Definition after_call (env : Env) (req : ReqBody) : World :=
  (exec env (AppDb.handlePost upstream_url 10 no_parse req) (boot 0)).2.

(** The same for [app.js]. *)
Definition after_call_js (env : Env) (req : ReqBody) : World :=
  (exec env (AppJs.handlePost upstream_url 10 req) (boot 0)).2.

(** The process with the sqlite backing after it has answered [req] once. *)
Definition after_call_db (env : Env) (req : ReqBody) : World :=
  (exec env (AppDb.handlePost upstream_url 10 no_parse req) (boot_db 0)).2.

(** A mined receipt. *)
Definition mined : Json.value :=
  Json.Obj [("status", Json.Str "0x1"); ("blockNumber", Json.Str "0x10")].

End Samples.
(** ** Vocabulary of the statements about whole requests *)

Module Session.
Import Js Shared Obs.

(** The responses among a list of events: status and payload, in order. *)
Fixpoint responses (evs : list event) : list (Z * payload) :=
  match evs with
  | [] => []
  | EvSend status p :: evs' => (status, p) :: responses evs'
  | _ :: evs' => responses evs'
  end.

Definition is_cached (r : Z * payload) : bool :=
  match r.2 with PCached _ => true | _ => false end.

Definition is_upstream (r : Z * payload) : bool :=
  match r.2 with PUpstream _ => true | _ => false end.

(** The calls of [res.send] the handler makes for one request: one with
    the envelope built from the cache; one with the body of the upstream
    response; that one and then, an exception having been thrown after it,
    a second one from the [catch] block, with the exception; one from the
    [catch] block, with the exception the retry loop ended in. *)
Inductive answered : list (Z * payload) → Prop :=
| from_cache c : answered [(200, PCached c)]
| from_upstream d : answered [(200, PUpstream d)]
| from_upstream_then_error d e : answered [(200, PUpstream d); (500, PError e)]
| with_error e : answered [(500, PError e)].

(** The world once [httpReqCnt++], [httpUpstreamResCnt++] or
    [httpCacheResCnt++] has run. *)
Definition request_counted (w : World) : World :=
  set_globals
    {| cache := cache (globals w);
       duplicateDetector := duplicateDetector (globals w);
       httpReqCnt := httpReqCnt (globals w) + 1;
       httpUpstreamResCnt := httpUpstreamResCnt (globals w);
       httpCacheResCnt := httpCacheResCnt (globals w) |} w.

Definition upstream_counted (w : World) : World :=
  set_globals
    {| cache := cache (globals w);
       duplicateDetector := duplicateDetector (globals w);
       httpReqCnt := httpReqCnt (globals w);
       httpUpstreamResCnt := httpUpstreamResCnt (globals w) + 1;
       httpCacheResCnt := httpCacheResCnt (globals w) |} w.

Definition cached_counted (w : World) : World :=
  set_globals
    {| cache := cache (globals w);
       duplicateDetector := duplicateDetector (globals w);
       httpReqCnt := httpReqCnt (globals w);
       httpUpstreamResCnt := httpUpstreamResCnt (globals w);
       httpCacheResCnt := httpCacheResCnt (globals w) + 1 |} w.

(** The statements of the POST handler that follow [res.send(rpcRes.data)]:
    the condition, and the write if it holds. *)
Definition AppDb_cacheResult (req : ReqBody) (cacheKey : string)
    (rpcRes : AxiosResponse) : prog unit :=
  c ← AppDb.cacheable req;
  if (c : bool) then
    r ← data_result (data rpcRes);
    AppDb.writeResponseToCache cacheKey r
  else mret tt.

Definition AppJs_cacheResult (req : ReqBody) (cacheKey : string)
    (rpcRes : AxiosResponse) : prog unit :=
  if AppJs.cacheable req then
    r ← data_result (data rpcRes);
    AppJs.writeResponseToCache cacheKey r
  else mret tt.

(** The world once the [catch (err)] block of the handler has run. *)
Definition failed (err : exn) (w : World) : World :=
  emit (EvSend 500 (PError err))
    (logged ("upstream request permanently failed: " +:+ to_string err) w).

(** A run that sent the responses [sent] and added [requests],
    [upstreamResponses] and [cachedResponses] to the three counters. *)
Definition ran (sent : list (Z * payload))
    (requests upstreamResponses cachedResponses : Z) (w w' : World) : Prop :=
  (∃ evs, trace w' = trace w ++ evs ∧ responses evs = sent) ∧
  httpReqCnt (globals w') = httpReqCnt (globals w) + requests ∧
  httpUpstreamResCnt (globals w') =
    httpUpstreamResCnt (globals w) + upstreamResponses ∧
  httpCacheResCnt (globals w') = httpCacheResCnt (globals w) + cachedResponses.

(** A run that sent no response and left the counters alone. *)
Definition silent : World → World → Prop := ran [] 0 0 0.

(** A run that answered one request and counted it: the two response
    counters went up by the number of responses of their kind that were
    sent, and, where [res.send] was called once, the request counter went
    up by one. *)
Definition accounted (w w' : World) : Prop :=
  let sent := responses (new_events w w') in
  answered sent ∧
  httpCacheResCnt (globals w') =
    httpCacheResCnt (globals w) + Z.of_nat (length (filter is_cached sent)) ∧
  httpUpstreamResCnt (globals w') =
    httpUpstreamResCnt (globals w) + Z.of_nat (length (filter is_upstream sent)) ∧
  (length sent = 1%nat →
   httpReqCnt (globals w') = httpReqCnt (globals w) + 1).

(** A run that answered one request with the exception the retry loop
    throws when no retry is left: eleven posts, a wait of
    2000 * (2^10 - 1) ms or more, one response with status 500, a request
    counted, nothing cached. *)
Definition gave_up (w w' : World) : Prop :=
  responses (new_events w w') =
    [(500, PError (ReferenceError "forwardErr is not defined"))] ∧
  attempts (new_events w w') = 11%nat ∧
  now w + 2046000 ≤ now w' ∧
  cache (globals w') = cache (globals w) ∧
  httpUpstreamResCnt (globals w') = httpUpstreamResCnt (globals w) ∧
  httpCacheResCnt (globals w') = httpCacheResCnt (globals w) ∧
  httpReqCnt (globals w') = httpReqCnt (globals w) + 1.

(** A run that answered one request with the exception the catch block of
    the retry loop throws at the first post: one post, no wait but the
    delay of a duplicate, one response with status 500 and a [TypeError],
    a request counted, nothing cached. *)
Definition turned_away (env : Env) (key : string) (w w' : World) : Prop :=
  (∃ msg, responses (new_events w w') = [(500, PError (TypeError msg))]) ∧
  attempts (new_events w w') = 1%nat ∧
  sleeps (new_events w w') = (if recentb w key then [delayMs env w] else []) ∧
  cache (globals w') = cache (globals w) ∧
  httpUpstreamResCnt (globals w') = httpUpstreamResCnt (globals w) ∧
  httpCacheResCnt (globals w') = httpCacheResCnt (globals w) ∧
  httpReqCnt (globals w') = httpReqCnt (globals w) + 1.

(** Requests handled one after the other, each arriving some time after the
    one before it was done with. *)
Fixpoint run_requests (env : Env) (handler : ReqBody → prog unit)
    (reqs : list (N * ReqBody)) (w : World) : World :=
  match reqs with
  | [] => w
  | (dt, req) :: reqs' =>
      run_requests env handler reqs' (exec env (handler req) (elapse dt w)).2
  end.

(** The in-memory cache is empty and the sqlite backing is in place. *)
Definition durable_only (w : World) : Prop :=
  cache (globals w) = ∅ ∧ is_Some (db w).

(** The in-memory cache has an entry for [key] that is no older than
    [maxAgeMs] at time [t]; and one whose value is neither [undefined] nor
    [null]. *)
Definition fresh_entry (key : string) (maxAgeMs : MaxAge) (t : Z) (w : World)
    : Prop :=
  ∃ e, cache (globals w) !! key = Some e ∧ within (t - ts e) maxAgeMs = true.

Definition fresh_value (key : string) (maxAgeMs : MaxAge) (t : Z) (w : World)
    : Prop :=
  ∃ e, cache (globals w) !! key = Some e ∧ within (t - ts e) maxAgeMs = true ∧
       val e ≠ None ∧ val e ≠ Some Json.Null.

(** A count added up over the entries of the in-memory cache: what the
    per-key lines of [printStats] add up to. *)
Definition total (count : CacheEntry → Z) (w : World) : Z :=
  map_fold (λ _ e acc, count e + acc) 0 (cache (globals w)).

(** Over a run the read counts went up by as much as [httpCacheResCnt];
    by no less; and the write counts went up by no more than
    [httpUpstreamResCnt]. *)
Definition reads_are_hits (w w' : World) : Prop :=
  total readCnt w' - total readCnt w =
  httpCacheResCnt (globals w') - httpCacheResCnt (globals w).

Definition hits_are_reads (w w' : World) : Prop :=
  httpCacheResCnt (globals w') - httpCacheResCnt (globals w) ≤
  total readCnt w' - total readCnt w.

Definition writes_are_responses (w w' : World) : Prop :=
  total writeCnt w' - total writeCnt w ≤
  httpUpstreamResCnt (globals w') - httpUpstreamResCnt (globals w).

(** The sqlite backing, once in place, stays in place. *)
Definition keeps_db (w w' : World) : Prop := is_Some (db w) → is_Some (db w').

(** The keys of a list of requests. *)
Definition keys (reqs : list (N * ReqBody)) : gset string :=
  list_to_set ((λ r, getCacheKey r.2) <$> reqs).

(** A method name without an opening bracket or brace, and parameters that
    are an array or an object, as JSON-RPC 2.0 has them. *)
Definition is_opening (c : ascii) : bool :=
  Ascii.eqb c "[" || Ascii.eqb c "{".

Fixpoint plain (s : string) : bool :=
  match s with
  | EmptyString => true
  | String c s' => negb (is_opening c) && plain s'
  end.

Definition structured (params : option Json.value) : Prop :=
  match params with
  | Some (Json.Arr _) | Some (Json.Obj _) => True
  | _ => False
  end.

Definition well_formed (req : ReqBody) : Prop :=
  plain (body_method req) = true ∧ structured (body_params req).

(** The methods whose results each file writes to the cache. *)
Definition AppDb_written : list string :=
  ["eth_chainId"; "eth_blockNumber"; "net_version"; "eth_call"].

Definition AppJs_written : list string :=
  ["eth_chainId"; "eth_blockNumber"; "net_version"; "eth_getTransactionReceipt"].

(** Every key of the in-memory cache is the key of a well-formed call of
    one of [methods]. *)
Definition keyed_by (methods : list string) (w : World) : Prop :=
  ∀ k, is_Some (cache (globals w) !! k) →
       ∃ req, well_formed req ∧ body_method req ∈ methods ∧ k = getCacheKey req.

(** The in-memory cache has got no key but those it had and those in
    [added]. *)
Definition grows_by (added : gset string) (w w' : World) : Prop :=
  ∀ k, is_Some (cache (globals w') !! k) →
       is_Some (cache (globals w) !! k) ∨ k ∈ added.

End Session.

(** ** More sample inputs *)

Module Cases.
Import Js Shared Obs Samples.

(** [eth_call] with its parameters by name: [params] is an object. *)
Definition call_by_name : ReqBody :=
  {| body_method := "eth_call";
     body_params := Some (Json.Obj [("to", Json.Str "0x01");
                                    ("data", Json.Str "0x02");
                                    ("blockHash", Json.Str "0x03")]);
     body_id := Some (Json.Num 5) |}.

(** A method whose results are not cached. *)
Definition getBalance : ReqBody :=
  {| body_method := "eth_getBalance";
     body_params := Some (Json.Arr [Json.Str "0xabc"; Json.Str "latest"]);
     body_id := Some (Json.Num 6) |}.

Definition getBalance_again : ReqBody :=
  {| body_method := "eth_getBalance";
     body_params := Some (Json.Arr [Json.Str "0xabc"; Json.Str "latest"]);
     body_id := Some (Json.Num 8) |}.

(** [eth_blockNumber] again, from another client: another [id]. *)
Definition blockNumber_again : ReqBody :=
  {| body_method := "eth_blockNumber"; body_params := Some (Json.Arr []);
     body_id := Some (Json.Num 7) |}.

End Cases.

(** ** The websocket relay *)

Module Ws.

(** A socket the server accepted: the [conn] of a "connection" event. *)
Definition sock : Type := nat.

(** What the event loop delivers to the listeners [handleWsConnection]
    registers.  A message is the text its [toString()] gives.
    [SendCallback] is the call of the callback handed to [client.send],
    which closes over [connId]; [None] is [undefined]. *)
Inductive input : Type :=
| Connection (conn : sock)
| ConnMessage (conn : sock) (data : string)
| ClientMessage (msg : string)
| SendCallback (connId : nat) (err : option string)
| ServerClose
| ServerError (err : string)
| ClientOpen.

(** What the listeners do: a line on the console, [client.send], or
    [conn.send]. *)
Inductive output : Type :=
| Log (line : string)
| ClientSend (data : string)
| ConnSend (conn : sock) (msg : string).

(** [connCnt], and the listeners registered so far, in the order of their
    registration: those on the "message" event of an accepted socket, each
    with the [connId] it closes over, those on the "message" event of the
    upstream socket, and whether the [once("open")] listener is still
    there. *)
Record State : Type := {
  connCnt : nat;
  on_conn_message : list (sock * nat);
  on_client_message : list (nat * sock);
  once_open : bool
}.

(** [handleWsConnection(rpcUrl)]: the state it returns in, with [connCnt]
    at 0, the [once("open")] listener registered and no socket accepted
    yet.  What its listeners do is [step]. *)
Definition handleWsConnection : State :=
  {| connCnt := 0; on_conn_message := []; on_client_message := [];
     once_open := true |}.

Definition show (n : nat) : string := Json.string_of_Z (Z.of_nat n).

(** The listeners [handleWsConnection] registers, each run on the event it
    listens to: on "connection" of the server, on "message" of an accepted
    socket, on "message" of the upstream socket, the callback of
    [client.send], and the three that only log. *)
Definition step (i : input) (s : State) : list output * State :=
  match i with
  | Connection conn =>
      let connId := connCnt s in
      ([Log ("WS #" +:+ show connId +:+ " client connection established")],
       {| connCnt := S (connCnt s);
          on_conn_message := on_conn_message s ++ [(conn, connId)];
          on_client_message := on_client_message s ++ [(connId, conn)];
          once_open := once_open s |})
  | ConnMessage conn data =>
      (flat_map
         (λ l : sock * nat,
            if decide (l.1 = conn)
            then [Log ("WS #" +:+ show l.2 +:+ " forwarding: " +:+ data);
                  ClientSend data]
            else [])
         (on_conn_message s), s)
  | ClientMessage msg =>
      (flat_map
         (λ l : nat * sock,
            [Log ("WS #" +:+ show l.1 +:+ " backwarding: " +:+ msg);
             ConnSend l.2 msg])
         (on_client_message s), s)
  | SendCallback connId err =>
      (match err with
       | Some e => [Log ("### WS #" +:+ show connId +:+ " send error: " +:+ e)]
       | None => []
       end, s)
  | ServerClose => ([Log "### A connection was closed"], s)
  | ServerError err => ([Log ("### Error " +:+ err)], s)
  | ClientOpen =>
      if once_open s
      then ([Log "WS upstream connected!"],
            {| connCnt := connCnt s; on_conn_message := on_conn_message s;
               on_client_message := on_client_message s; once_open := false |})
      else ([], s)
  end.

(** A history of events, delivered one after the other. *)
Fixpoint run (ins : list input) (s : State) : list output * State :=
  match ins with
  | [] => ([], s)
  | i :: ins' =>
      let '(o, s') := step i s in
      let '(os, s'') := run ins' s' in
      (o ++ os, s'')
  end.

(** The sockets accepted in a history, in the order they connected. *)
Fixpoint connections (ins : list input) : list sock :=
  match ins with
  | [] => []
  | Connection conn :: ins' => conn :: connections ins'
  | _ :: ins' => connections ins'
  end.

(** The texts handed to [client.send], and the calls of [conn.send]. *)
Fixpoint to_upstream (os : list output) : list string :=
  match os with
  | [] => []
  | ClientSend data :: os' => data :: to_upstream os'
  | _ :: os' => to_upstream os'
  end.

Fixpoint to_clients (os : list output) : list (sock * string) :=
  match os with
  | [] => []
  | ConnSend conn msg :: os' => (conn, msg) :: to_clients os'
  | _ :: os' => to_clients os'
  end.

End Ws.


(** * Properties *)

(** ** [JSON.stringify] is injective *)

Module JsonFacts.
Import Json JsonLex.
Local Arguments String.append !_ _ : simpl nomatch.

Lemma unescape_escape_char c r : unescape_char (escape_char c +:+ r) = Some (c, r).
Proof. destruct c as [[] [] [] [] [] [] [] []]; reflexivity. Qed.

Lemma escape_char_head c r : ∃ h t, escape_char c +:+ r = String h t ∧ h ≠ dquote.
Proof.
  destruct c as [[] [] [] [] [] [] [] []];
    (eexists _, _; split; [reflexivity | discriminate]).
Qed.

Lemma app_assoc_s (a b c : string) : (a +:+ b) +:+ c = a +:+ (b +:+ c).
Proof. induction a as [|x a IH]; simpl; [done | by rewrite IH]. Qed.

Lemma escape_inj_app s1 s2 r1 r2 :
  escape s1 +:+ String dquote r1 = escape s2 +:+ String dquote r2 →
  s1 = s2 ∧ r1 = r2.
Proof.
  revert s2; induction s1 as [|c1 s1 IH]; intros [|c2 s2]; simpl.
  - intros [= ->]. done.
  - rewrite app_assoc_s. intros H.
    destruct (escape_char_head c2 (escape s2 +:+ String dquote r2)) as (h & t & E & Hh).
    rewrite E in H. congruence.
  - rewrite app_assoc_s. intros H.
    destruct (escape_char_head c1 (escape s1 +:+ String dquote r1)) as (h & t & E & Hh).
    rewrite E in H. congruence.
  - rewrite !app_assoc_s. intros H.
    apply (f_equal unescape_char) in H. rewrite !unescape_escape_char in H.
    injection H as -> H. destruct (IH _ H) as [-> ->]. done.
Qed.

Lemma quote_inj_app s1 s2 r1 r2 :
  quote s1 +:+ r1 = quote s2 +:+ r2 → s1 = s2 ∧ r1 = r2.
Proof.
  unfold quote. simpl. rewrite !app_assoc_s. simpl. intros [= H].
  by apply escape_inj_app.
Qed.


Lemma uint_inj_app d1 d2 r1 r2 :
  ok_rest r1 → ok_rest r2 →
  NilEmpty.string_of_uint d1 +:+ r1 = NilEmpty.string_of_uint d2 +:+ r2 →
  d1 = d2 ∧ r1 = r2.
Proof.
  intros H1 H2. revert d2.
  induction d1 as [|d1 IH|d1 IH|d1 IH|d1 IH|d1 IH|d1 IH|d1 IH|d1 IH|d1 IH|d1 IH];
    intros [|d2|d2|d2|d2|d2|d2|d2|d2|d2|d2]; simpl; intros E;
    try discriminate E;
    try (injection E as E; destruct (IH _ E) as [-> ->]; done);
    try (subst; simpl in *; done).
Qed.

Lemma uint_head d r :
  d ≠ Decimal.Nil →
  ∃ h t, NilEmpty.string_of_uint d +:+ r = String h t ∧ is_digit h = true.
Proof. destruct d; intros H; try done; simpl; eauto. Qed.

Lemma string_of_Z_head z r :
  ∃ h t, string_of_Z z +:+ r = String h t ∧ num_start h = true.
Proof.
  unfold string_of_Z. destruct z as [|p|p]; simpl.
  - eauto.
  - destruct (uint_head (Pos.to_uint p) r (Unsigned.to_uint_nonnil p))
      as (h & t & -> & Hh).
    exists h, t. split; [done|]. unfold num_start. by rewrite Hh.
  - eauto.
Qed.

Lemma string_of_Z_inj_app z1 z2 r1 r2 :
  ok_rest r1 → ok_rest r2 →
  string_of_Z z1 +:+ r1 = string_of_Z z2 +:+ r2 → z1 = z2 ∧ r1 = r2.
Proof.
  intros H1 H2 E. unfold string_of_Z in E.
  assert (Z.to_int z1 = Z.to_int z2 ∧ r1 = r2) as [Hz ->].
  { destruct (Z.to_int z1) as [d1|d1] eqn:E1, (Z.to_int z2) as [d2|d2] eqn:E2;
      simpl in E.
    - destruct (uint_inj_app _ _ _ _ H1 H2 E) as [-> ->]. done.
    - assert (d1 ≠ Decimal.Nil) as Hd.
      { destruct z1; simplify_eq/=; first [done|apply Unsigned.to_uint_nonnil]. }
      destruct (uint_head d1 r1 Hd) as (h & t & Eh & Hh).
      rewrite Eh in E. by simplify_eq.
    - assert (d2 ≠ Decimal.Nil) as Hd.
      { destruct z2; simplify_eq/=; first [done|apply Unsigned.to_uint_nonnil]. }
      destruct (uint_head d2 r2 Hd) as (h & t & Eh & Hh).
      rewrite Eh in E. by simplify_eq.
    - injection E as E.
      destruct (uint_inj_app _ _ _ _ H1 H2 E) as [-> ->]. done. }
  split; [by apply to_int_inj | done].
Qed.

Lemma stringify_Arr l : stringify (Arr l) = "[" +:+ elems l.
Proof. reflexivity. Qed.

Lemma stringify_Obj m : stringify (Obj m) = "{" +:+ members m.
Proof. reflexivity. Qed.

Lemma stringify_head v r :
  ∃ h t, stringify v +:+ r = String h t ∧ value_start h = true.
Proof.
  destruct v as [|[]|z|s|l|m]; try (simpl; eauto; fail).
  destruct (string_of_Z_head z r) as (h & t & E & Hh).
  exists h, t. split; [done|]. unfold value_start. by rewrite Hh.
Qed.


Ltac bad_head E Eh Hh :=
  first [rewrite Eh in E | simpl in E; rewrite Eh in E];
  simpl in E; injection E as E _; subst;
  vm_compute in Hh; discriminate Hh.

Lemma elems_cons x l :
  elems (x :: l) =
  stringify x +:+ match l with [] => "]" | _ :: _ => "," +:+ elems l end.
Proof. reflexivity. Qed.

Lemma members_cons kv m :
  members (kv :: m) =
  quote kv.1 +:+ ":" +:+ stringify kv.2 +:+
  match m with [] => "}" | _ :: _ => "," +:+ members m end.
Proof. reflexivity. Qed.

Lemma comma_cancel a b r1 r2 :
  ("," +:+ a) +:+ r1 = ("," +:+ b) +:+ r2 → a +:+ r1 = b +:+ r2.
Proof. simpl. by intros [= ?]. Qed.

Lemma elems_inj_app l1 :
  Forall inj_at l1 →
  ∀ l2 r1 r2, elems l1 +:+ r1 = elems l2 +:+ r2 → l1 = l2 ∧ r1 = r2.
Proof.
  induction 1 as [|x l1 Hx Hl IH]; intros [|y l2] r1 r2.
  - simpl. by intros [= ->].
  - rewrite elems_cons, app_assoc_s. intros E.
    destruct (stringify_head y
      (match l2 with [] => "]" | _ :: _ => "," +:+ elems l2 end +:+ r2))
      as (h & t & Eh & Hh).
    bad_head E Eh Hh.
  - rewrite elems_cons, app_assoc_s. intros E.
    destruct (stringify_head x
      (match l1 with [] => "]" | _ :: _ => "," +:+ elems l1 end +:+ r1))
      as (h & t & Eh & Hh).
    bad_head E Eh Hh.
  - rewrite !elems_cons, !app_assoc_s. intros E.
    apply Hx in E as [-> E]; [|by destruct l1|by destruct l2].
    destruct l1 as [|x1 l1], l2 as [|x2 l2].
    + simpl in E. injection E as ->. done.
    + simpl in E. discriminate E.
    + simpl in E. discriminate E.
    + change (("," +:+ elems (x1 :: l1)) +:+ r1 =
              ("," +:+ elems (x2 :: l2)) +:+ r2) in E.
      apply comma_cancel in E. destruct (IH _ _ _ E) as [-> ->]. done.
Qed.

Lemma members_inj_app m1 :
  Forall (λ kv, inj_at kv.2) m1 →
  ∀ m2 r1 r2, members m1 +:+ r1 = members m2 +:+ r2 → m1 = m2 ∧ r1 = r2.
Proof.
  induction 1 as [|[k1 x] m1 Hx Hm IH]; intros [|[k2 y] m2] r1 r2.
  - simpl. by intros [= ->].
  - rewrite members_cons. unfold quote. simpl. discriminate.
  - rewrite members_cons. unfold quote. simpl. discriminate.
  - rewrite !members_cons, !app_assoc_s. simpl fst; simpl snd; simpl in Hx.
    intros E.
    apply quote_inj_app in E as [-> E]. simpl in E. injection E as E.
    rewrite ?app_assoc_s in E.
    apply Hx in E as [-> E]; [|by destruct m1|by destruct m2].
    destruct m1 as [|kv1 m1], m2 as [|kv2 m2].
    + simpl in E. injection E as ->. done.
    + simpl in E. discriminate E.
    + simpl in E. discriminate E.
    + change (("," +:+ members (kv1 :: m1)) +:+ r1 =
              ("," +:+ members (kv2 :: m2)) +:+ r2) in E.
      apply comma_cancel in E. destruct (IH _ _ _ E) as [-> ->]. done.
Qed.

Lemma stringify_inj_app v1 : inj_at v1.
Proof.
  induction v1 as [|b1|z1|s1|l1 IH|m1 IH] using value_ind_nested;
    intros v2 r1 r2 H1 H2 E.
  - destruct v2 as [|[]|z2|s2|l2|m2]; try (simpl in E; discriminate E).
    + simpl in E. by injection E as ->.
    + destruct (string_of_Z_head z2 r2) as (h & t & Eh & Hh).
      bad_head E Eh Hh.
  - destruct v2 as [|b2|z2|s2|l2|m2];
      try (destruct b1; simpl in E; discriminate E).
    + destruct b1, b2; simpl in E; try discriminate E; by injection E as ->.
    + destruct (string_of_Z_head z2 r2) as (h & t & Eh & Hh).
      destruct b1; bad_head E Eh Hh.
  - destruct (string_of_Z_head z1 r1) as (h & t & Eh & Hh).
    destruct v2 as [|b2|z2|s2|l2|m2];
      try (try destruct b2; bad_head E Eh Hh).
    simpl in E. apply string_of_Z_inj_app in E as [-> ->]; done.
  - destruct v2 as [|[]|z2|s2|l2|m2]; try (simpl in E; discriminate E).
    + destruct (string_of_Z_head z2 r2) as (h & t & Eh & Hh).
      bad_head E Eh Hh.
    + simpl in E. apply quote_inj_app in E as [-> ->]. done.
  - destruct v2 as [|[]|z2|s2|l2|m2]; try (simpl in E; discriminate E).
    + destruct (string_of_Z_head z2 r2) as (h & t & Eh & Hh).
      bad_head E Eh Hh.
    + rewrite !stringify_Arr in E. simpl in E. injection E as E.
      destruct (elems_inj_app l1 IH _ _ _ E) as [-> ->]. done.
  - destruct v2 as [|[]|z2|s2|l2|m2]; try (simpl in E; discriminate E).
    + destruct (string_of_Z_head z2 r2) as (h & t & Eh & Hh).
      bad_head E Eh Hh.
    + rewrite !stringify_Obj in E. simpl in E. injection E as E.
      destruct (members_inj_app m1 IH _ _ _ E) as [-> ->]. done.
Qed.

Lemma append_empty_r (s : string) : s +:+ EmptyString = s.
Proof. induction s as [|c s IH]; simpl; [done | by rewrite IH]. Qed.

(** Two values with the same serialization are the same value. *)
Lemma stringify_inj v1 v2 : stringify v1 = stringify v2 → v1 = v2.
Proof.
  intros E.
  destruct (stringify_inj_app v1 v2 EmptyString EmptyString) as [-> _]; try done.
  by rewrite !append_empty_r.
Qed.

End JsonFacts.

(** * Properties *)

(** ** Running programs *)

Module JsFacts.
Import Js Obs.

Lemma exec_bind env {A B} (m : prog A) (f : A → prog B) w :
  exec env (m ≫= f) w =
  match exec env m w with
  | (inl a, w') => exec env (f a) w'
  | (inr e, w') => (inr e, w')
  end.
Proof.
  unfold mbind, prog_bind. revert w.
  induction m as [a|e|X op k IH]; intros w; simpl; [done..|].
  destruct (handle env op w) as [x w']. apply IH.
Qed.

Lemma exec_try_catch env {A} (m : prog A) (h : exn → prog A) w :
  exec env (try_catch m h) w =
  match exec env m w with
  | (inl a, w') => (inl a, w')
  | (inr e, w') => exec env (h e) w'
  end.
Proof.
  revert w. induction m as [a|e|X op k IH]; intros w; simpl; [done..|].
  destruct (handle env op w) as [x w']. apply IH.
Qed.

Lemma exec_perform env {X} (op : eff X) w :
  exec env (perform op) w = (inl (handle env op w).1, (handle env op w).2).
Proof. unfold perform. simpl. by destruct (handle env op w). Qed.

Section Preserves.
Context (R : World → World → Prop) `{!Reflexive R, !Transitive R}.

Lemma preserves_ret {A} (a : A) : preserves R (mret a).
Proof. intros env w. simpl. reflexivity. Qed.

Lemma preserves_throw {A} e : preserves R (@Throw A e).
Proof. intros env w. simpl. reflexivity. Qed.

Lemma preserves_bind {A B} (m : prog A) (f : A → prog B) :
  preserves R m → (∀ a, preserves R (f a)) → preserves R (m ≫= f).
Proof.
  intros Hm Hf env w. rewrite exec_bind. specialize (Hm env w).
  destruct (exec env m w) as [[a|e] w']; simpl in *; [|done].
  etrans; [done|]. apply Hf.
Qed.

Lemma preserves_try_catch {A} (m : prog A) h :
  preserves R m → (∀ e, preserves R (h e)) → preserves R (try_catch m h).
Proof.
  intros Hm Hh env w. rewrite exec_try_catch. specialize (Hm env w).
  destruct (exec env m w) as [[a|e] w']; simpl in *; [done|].
  etrans; [done|]. apply Hh.
Qed.

Lemma preserves_perform {X} (op : eff X) :
  (∀ env w, R w (handle env op w).2) → preserves R (perform op).
Proof.
  intros H env w. specialize (H env w). unfold perform. simpl.
  destruct (handle env op w) as [x w']. done.
Qed.

End Preserves.

Lemma new_events_app w w' evs :
  trace w' = trace w ++ evs → new_events w w' = evs.
Proof. intros H. unfold new_events. rewrite H. by rewrite drop_app_length. Qed.

(** No operation removes an event. *)
Lemma handle_trace_grows env {X} (op : eff X) w :
  trace_grows w (handle env op w).2.
Proof.
  unfold trace_grows.
  destruct op; simpl; try done; try (by apply prefix_app_r).
  - destruct (db w), (db_error env (n_db w)); done.
  - destruct (db w), (db_error env (n_db w)); done.
Qed.

Lemma exec_preserves_steps (R : World → World → Prop)
    `{!Reflexive R, !Transitive R} {A} (p : prog A) :
  (∀ env X (op : eff X) w, R w (handle env op w).2) → preserves R p.
Proof.
  intros H env. induction p as [a|e|X op k IH]; intros w; simpl; [done..|].
  specialize (H env X op w). destruct (handle env op w) as [x w'].
  etrans; [done|]. apply IH.
Qed.

Lemma exec_trace_grows {A} (p : prog A) : preserves trace_grows p.
Proof. apply exec_preserves_steps; [apply _..|]. intros. apply handle_trace_grows. Qed.

End JsFacts.

(** ** The upstream retry loop *)

Module Retry.
Import Js Shared Obs Samples JsFacts.

Lemma upstreamHttpRequest_unfold rpc reqBody nrRetries initialTimeoutMs :
  upstreamHttpRequest rpc reqBody nrRetries initialTimeoutMs =
  try_catch (axios_post rpc reqBody)
    (λ err,
       log_upstream_err err;;
       forwardedErr err;;
       match nrRetries with
       | S n =>
           perform (SetTimeout initialTimeoutMs);;
           upstreamHttpRequest rpc reqBody n (initialTimeoutMs * 2)
       | O => Throw (ReferenceError "forwardErr is not defined")
       end).
Proof. by destruct nrRetries. Qed.

Lemma exec_axios_post env rpc reqBody w :
  exec env (axios_post rpc reqBody) w =
  (match upstream env (n_post w) with
   | inl f => inr (AxiosError f)
   | inr res => inl res
   end, waited env 0 (posted (emit (EvPost rpc reqBody) w))).
Proof.
  unfold axios_post, mbind, prog_bind. simpl.
  by destruct (upstream env (n_post w)).
Qed.

(** The head of the catch block.  On a failure without a response it logs
    a line and goes on; on a failure with a response it throws, and what
    follows in the block is not run. *)
Lemma exec_catch_no_response env f {A} (k : prog A) w :
  has_response f = false →
  ∃ msg,
    exec env (log_upstream_err (AxiosError f);; forwardedErr (AxiosError f);; k) w =
    exec env k (logged msg w).
Proof. destruct f; [done|..]; intros _; by eexists. Qed.

Lemma exec_catch_response env f {A} (k : prog A) w :
  has_response f = true →
  exec env (log_upstream_err (AxiosError f);; forwardedErr (AxiosError f);; k) w =
  (inr (rejection f), w).
Proof. by destruct f. Qed.

Lemma upstream_unreachable_next env w w1 k :
  n_post w1 = S (n_post w) →
  upstream_unreachable env w (S k) → upstream_unreachable env w1 k.
Proof.
  intros Hn Hdown i Hi. destruct (Hdown (S i) ltac:(lia)) as (f & Hf & Hr).
  exists f. split; [|done]. rewrite <- Hf. f_equal. lia.
Qed.

(** The loop against an upstream that fails every time.  It goes on while
    the failures carry no response and retries are left, and stops at
    failure [f], post [k + 1]: the first one with a response, or the one
    that finds no retry left.  It has then posted [k + 1] times, waited
    between the posts, touched no shared state, and throws. *)
Lemma upstreamHttpRequest_rejects env rpc reqBody nrRetries :
  ∀ k f initialTimeoutMs w,
    (k ≤ nrRetries)%nat →
    upstream_unreachable env w k →
    upstream env (n_post w + k) = inl f →
    ((k < nrRetries)%nat → has_response f = true) →
    ∃ w',
      exec env (upstreamHttpRequest rpc reqBody nrRetries initialTimeoutMs) w =
        (inr (rejection f), w') ∧
      trace w' = trace w ++ retry_trace rpc reqBody k initialTimeoutMs ∧
      globals w' = globals w ∧
      n_post w' = (n_post w + S k)%nat.
Proof.
  induction nrRetries as [|n IH]; intros k f t w Hk Hdown Hf Hlast;
    rewrite upstreamHttpRequest_unfold, exec_try_catch, exec_axios_post.
  - assert (k = 0%nat) as -> by lia. rewrite Nat.add_0_r in Hf. rewrite Hf.
    destruct (has_response f) eqn:Hr.
    + rewrite (exec_catch_response env f _ _ Hr).
      eexists. split; [reflexivity|]. simpl. split_and!; [done..|lia].
    + destruct (exec_catch_no_response env f
                  (@Throw AxiosResponse
                     (ReferenceError "forwardErr is not defined"))
                  (waited env 0 (posted (emit (EvPost rpc reqBody) w))) Hr)
        as [msg ->].
      unfold rejection. rewrite Hr.
      eexists. split; [reflexivity|]. simpl. split_and!; [done..|lia].
  - destruct k as [|k].
    + rewrite Nat.add_0_r in Hf. rewrite Hf.
      rewrite (exec_catch_response env f _ _ (Hlast ltac:(lia))).
      eexists. split; [reflexivity|]. simpl. split_and!; [done..|lia].
    + destruct (Hdown 0%nat ltac:(lia)) as (f0 & Hf0 & Hr0).
      rewrite Nat.add_0_r in Hf0. rewrite Hf0.
      destruct (exec_catch_no_response env f0
                  (perform (SetTimeout t);;
                   upstreamHttpRequest rpc reqBody n (t * 2))
                  (waited env 0 (posted (emit (EvPost rpc reqBody) w))) Hr0)
        as [msg ->].
      rewrite exec_bind, exec_perform.
      set (w1 := (handle env (SetTimeout t) _).2).
      destruct (IH k f (t * 2) w1) as (w' & -> & Htr & Hg & Hn).
      * lia.
      * by apply (upstream_unreachable_next env w).
      * rewrite <- Hf. f_equal. simpl. lia.
      * intros Hlt. apply Hlast. lia.
      * exists w'. split; [done|]. rewrite Htr, Hg, Hn. simpl.
        split_and!; [by rewrite <- !app_assoc|done|lia].
Qed.

(** Exhaustion: when the next [nrRetries + 1] posts fail without a
    response, the loop posts [nrRetries + 1] times, waits between the
    posts, touches no shared state and throws the [ReferenceError]. *)
Lemma upstreamHttpRequest_exhausted env rpc reqBody nrRetries :
  ∀ initialTimeoutMs w,
    upstream_unreachable env w (S nrRetries) →
    ∃ w',
      exec env (upstreamHttpRequest rpc reqBody nrRetries initialTimeoutMs) w =
        (inr (ReferenceError "forwardErr is not defined"), w') ∧
      trace w' = trace w ++ retry_trace rpc reqBody nrRetries initialTimeoutMs ∧
      globals w' = globals w ∧
      n_post w' = (n_post w + S nrRetries)%nat.
Proof.
  intros t w Hdown.
  destruct (Hdown nrRetries ltac:(lia)) as (f & Hf & Hr).
  destruct (upstreamHttpRequest_rejects env rpc reqBody nrRetries nrRetries f t w)
    as (w' & Hexec & Hrest); [lia| |done|lia|].
  - intros i Hi. apply Hdown. lia.
  - exists w'. split; [|done]. rewrite Hexec. unfold rejection. by rewrite Hr.
Qed.

Lemma sleeps_retry_trace rpc reqBody nrRetries t :
  sleeps (retry_trace rpc reqBody nrRetries t) =
  (λ k, t * 2 ^ Z.of_nat k) <$> seq 0 nrRetries.
Proof.
  revert t. induction nrRetries as [|n IH]; intros t; [done|].
  simpl. rewrite IH. f_equal; [lia|].
  rewrite <- (fmap_S_seq 0), <- list_fmap_compose. apply list_fmap_ext.
  intros _ k _. simpl. rewrite Nat2Z.inj_succ, Z.pow_succ_r by lia. lia.
Qed.

Lemma attempts_retry_trace rpc reqBody nrRetries t :
  attempts (retry_trace rpc reqBody nrRetries t) = S nrRetries.
Proof. revert t. induction nrRetries as [|n IH]; intros t; simpl; [done|]. by rewrite IH. Qed.



Lemma env_unreachable_upstream_unreachable w n :
  upstream_unreachable env_unreachable w n.
Proof. intros i _. by eexists. Qed.



(** C1 at its failing input.  When eleven posts have failed without a
    response, the loop throws the [ReferenceError] of the unbound
    [forwardErr], and that is what the handler sends with status 500; none
    of the failures it has seen reaches the caller. *)
Theorem exhaustion_throws_ReferenceError env rpc reqBody w :
  upstream_unreachable env w 11 →
  (exec env (upstreamHttpRequest rpc reqBody 10 2000) w).1 =
    inr (ReferenceError "forwardErr is not defined").
Proof.
  intros Hdown.
  by destruct (upstreamHttpRequest_exhausted env rpc reqBody 10 2000 w Hdown)
    as (w' & -> & _).
Qed.

Lemma exhaustion_throws_ReferenceError_witness :
  upstream_unreachable env_unreachable (boot 0) 11 ∧
  upstream env_unreachable 10 = inl (NoResponse None) ∧
  (exec env_unreachable (upstreamHttpRequest upstream_url chainId 10 2000)
     (boot 0)).1 =
    inr (ReferenceError "forwardErr is not defined").
Proof.
  split; [apply env_unreachable_upstream_unreachable|]. split; [reflexivity|].
  exact (exhaustion_throws_ReferenceError env_unreachable upstream_url chainId
           (boot 0) (env_unreachable_upstream_unreachable (boot 0) 11)).
Defined.

(** What the client of the handler gets then, and what it gets when the
    upstream answers HTTP 429: the exception thrown in the catch block,
    after the first post. *)
Lemma exhaustion_sends_ReferenceError :
  last (trace (exec env_unreachable
                 (AppDb.handlePost upstream_url 10 no_parse chainId) (boot 0)).2) =
    Some (EvSend 500 (PError (ReferenceError "forwardErr is not defined"))) ∧
  last (trace (exec env_unreachable
                 (AppJs.handlePost upstream_url 10 chainId) (boot 0)).2) =
    Some (EvSend 500 (PError (ReferenceError "forwardErr is not defined"))).
Proof. by vm_compute. Qed.

Lemma response_failure_sends_TypeError :
  trace (exec env_down (AppDb.handlePost upstream_url 10 no_parse chainId)
           (boot 0)).2 =
    [EvPost upstream_url chainId;
     EvSend 500 (PError (TypeError "Converting circular structure to JSON"))] ∧
  trace (exec env_down (AppJs.handlePost upstream_url 10 chainId) (boot 0)).2 =
    [EvPost upstream_url chainId;
     EvSend 500 (PError (TypeError "Converting circular structure to JSON"))].
Proof. by vm_compute. Qed.

End Retry.

(** ** Programs that leave shared state alone *)

Module Frame.
Import Js Shared Obs Samples JsFacts Retry.

Ltac step_preserves :=
  first
    [ apply preserves_ret; apply _
    | apply preserves_throw; apply _
    | apply preserves_bind; [apply _ | | intros ?]
    | apply preserves_try_catch; [apply _ | | intros ?]
    | match goal with
      | |- preserves _ (match ?x with _ => _ end) => destruct x
      | |- preserves _ (if ?b then _ else _) => destruct b
      | |- preserves _ (let _ := _ in _) => cbv zeta
      end ].

Lemma preserves_perform_same_globals {X} (op : eff X) :
  (match op with SetGlobals _ => False | _ => True end) →
  preserves same_globals (perform op).
Proof.
  intros Hop. apply preserves_perform. intros env w. unfold same_globals.
  destruct op; simpl; try done.
  - destruct (db w), (db_error env (n_db w)); done.
  - destruct (db w), (db_error env (n_db w)); done.
Qed.

Lemma same_globals_detector w w' : same_globals w w' → same_detector w w'.
Proof. unfold same_globals, same_detector. by intros ->. Qed.

Lemma preserves_weaken {A} (R R' : World → World → Prop) (p : prog A) :
  (∀ w w', R w w' → R' w w') → preserves R p → preserves R' p.
Proof. intros H Hp env w. apply H, Hp. Qed.

Lemma upstreamHttpRequest_same_globals rpc reqBody nrRetries t :
  preserves same_globals (upstreamHttpRequest rpc reqBody nrRetries t).
Proof.
  revert t. induction nrRetries as [|n IH]; intros t;
    rewrite upstreamHttpRequest_unfold.
  - apply preserves_try_catch; [apply _|..].
    + unfold axios_post. repeat step_preserves.
      by apply preserves_perform_same_globals.
    + intros err. unfold log_upstream_err, forwardedErr, stringify_response.
      repeat step_preserves; by apply preserves_perform_same_globals.
  - apply preserves_try_catch; [apply _|..].
    + unfold axios_post. repeat step_preserves.
      by apply preserves_perform_same_globals.
    + intros err. unfold log_upstream_err, forwardedErr, stringify_response.
      repeat step_preserves; try (by apply preserves_perform_same_globals).
      all: apply IH.
Qed.

Lemma perform_same_detector {X} (op : eff X) :
  (match op with SetGlobals _ => False | _ => True end) →
  preserves same_detector (perform op).
Proof.
  intros. eapply preserves_weaken; [apply same_globals_detector|].
  by apply preserves_perform_same_globals.
Qed.

Lemma cache_get_same_detector key : preserves same_detector (cache_get key).
Proof. by intros env w. Qed.

Lemma cache_set_same_detector key e : preserves same_detector (cache_set key e).
Proof. by intros env w. Qed.

Lemma incr_httpReqCnt_same_detector : preserves same_detector incr_httpReqCnt.
Proof. by intros env w. Qed.

Lemma incr_httpUpstreamResCnt_same_detector :
  preserves same_detector incr_httpUpstreamResCnt.
Proof. by intros env w. Qed.

Lemma incr_httpCacheResCnt_same_detector :
  preserves same_detector incr_httpCacheResCnt.
Proof. by intros env w. Qed.

Lemma upstreamHttpRequest_same_detector rpc reqBody nrRetries t :
  preserves same_detector (upstreamHttpRequest rpc reqBody nrRetries t).
Proof.
  eapply preserves_weaken; [apply same_globals_detector|].
  apply upstreamHttpRequest_same_globals.
Qed.

Lemma some_same_detector l : preserves same_detector (some pins_blockHash l).
Proof.
  induction l as [|x l IH]; simpl; [by intros env w|].
  apply preserves_bind; [apply _|..].
  - destruct x; by intros env w.
  - intros []; [by intros env w|done].
Qed.

Create HintDb frame discriminated.
#[global] Hint Resolve cache_get_same_detector cache_set_same_detector
  incr_httpReqCnt_same_detector incr_httpUpstreamResCnt_same_detector
  incr_httpCacheResCnt_same_detector upstreamHttpRequest_same_detector
  some_same_detector : frame.

Ltac frame :=
  repeat first
    [ solve [auto with frame]
    | apply perform_same_detector; exact I
    | step_preserves ].

Lemma AppDb_getResponseFromCache_same_detector parse key maxAgeMs reqId :
  preserves same_detector (AppDb.getResponseFromCache parse key maxAgeMs reqId).
Proof. unfold AppDb.getResponseFromCache, AppDb.getFromDb, AppDb.entry_ts. frame. Qed.

Lemma AppDb_writeResponseToCache_same_detector key v :
  preserves same_detector (AppDb.writeResponseToCache key v).
Proof. unfold AppDb.writeResponseToCache. frame. Qed.

Lemma AppDb_respond_same_detector rpc maxAge parse req key :
  preserves same_detector (AppDb.respond rpc maxAge parse req key).
Proof.
  unfold AppDb.respond, AppDb.cacheable, params_some, data_result.
  pose proof AppDb_getResponseFromCache_same_detector.
  pose proof AppDb_writeResponseToCache_same_detector.
  frame.
Qed.

Lemma AppJs_respond_same_detector rpc maxAge req key :
  preserves same_detector (AppJs.respond rpc maxAge req key).
Proof.
  unfold AppJs.respond, AppJs.getResponseFromCache, AppJs.writeResponseToCache,
    data_result.
  frame.
Qed.

End Frame.

(** ** The duplicate detector *)

Module Throttle.
Import Js Shared Obs Samples JsFacts Retry Frame.

(** [Math.floor(Math.random() * 1000)] is one of 0, ..., 999. *)
Lemma floor_random_extra (r : Q) :
  (0 <= r)%Q → (r < 1)%Q →
  0 ≤ Qfloor (r * inject_Z DUPLICATE_RANDOM_MAX_EXTRA_DELAY_MS) < 1000.
Proof.
  intros H0 H1. unfold DUPLICATE_RANDOM_MAX_EXTRA_DELAY_MS. split.
  - rewrite <- (Qfloor_Z 0). apply Qfloor_resp_le.
    change (inject_Z 0) with 0%Q. apply Qmult_le_0_compat; [done|].
    unfold Qle. simpl. lia.
  - rewrite Zlt_Qlt. eapply Qle_lt_trans; [apply Qfloor_le|].
    destruct r as [n d]. unfold Qlt in *. simpl in *. lia.
Qed.

Lemma exec_delayDuplicate env key w :
  exec env (delayDuplicate key) w =
  match duplicateDetector (globals w) !! key with
  | Some prevCallTs =>
      if now w - prevCallTs <? DUPLICATE_DELAY_TRIGGER_THRESHOLD_MS
      then (inl (), waited env (delayMs env w)
                      (emit (EvSleep (delayMs env w)) (drew w)))
      else (inl (), w)
  | None => (inl (), w)
  end.
Proof.
  unfold delayDuplicate, duplicateDetector_get, mbind, prog_bind. simpl.
  destruct (duplicateDetector (globals w) !! key) as [prev|]; simpl; [|done].
  by destruct (now w - prev <? DUPLICATE_DELAY_TRIGGER_THRESHOLD_MS).
Qed.

Lemma recentb_true w key :
  recentb w key = true ↔
  ∃ lastSeenAt, duplicateDetector (globals w) !! key = Some lastSeenAt ∧
                now w - lastSeenAt < 1000.
Proof.
  unfold recentb, DUPLICATE_DELAY_TRIGGER_THRESHOLD_MS.
  destruct (duplicateDetector (globals w) !! key) as [t|].
  - rewrite Z.ltb_lt. split; [eauto|]. by intros (? & [= <-] & ?).
  - split; [done|]. by intros (? & ? & ?).
Qed.

Lemma exec_delayDuplicate_recentb env key w :
  exec env (delayDuplicate key) w =
  (inl (), if recentb w key
           then waited env (delayMs env w) (emit (EvSleep (delayMs env w)) (drew w))
           else w).
Proof.
  rewrite exec_delayDuplicate. unfold recentb.
  destruct (duplicateDetector (globals w) !! key) as [prev|]; [|done].
  by destruct (now w - prev <? DUPLICATE_DELAY_TRIGGER_THRESHOLD_MS).
Qed.

Lemma run_sync_bind env {A B} (m : prog A) (f : A → prog B) w :
  run_sync env (m ≫= f) w =
  match run_sync env m w with
  | (Finished (inl a), w') => run_sync env (f a) w'
  | (Finished (inr e), w') => (Finished (inr e), w')
  | (Awaiting op k, w') => (Awaiting op (λ x, k x ≫= f), w')
  end.
Proof.
  unfold mbind, prog_bind. revert w.
  induction m as [a|e|X op k IH]; intros w; simpl; [done..|].
  destruct (suspends op); [done|].
  destruct (handle env op w) as [x w']. apply IH.
Qed.

Lemma run_sync_delayDuplicate env key w :
  run_sync env (delayDuplicate key) w =
  if recentb w key
  then (Awaiting (SetTimeout (delayMs env w)) Ret, drew w)
  else (Finished (inl ()), w).
Proof.
  unfold delayDuplicate, duplicateDetector_get, recentb, mbind, prog_bind. simpl.
  destruct (duplicateDetector (globals w) !! key) as [prev|]; simpl; [|done].
  by destruct (now w - prev <? DUPLICATE_DELAY_TRIGGER_THRESHOLD_MS).
Qed.

(** The handler is the duplicate check, the record, and the rest. *)
Lemma exec_handler env key (rest : prog unit) w :
  exec env (delayDuplicate key;; recordCall key;; rest) w =
  exec env rest (recorded key (exec env (delayDuplicate key) w).2).
Proof.
  rewrite exec_bind, exec_delayDuplicate_recentb. cbv beta iota.
  by rewrite exec_bind.
Qed.

(** After the duplicate check the handler never waits on a timer before it
    has posted to the upstream or queried the database. *)
Lemma AppDb_rest_no_timer env rpc maxAge parse req w :
  awaited_timeout
    (run_sync env (recordCall (getCacheKey req);;
                   AppDb.respond rpc maxAge parse req (getCacheKey req)) w).1 = None.
Proof.
  unfold recordCall, duplicateDetector_set, AppDb.respond,
    AppDb.getResponseFromCache, AppDb.getFromDb, cache_get, cache_set,
    mbind, prog_bind.
  simpl.
  destruct (cache _ !! _) as [e|]; simpl.
  - destruct (within _ _); simpl.
    + destruct (val e) as [[]|]; reflexivity.
    + reflexivity.
  - destruct (db w); reflexivity.
Qed.

Lemma AppJs_rest_no_timer env rpc maxAge req w :
  awaited_timeout
    (run_sync env (recordCall (getCacheKey req);;
                   AppJs.respond rpc maxAge req (getCacheKey req)) w).1 = None.
Proof.
  unfold recordCall, duplicateDetector_set, AppJs.respond,
    AppJs.getResponseFromCache, cache_get, cache_set, mbind, prog_bind.
  simpl.
  destruct (cache _ !! _) as [e|]; simpl; [|reflexivity].
  destruct (within _ _); reflexivity.
Qed.

Lemma handler_timer env key (rest : prog unit) w :
  awaited_timeout (run_sync env (recordCall key;; rest) w).1 = None →
  awaited_timeout (run_sync env (delayDuplicate key;; recordCall key;; rest) w).1 =
  if recentb w key then Some (delayMs env w) else None.
Proof.
  intros Hrest. rewrite run_sync_bind, run_sync_delayDuplicate.
  destruct (recentb w key); [done|]. exact Hrest.
Qed.

(** C7.  The handler (of either file) begins with the duplicate check and
    goes on from the world the check leaves.  The request is delayed
    exactly when a record for its key exists and is less than 1000 ms old:
    the handler then pauses on a timer of at least 500 ms and less than
    1500 ms, and the timer is all that happens in the check.  Otherwise the
    handler waits on no timer, nothing happens in the check and no time
    passes. *)
Theorem duplicate_delay env rpc maxAge parse req w :
  fair_random env →
  ∃ w', exec env (delayDuplicate (getCacheKey req)) w = (inl (), w') ∧
    exec env (AppDb.handlePost rpc maxAge parse req) w =
      exec env (AppDb.respond rpc maxAge parse req (getCacheKey req))
        (recorded (getCacheKey req) w') ∧
    exec env (AppJs.handlePost rpc maxAge req) w =
      exec env (AppJs.respond rpc maxAge req (getCacheKey req))
        (recorded (getCacheKey req) w') ∧
    if recentb w (getCacheKey req)
    then ∃ d, 500 ≤ d < 1500 ∧
              awaited_timeout
                (run_sync env (AppDb.handlePost rpc maxAge parse req) w).1 = Some d ∧
              awaited_timeout
                (run_sync env (AppJs.handlePost rpc maxAge req) w).1 = Some d ∧
              new_events w w' = [EvSleep d] ∧
              now w + d ≤ now w' ∧ globals w' = globals w
    else awaited_timeout
           (run_sync env (AppDb.handlePost rpc maxAge parse req) w).1 = None ∧
         awaited_timeout
           (run_sync env (AppJs.handlePost rpc maxAge req) w).1 = None ∧
         w' = w.
Proof.
  intros Hr.
  pose proof (handler_timer env (getCacheKey req) _ w
                (AppDb_rest_no_timer env rpc maxAge parse req w)) as Hdb.
  pose proof (handler_timer env (getCacheKey req) _ w
                (AppJs_rest_no_timer env rpc maxAge req w)) as Hjs.
  unfold AppDb.handlePost, AppJs.handlePost. cbv zeta.
  rewrite !exec_handler, exec_delayDuplicate_recentb.
  eexists. split_and!; [done..|].
  destruct (recentb w (getCacheKey req)); [|done].
  destruct (Hr (n_random w)) as [H0 H1].
  pose proof (floor_random_extra _ H0 H1) as Hf.
  exists (delayMs env w). unfold delayMs in *. unfold DUPLICATE_MIN_DELAY_MS in *.
  split_and!; [lia|lia|done|done| |simpl; lia|done].
  by apply new_events_app.
Qed.

Lemma env_up_fair v : fair_random (env_up v).
Proof. intros i. simpl. unfold Qle, Qlt. simpl. lia. Qed.

(** The instance of C7: [eth_chainId] seen at time 0 and again at time
    900. *)
Lemma duplicate_delay_witness :
  fair_random (env_up Json.Null) ∧
  recentb (elapse 900 (seen (getCacheKey chainId) 0 (boot 0))) (getCacheKey chainId)
    = true ∧
  ∃ w', exec (env_up Json.Null) (delayDuplicate (getCacheKey chainId))
          (elapse 900 (seen (getCacheKey chainId) 0 (boot 0))) = (inl (), w') ∧
        ∃ d, 500 ≤ d < 1500 ∧
             new_events (elapse 900 (seen (getCacheKey chainId) 0 (boot 0))) w'
               = [EvSleep d].
Proof.
  split; [apply env_up_fair|]. split; [reflexivity|].
  destruct (duplicate_delay (env_up Json.Null) upstream_url 10 no_parse chainId
              (elapse 900 (seen (getCacheKey chainId) 0 (boot 0)))
              (env_up_fair Json.Null))
    as (w' & Hexec & _ & _ & Hrecent).
  exists w'. split; [exact Hexec|].
  destruct Hrecent as (d & Hd & _ & _ & Hev & _).
  exists d. split; [exact Hd|exact Hev].
Defined.

Lemma handler_records_after_delay env key (rest : prog unit) w :
  preserves same_detector rest →
  records_after_delay env (delayDuplicate key;; recordCall key;; rest) key w.
Proof.
  intros Hrest. unfold records_after_delay. cbv zeta. split.
  - rewrite exec_handler. rewrite (Hrest env). simpl. apply lookup_insert_eq.
  - rewrite run_sync_bind, run_sync_delayDuplicate, exec_delayDuplicate_recentb.
    destruct (recentb w key); simpl; [|done]. done.
Qed.

(** C4, as the code has it.  In both files the record of the request's key
    is written after the duplicate check: a request that is delayed pauses
    on its timer with the shared state untouched, the record still being
    the previous request's, and the record is set to the time read when the
    delay is over; a request that is not delayed records its arrival
    time. *)
Theorem record_set_after_delay env rpc maxAge parse req w :
  records_after_delay env (AppDb.handlePost rpc maxAge parse req)
    (getCacheKey req) w ∧
  records_after_delay env (AppJs.handlePost rpc maxAge req)
    (getCacheKey req) w.
Proof.
  split.
  - apply handler_records_after_delay, AppDb_respond_same_detector.
  - apply handler_records_after_delay, AppJs_respond_same_detector.
Qed.

(** C4, as stated, fails: a duplicate of a request seen at time 0 arrives at
    time 900 and pauses on a timer of 1000 ms; while it waits, the record of
    its key is still 0, not 900. *)
Lemma record_not_set_before_delay :
  now (elapse 900 (seen (getCacheKey chainId) 0 (boot 0))) = 900 ∧
  awaited_timeout
    (run_sync (env_up (Json.Str "0x1"))
       (AppDb.handlePost upstream_url 10 no_parse chainId)
       (elapse 900 (seen (getCacheKey chainId) 0 (boot 0)))).1 = Some 1000 ∧
  duplicateDetector
    (globals
       (run_sync (env_up (Json.Str "0x1"))
          (AppDb.handlePost upstream_url 10 no_parse chainId)
          (elapse 900 (seen (getCacheKey chainId) 0 (boot 0)))).2)
    !! getCacheKey chainId = Some 0.
Proof. vm_compute. done. Qed.

End Throttle.

(** ** The cache store *)

Module CacheStore.
Import Js Shared Obs Samples JsFacts Retry Frame Throttle.

Lemma posts_first_bind {A B} rpc req (p : prog A) (f : A → prog B) :
  posts_first rpc req p → posts_first rpc req (p ≫= f).
Proof.
  intros Hp env w. rewrite exec_bind. destruct (Hp env w) as [evs Hevs].
  destruct (exec env p w) as [[a|e] w1]; simpl in *; [|eauto].
  destruct (exec_trace_grows (f a) env w1) as [more Hmore].
  exists (evs ++ more). rewrite Hmore, Hevs. by rewrite <- app_assoc.
Qed.

Lemma posts_first_try_catch {A} rpc req (p : prog A) h :
  posts_first rpc req p → posts_first rpc req (try_catch p h).
Proof.
  intros Hp env w. rewrite exec_try_catch. destruct (Hp env w) as [evs Hevs].
  destruct (exec env p w) as [[a|e] w1]; simpl in *; [eauto|].
  destruct (exec_trace_grows (h e) env w1) as [more Hmore].
  exists (evs ++ more). rewrite Hmore, Hevs. by rewrite <- app_assoc.
Qed.

Lemma upstreamHttpRequest_posts_first rpc req nrRetries t :
  posts_first rpc req (upstreamHttpRequest rpc req nrRetries t).
Proof.
  rewrite upstreamHttpRequest_unfold. apply posts_first_try_catch.
  intros env w. rewrite exec_axios_post. simpl. eauto.
Qed.

Lemma forwarded_intro rpc req w w1 w' evs :
  trace_grows w w1 → trace w' = trace w1 ++ EvPost rpc req :: evs →
  forwarded rpc req w w'.
Proof.
  intros [pre Hpre] Hw'. unfold forwarded, new_events.
  rewrite Hw', Hpre, <- app_assoc, drop_app_length.
  apply elem_of_app. right. apply elem_of_cons. by left.
Qed.

Section WithParse.
Context (env : Env) (parse : option string → Json.value + exn).

Lemma exec_lookup_found key maxAgeMs reqId w e :
  cache (globals w) !! key = Some e →
  exec env (AppDb.getResponseFromCache parse key maxAgeMs reqId) w =
  if within (now w - ts e) maxAgeMs
  then (inl (served reqId (val e)), cached key (touch e) w)
  else (inl None, w).
Proof.
  intros He. unfold AppDb.getResponseFromCache, cache_get, mbind, prog_bind.
  simpl. rewrite He. simpl.
  destruct (within (now w - ts e) maxAgeMs); [|done].
  destruct e as [[[]|] t r c]; done.
Qed.

(** A key that is not in the in-memory map is a miss, whatever the durable
    store holds; the lookup changes no shared state. *)
Lemma exec_lookup_absent key maxAgeMs reqId w :
  cache (globals w) !! key = None →
  ∃ w', exec env (AppDb.getResponseFromCache parse key maxAgeMs reqId) w =
          (inl None, w') ∧
        globals w' = globals w ∧ db w' = db w ∧ trace w' = trace w ∧
        now w ≤ now w'.
Proof.
  intros He. unfold AppDb.getResponseFromCache, AppDb.getFromDb, AppDb.entry_ts,
    cache_get, mbind, prog_bind.
  simpl. rewrite He. simpl.
  destruct (db w) as [store|] eqn:Hdb; simpl.
  - rewrite Hdb. destruct (db_error env (n_db w)) as [msg|]; simpl.
    + eexists. split; [done|]. simpl. split_and!; [done..|lia].
    + destruct (store !! key) as [row|]; simpl.
      * rewrite He. simpl. eexists. split; [done|]. simpl.
        split_and!; [done..|lia].
      * eexists. split; [done|]. simpl. split_and!; [done..|lia].
  - eexists. split; [done|]. split_and!; [done..|lia].
Qed.

Lemma exec_store_memory key v w :
  db w = None →
  exec env (AppDb.writeResponseToCache key v) w =
  (inl (),
   cached key
     {| val := v; ts := now w;
        readCnt := match cache (globals w) !! key with
                   | Some e => readCnt e | None => 0 end;
        writeCnt := match cache (globals w) !! key with
                    | Some e => writeCnt e + 1 | None => 1 end |} w).
Proof.
  intros Hdb. unfold AppDb.writeResponseToCache, cache_get, mbind, prog_bind.
  simpl. by rewrite Hdb.
Qed.

Lemma exec_store_durable key v w store :
  db w = Some store →
  exec env (AppDb.writeResponseToCache key v) w =
  (inl (),
   match db_error env (n_db w) with
   | None =>
       set_db (Some (<[key := {| row_val := Json.stringify <$> v;
                                 row_ts := now w |}]> store)) (queried w)
   | Some msg => logged msg (queried w)
   end).
Proof.
  intros Hdb. unfold AppDb.writeResponseToCache, cache_get, mbind, prog_bind.
  simpl. rewrite Hdb. simpl. rewrite Hdb.
  by destruct (db_error env (n_db w)).
Qed.

(** On a miss the handler goes to the upstream. *)
Lemma respond_miss_forwards rpc maxAge req key w :
  (exec env (AppDb.getResponseFromCache parse key
               (AppDb.cacheMaxAgeMs maxAge (body_method req)) (body_id req)) w).1
    = inl None →
  forwarded rpc req w (exec env (AppDb.respond rpc maxAge parse req key) w).2.
Proof.
  intros Hmiss. unfold AppDb.respond. rewrite exec_bind.
  pose proof (exec_trace_grows
    (AppDb.getResponseFromCache parse key
       (AppDb.cacheMaxAgeMs maxAge (body_method req)) (body_id req)) env w) as Hg.
  destruct (exec env (AppDb.getResponseFromCache parse key _ _) w) as [r w1].
  simpl in Hmiss, Hg. subst r.
  match goal with
  | |- forwarded _ _ _ (exec env ?p w1).2 =>
      assert (posts_first rpc req p) as Hp
  end.
  { apply posts_first_bind, posts_first_try_catch, posts_first_bind,
      upstreamHttpRequest_posts_first. }
  destruct (Hp env w1) as [evs Hevs]. by eapply forwarded_intro.
Qed.

Lemma handlePost_miss_forwards rpc maxAge req w :
  (exec env (AppDb.getResponseFromCache parse (getCacheKey req)
               (AppDb.cacheMaxAgeMs maxAge (body_method req)) (body_id req))
     (recorded (getCacheKey req)
        (exec env (delayDuplicate (getCacheKey req)) w).2)).1 = inl None →
  forwarded rpc req w (exec env (AppDb.handlePost rpc maxAge parse req) w).2.
Proof.
  intros Hmiss. unfold AppDb.handlePost. cbv zeta. rewrite exec_handler.
  apply (respond_miss_forwards rpc) in Hmiss.
  unfold forwarded, new_events in *.
  pose proof (exec_trace_grows (delayDuplicate (getCacheKey req)) env w)
    as [pre Hpre].
  set (w1 := (exec env (delayDuplicate (getCacheKey req)) w).2) in *.
  change (trace (recorded (getCacheKey req) w1)) with (trace w1) in Hmiss.
  rewrite Hpre, length_app, <- drop_drop in Hmiss.
  by apply subseteq_drop in Hmiss.
Qed.

Lemma lookup_world key w :
  let w2 := recorded key (exec env (delayDuplicate key) w).2 in
  cache (globals w2) = cache (globals w) ∧ db w2 = db w ∧ now w ≤ now w2.
Proof.
  rewrite exec_delayDuplicate_recentb. simpl.
  destruct (recentb w key); simpl; split_and!; try done; lia.
Qed.

Lemma lookup_is_hit key maxAgeMs reqId w :
  is_hit (exec env (AppDb.getResponseFromCache parse key maxAgeMs reqId) w).1 ↔
  ∃ e, cache (globals w) !! key = Some e ∧
       within (now w - ts e) maxAgeMs = true ∧
       val e ≠ None ∧ val e ≠ Some Json.Null.
Proof.
  destruct (cache (globals w) !! key) as [e|] eqn:He.
  - rewrite (exec_lookup_found _ _ _ _ e He).
    destruct (within (now w - ts e) maxAgeMs) eqn:Hw; simpl.
    + split.
      * intros [c Hc]. exists e. split_and!; [done..| |];
          intros Hv; rewrite Hv in Hc; discriminate Hc.
      * intros (e' & [= <-] & _ & Hu & Hn).
        destruct (val e) as [[]|]; try done; by eexists.
    + split; [by intros [c Hc]|]. intros (e' & [= <-] & Hw' & _). congruence.
  - destruct (exec_lookup_absent key maxAgeMs reqId w He) as (w' & -> & _).
    split; [by intros [c Hc]|]. by intros (e' & ? & _).
Qed.

(** A request whose entry is older than the age its method is read with
    goes to the upstream. *)
Lemma stale_entry_forwards rpc maxAge req e z w :
  AppDb.cacheMaxAgeMs maxAge (body_method req) = Ms z →
  cache (globals w) !! getCacheKey req = Some e →
  ts e + z < now w →
  forwarded rpc req w (exec env (AppDb.handlePost rpc maxAge parse req) w).2.
Proof.
  intros Hage He Hold. apply handlePost_miss_forwards.
  destruct (lookup_world (getCacheKey req) w) as (Hc & _ & Hnow).
  set (w2 := recorded _ _) in *.
  rewrite <- Hc in He. rewrite (exec_lookup_found _ _ _ _ e He), Hage.
  destruct (within _ _) eqn:Hle; [|done].
  unfold within in Hle. apply Z.leb_le in Hle. lia.
Qed.

(** C6, as the code has it.  A lookup is a hit exactly when the in-memory
    map has an entry for the key, the entry is no older than [maxAgeMs]
    ([Infinity] included), and its value is neither [undefined] nor [null].
    With [CACHE_MAX_AGE = 1], a request for a method that is not read with
    [Infinity], arriving 2 s or more after the entry of its key was
    written, is forwarded to the upstream. *)
Theorem lookup_hit_iff key maxAgeMs reqId w :
  (is_hit (exec env (AppDb.getResponseFromCache parse key maxAgeMs reqId) w).1 ↔
   ∃ e, cache (globals w) !! key = Some e ∧
        within (now w - ts e) maxAgeMs = true ∧
        val e ≠ None ∧ val e ≠ Some Json.Null) ∧
  (∀ rpc req e,
     AppDb.cacheMaxAgeMs 1 (body_method req) ≠ Infinity →
     cache (globals w) !! getCacheKey req = Some e →
     ts e + 2000 ≤ now w →
     forwarded rpc req w (exec env (AppDb.handlePost rpc 1 parse req) w).2).
Proof.
  split; [apply lookup_is_hit|].
  intros rpc req e Hvol He Hold.
  apply (stale_entry_forwards rpc 1 req e 1000); [|done|lia].
  unfold AppDb.cacheMaxAgeMs in *. by destruct (includes _ _).
Qed.

End WithParse.

(** The instance of C6: [eth_blockNumber], answered and cached at time 0,
    asked again at time 2000 with [CACHE_MAX_AGE = 1]. *)
Lemma lookup_hit_iff_witness :
  forwarded upstream_url blockNumber
    (elapse 2000 (after_call (env_up (Json.Str "0x10")) blockNumber))
    (exec (env_up (Json.Str "0x11"))
       (AppDb.handlePost upstream_url 1 no_parse blockNumber)
       (elapse 2000 (after_call (env_up (Json.Str "0x10")) blockNumber))).2.
Proof.
  refine (proj2 (lookup_hit_iff (env_up (Json.Str "0x11")) no_parse
                   (getCacheKey blockNumber) Infinity None
                   (elapse 2000 (after_call (env_up (Json.Str "0x10")) blockNumber)))
            upstream_url blockNumber
            {| val := Some (Json.Str "0x10"); ts := 0; readCnt := 0; writeCnt := 1 |}
            _ _ _).
  - vm_compute. discriminate.
  - vm_compute. reflexivity.
  - vm_compute. discriminate.
Defined.

(** C6, as stated, fails.  The upstream answers [eth_blockNumber] with a
    JSON-RPC error, so the handler caches [undefined] at time 0; 100 ms
    later the entry exists and is fresh, and the lookup is not a hit. *)
Lemma fresh_entry_not_served :
  (∃ e, cache (globals (elapse 100 (after_call env_rpc_error blockNumber)))
          !! getCacheKey blockNumber = Some e ∧
        within (now (elapse 100 (after_call env_rpc_error blockNumber)) - ts e)
          (Ms 10000) = true) ∧
  (exec (env_up (Json.Str "0x10"))
     (AppDb.getResponseFromCache no_parse (getCacheKey blockNumber) (Ms 10000)
        (Some (Json.Num 2)))
     (elapse 100 (after_call env_rpc_error blockNumber))).1 = inl None.
Proof.
  split; [|by vm_compute].
  eexists. split; by vm_compute.
Qed.

End CacheStore.

(** ** Bookkeeping of the in-memory cache *)

Module Bookkeeping.
Import Js Shared Obs Samples JsFacts Retry Frame Throttle CacheStore.

Section WithParse.
Context (env : Env) (parse : option string → Json.value + exn).

Lemma evolved_refl e : evolved e e.
Proof. unfold evolved. lia. Qed.

Lemma evolved_trans e1 e2 e3 : evolved e1 e2 → evolved e2 e3 → evolved e1 e3.
Proof. unfold evolved. lia. Qed.

(** The cache after a lookup: the entry found fresh is counted, nothing
    else changes. *)
Lemma lookup_cache key maxAgeMs reqId w :
  cache (globals (exec env (AppDb.getResponseFromCache parse key maxAgeMs reqId) w).2) =
  match cache (globals w) !! key with
  | Some e =>
      if within (now w - ts e) maxAgeMs
      then <[key := touch e]> (cache (globals w))
      else cache (globals w)
  | None => cache (globals w)
  end.
Proof.
  destruct (cache (globals w) !! key) as [e|] eqn:He.
  - rewrite (exec_lookup_found _ _ _ _ _ _ e He).
    by destruct (within (now w - ts e) maxAgeMs).
  - destruct (exec_lookup_absent env parse key maxAgeMs reqId w He)
      as (w' & -> & Hg & _). simpl. by rewrite Hg.
Qed.

Lemma lookup_hit_counted key maxAgeMs reqId w :
  is_hit (exec env (AppDb.getResponseFromCache parse key maxAgeMs reqId) w).1 →
  ∃ e, cache (globals w) !! key = Some e ∧
       within (now w - ts e) maxAgeMs = true.
Proof.
  intros Hhit.
  apply lookup_is_hit in Hhit.
  destruct Hhit as (e & ? & ? & _). eauto.
Qed.

(** One operation, after some time: the backing stays the in-memory one,
    no entry is from the future, every entry there was is still there,
    evolved. *)
Lemma run_op_step dt op w :
  db w = None → written_in_past w →
  let w' := (exec env (run_op parse op) (elapse dt w)).2 in
  db w' = None ∧ written_in_past w' ∧
  ∀ k e, cache (globals w) !! k = Some e →
         ∃ e', cache (globals w') !! k = Some e' ∧ evolved e e'.
Proof.
  intros Hdb Hpast. destruct op as [key maxAgeMs reqId|key v];
    unfold run_op; cbv zeta.
  - rewrite exec_bind.
    destruct (cache (globals (elapse dt w)) !! key) as [e|] eqn:He.
    + rewrite (exec_lookup_found _ _ _ _ _ _ e He).
      destruct (within _ _); simpl.
      * split_and!; [done| |].
        -- intros k e'; simpl. destruct (decide (key = k)) as [<-|Hne].
           ++ rewrite lookup_insert_eq. intros [= <-]. simpl.
              specialize (Hpast key e He). lia.
           ++ rewrite lookup_insert_ne by done. intros Hk.
              specialize (Hpast k e' Hk). lia.
        -- intros k e' Hk; simpl. destruct (decide (key = k)) as [<-|Hne].
           ++ rewrite lookup_insert_eq. exists (touch e).
              split; [done|]. simpl in He. rewrite He in Hk. injection Hk as <-.
              unfold evolved, touch. simpl. lia.
           ++ rewrite lookup_insert_ne by done. exists e'.
              split; [done|apply evolved_refl].
      * split_and!; [done| |].
        -- intros k e' Hk. specialize (Hpast k e' Hk). simpl. lia.
        -- intros k e' Hk. exists e'. split; [done|apply evolved_refl].
    + destruct (exec_lookup_absent env parse key maxAgeMs reqId (elapse dt w) He)
        as (w' & -> & Hg & Hdb' & _ & Hnow). simpl.
      split_and!.
      * by rewrite Hdb'.
      * intros k e' Hk. rewrite Hg in Hk. specialize (Hpast k e' Hk).
        simpl in Hnow. lia.
      * intros k e' Hk. exists e'. rewrite Hg. split; [done|apply evolved_refl].
  - rewrite exec_store_memory by done. simpl. split_and!; [done| |].
    + intros k e'; simpl. destruct (decide (key = k)) as [<-|Hne].
      * rewrite lookup_insert_eq. intros [= <-]. simpl. lia.
      * rewrite lookup_insert_ne by done. intros Hk.
        specialize (Hpast k e' Hk). lia.
    + intros k e' Hk; simpl. destruct (decide (key = k)) as [<-|Hne].
      * rewrite lookup_insert_eq. eexists. split; [done|].
        rewrite Hk. specialize (Hpast key e' Hk). unfold evolved. simpl. lia.
      * rewrite lookup_insert_ne by done. exists e'.
        split; [done|apply evolved_refl].
Qed.

Lemma run_ops_evolve ops :
  ∀ w, db w = None → written_in_past w →
       written_in_past (run_ops env parse ops w) ∧
       ∀ k e, cache (globals w) !! k = Some e →
              ∃ e', cache (globals (run_ops env parse ops w)) !! k = Some e' ∧
                    evolved e e'.
Proof.
  induction ops as [|[dt op] ops IH]; intros w Hdb Hpast; simpl.
  - split; [done|]. intros k e Hk. exists e. split; [done|apply evolved_refl].
  - destruct (run_op_step dt op w Hdb Hpast) as (Hdb' & Hpast' & Hstep).
    destruct (IH _ Hdb' Hpast') as [Hfin Hrest]. split; [done|].
    intros k e Hk. destruct (Hstep k e Hk) as (e1 & Hk1 & He1).
    destruct (Hrest k e1 Hk1) as (e2 & Hk2 & He2).
    exists e2. split; [done|]. by eapply evolved_trans.
Qed.

(** C8, as the code has it, for the in-memory backing and a clock that has
    not gone back since the entries were written.  A write replaces the
    entry of its key by one with the new value and the current time, the
    read count it had (0 for a new key) and the write count it had plus one
    (1 for a new key).  A lookup changes the cache only by adding one to
    the read count of the entry it finds fresh; every hit it serves is such
    a lookup.  Over any history of lookups and writes no entry is lost, and
    its time stamp and its counts never decrease. *)
Theorem cache_bookkeeping w :
  db w = None → written_in_past w →
  (∀ key v,
     cache (globals (exec env (AppDb.writeResponseToCache key v) w).2) =
     <[key := {| val := v; ts := now w;
                 readCnt := from_option readCnt 0 (cache (globals w) !! key);
                 writeCnt := from_option (λ e, writeCnt e + 1) 1
                               (cache (globals w) !! key) |}]>
       (cache (globals w))) ∧
  (∀ key maxAgeMs reqId,
     let r := exec env (AppDb.getResponseFromCache parse key maxAgeMs reqId) w in
     cache (globals r.2) =
       match cache (globals w) !! key with
       | Some e =>
           if within (now w - ts e) maxAgeMs
           then <[key := touch e]> (cache (globals w))
           else cache (globals w)
       | None => cache (globals w)
       end ∧
     (is_hit r.1 →
      ∃ e, cache (globals w) !! key = Some e ∧
           within (now w - ts e) maxAgeMs = true)) ∧
  (∀ ops,
     written_in_past (run_ops env parse ops w) ∧
     ∀ k e, cache (globals w) !! k = Some e →
            ∃ e', cache (globals (run_ops env parse ops w)) !! k = Some e' ∧
                  evolved e e').
Proof.
  intros Hdb Hpast. split_and!.
  - intros key v. rewrite exec_store_memory by done. simpl.
    by destruct (cache (globals w) !! key).
  - intros key maxAgeMs reqId. split.
    + apply lookup_cache.
    + apply lookup_hit_counted.
  - intros ops. by apply run_ops_evolve.
Qed.

End WithParse.

Lemma boot_written_in_past t : written_in_past (boot t).
Proof. intros k e Hk. simpl in Hk. by rewrite lookup_empty in Hk. Qed.

Lemma after_error_cache :
  cache (globals (elapse 100 (after_call env_rpc_error blockNumber))) =
  {[ getCacheKey blockNumber :=
       {| val := None; ts := 0; readCnt := 0; writeCnt := 1 |} ]}.
Proof. by vm_compute. Qed.

(** The instance of C8: the process 100 ms after it cached the answer to
    [eth_blockNumber]; a write of a new value at that point. *)
Lemma cache_bookkeeping_witness :
  db (elapse 100 (after_call env_rpc_error blockNumber)) = None ∧
  written_in_past (elapse 100 (after_call env_rpc_error blockNumber)) ∧
  cache (globals (exec (env_up Json.Null)
                    (AppDb.writeResponseToCache (getCacheKey blockNumber)
                       (Some (Json.Str "0x11")))
                    (elapse 100 (after_call env_rpc_error blockNumber))).2) =
  <[getCacheKey blockNumber :=
      {| val := Some (Json.Str "0x11");
         ts := now (elapse 100 (after_call env_rpc_error blockNumber));
         readCnt := from_option readCnt 0
           (cache (globals (elapse 100 (after_call env_rpc_error blockNumber)))
              !! getCacheKey blockNumber);
         writeCnt := from_option (λ e, writeCnt e + 1) 1
           (cache (globals (elapse 100 (after_call env_rpc_error blockNumber)))
              !! getCacheKey blockNumber) |}]>
    (cache (globals (elapse 100 (after_call env_rpc_error blockNumber)))).
Proof.
  assert (written_in_past (elapse 100 (after_call env_rpc_error blockNumber)))
    as Hpast.
  { intros k e. rewrite after_error_cache.
    intros [<- <-]%lookup_singleton_Some. by vm_compute. }
  split; [reflexivity|]. split; [exact Hpast|].
  exact (proj1 (cache_bookkeeping (env_up Json.Null) no_parse
                  (elapse 100 (after_call env_rpc_error blockNumber))
                  eq_refl Hpast)
           (getCacheKey blockNumber) (Some (Json.Str "0x11"))).
Defined.

(** C8, as stated, fails.  The upstream answered [eth_blockNumber] with a
    JSON-RPC error, so the entry holds [undefined]; a lookup 100 ms later
    finds it fresh and adds one to its read count, and serves no hit.  And
    with the sqlite backing a write leaves no entry in the cache, so no
    write count goes up. *)
Lemma read_counted_without_hit :
  (readCnt <$> cache (globals (elapse 100 (after_call env_rpc_error blockNumber)))
                 !! getCacheKey blockNumber = Some 0 ∧
   readCnt <$> cache (globals
                 (exec (env_up Json.Null)
                    (AppDb.getResponseFromCache no_parse (getCacheKey blockNumber)
                       (Ms 10000) (Some (Json.Num 2)))
                    (elapse 100 (after_call env_rpc_error blockNumber))).2)
                 !! getCacheKey blockNumber = Some 1 ∧
   (exec (env_up Json.Null)
      (AppDb.getResponseFromCache no_parse (getCacheKey blockNumber)
         (Ms 10000) (Some (Json.Num 2)))
      (elapse 100 (after_call env_rpc_error blockNumber))).1 = inl None) ∧
  cache (globals
    (exec (env_up Json.Null)
       (AppDb.writeResponseToCache (getCacheKey chainId) (Some (Json.Str "0x1")))
       (boot_db 0)).2) !! getCacheKey chainId = None.
Proof. by vm_compute. Qed.

End Bookkeeping.

(** ** The durable backing *)

Module Durable.
Import Js Shared Obs Samples JsFacts Retry Frame Throttle CacheStore.

Lemma exec_lookup_durable env parse key maxAgeMs reqId w store :
  db w = Some store → cache (globals w) !! key = None →
  exec env (AppDb.getResponseFromCache parse key maxAgeMs reqId) w =
  (inl None,
   match db_error env (n_db w) with
   | Some msg => logged ("DB read error: " +:+ msg) (waited env 0 (queried w))
   | None =>
       match store !! key with
       | Some _ =>
           logged ("DB read error: " +:+
                   "Cannot read properties of undefined (reading 'ts')")
             (waited env 0 (queried w))
       | None => waited env 0 (queried w)
       end
   end).
Proof.
  intros Hdb He. unfold AppDb.getResponseFromCache, AppDb.getFromDb,
    AppDb.entry_ts, cache_get, mbind, prog_bind.
  simpl. rewrite He. simpl. rewrite Hdb. simpl. rewrite Hdb.
  destruct (db_error env (n_db w)) as [msg|]; simpl; [done|].
  destruct (store !! key) as [row|]; simpl; [|done].
  rewrite He. done.
Qed.

(** C10.  With the sqlite backing in place, a write goes to the durable
    store and leaves the in-memory map (and every other shared binding) as
    it was.  A lookup of a key that is not in the in-memory map returns
    nothing and changes no shared binding, whatever the store holds: when
    the store has a row for the key, reading [cache.get(key).ts] throws the
    [TypeError], which is caught and logged as a read error. *)
Theorem durable_backing_never_read env parse w store :
  db w = Some store →
  (∀ key v,
     globals (exec env (AppDb.writeResponseToCache key v) w).2 = globals w ∧
     (db_error env (n_db w) = None →
      db (exec env (AppDb.writeResponseToCache key v) w).2 =
        Some (<[key := {| row_val := Json.stringify <$> v; row_ts := now w |}]>
                store))) ∧
  (∀ key maxAgeMs reqId,
     cache (globals w) !! key = None →
     let r := exec env (AppDb.getResponseFromCache parse key maxAgeMs reqId) w in
     r.1 = inl None ∧ globals r.2 = globals w ∧
     (∀ row, store !! key = Some row → db_error env (n_db w) = None →
        console r.2 =
          console w ++
          ["DB read error: Cannot read properties of undefined (reading 'ts')"])).
Proof.
  intros Hdb. split.
  - intros key v. rewrite (exec_store_durable env key v w store Hdb).
    destruct (db_error env (n_db w)); simpl; split; done.
  - intros key maxAgeMs reqId He.
    rewrite (exec_lookup_durable env parse key maxAgeMs reqId w store Hdb He).
    simpl. split_and!; [done| |].
    + destruct (db_error env (n_db w)); [done|]. by destruct (store !! key).
    + intros row Hrow Herr. by rewrite Herr, Hrow.
Qed.

(** The instance of C10: the answer to [eth_chainId] was written to the
    store at time 0; one second later, well within any age, the lookup of
    the same key returns nothing. *)
Lemma durable_backing_never_read_witness :
  db (elapse 1000 (after_call_db (env_up (Json.Str "0x1")) chainId)) =
    Some {[ getCacheKey chainId :=
              {| row_val := Some (Json.stringify (Json.Str "0x1")); row_ts := 0 |} ]} ∧
  (exec (env_up (Json.Str "0x1"))
     (AppDb.getResponseFromCache no_parse (getCacheKey chainId) Infinity
        (Some (Json.Num 1)))
     (elapse 1000 (after_call_db (env_up (Json.Str "0x1")) chainId))).1 = inl None.
Proof.
  assert (db (elapse 1000 (after_call_db (env_up (Json.Str "0x1")) chainId)) =
            Some {[ getCacheKey chainId :=
              {| row_val := Some (Json.stringify (Json.Str "0x1")); row_ts := 0 |} ]})
    as Hdb by (by vm_compute).
  split; [exact Hdb|].
  exact (proj1 (proj2 (durable_backing_never_read (env_up (Json.Str "0x1")) no_parse
                         (elapse 1000 (after_call_db (env_up (Json.Str "0x1")) chainId))
                         _ Hdb)
                  (getCacheKey chainId) Infinity (Some (Json.Num 1)) eq_refl)).
Defined.

End Durable.

(** ** Null results *)

Module NullSafety.
Import Js Shared Obs Samples JsFacts Retry Frame Throttle CacheStore Durable.

(** X1.  In the file with the sqlite backing a stored [null] is never served:
    the lookup returns nothing and the handler goes to the upstream. *)
Theorem stored_null_not_served env rpc maxAge parse req maxAgeMs reqId w :
  stored_null w (getCacheKey req) →
  (exec env (AppDb.getResponseFromCache parse (getCacheKey req) maxAgeMs reqId) w).1
    = inl None ∧
  forwarded rpc req w (exec env (AppDb.handlePost rpc maxAge parse req) w).2.
Proof.
  assert (∀ w m i, stored_null w (getCacheKey req) →
            (exec env (AppDb.getResponseFromCache parse (getCacheKey req) m i) w).1
              = inl None) as Hmiss.
  { intros w' m i Hnull. unfold stored_null in Hnull.
    destruct (cache (globals w') !! getCacheKey req) as [e|] eqn:He.
    - rewrite (exec_lookup_found _ _ _ _ _ _ e He).
      destruct (within _ _); [|done]. simpl. by rewrite Hnull.
    - destruct (exec_lookup_absent env parse (getCacheKey req) m i w' He)
        as (w'' & -> & _). done. }
  intros Hnull. split; [by apply Hmiss|].
  apply handlePost_miss_forwards, Hmiss.
  destruct (lookup_world env (getCacheKey req) w) as (Hc & Hdb & _).
  unfold stored_null in *. by rewrite Hc, Hdb.
Qed.

Lemma stored_null_not_served_witness :
  stored_null
    (cached (getCacheKey receipt)
       {| val := Some Json.Null; ts := 0; readCnt := 0; writeCnt := 1 |}
       (boot 1000))
    (getCacheKey receipt) ∧
  forwarded upstream_url receipt
    (cached (getCacheKey receipt)
       {| val := Some Json.Null; ts := 0; readCnt := 0; writeCnt := 1 |}
       (boot 1000))
    (exec (env_up mined) (AppDb.handlePost upstream_url 10 no_parse receipt)
       (cached (getCacheKey receipt)
          {| val := Some Json.Null; ts := 0; readCnt := 0; writeCnt := 1 |}
          (boot 1000))).2.
Proof.
  assert (stored_null
    (cached (getCacheKey receipt)
       {| val := Some Json.Null; ts := 0; readCnt := 0; writeCnt := 1 |}
       (boot 1000))
    (getCacheKey receipt)) as Hnull by (by vm_compute).
  split; [exact Hnull|].
  exact (proj2 (stored_null_not_served (env_up mined) upstream_url 10 no_parse
                  receipt Infinity None _ Hnull)).
Defined.

(** C5 on [app.js].  The receipt of a pending transaction is [null]; the
    handler of [app.js] caches it at time 0.  Two seconds later the
    transaction is mined, and the same request is answered from the cache
    with [result: null]: the lookup returns the envelope, the handler sends
    it and posts nothing. *)
Theorem appjs_serves_stored_null :
  val <$> cache (globals (elapse 2000 (after_call_js (env_up Json.Null) receipt)))
            !! getCacheKey receipt = Some (Some Json.Null) ∧
  (exec (env_up mined)
     (AppJs.getResponseFromCache (getCacheKey receipt)
        (AppJs.cacheMaxAgeMs 10 (body_method receipt)) (body_id receipt))
     (elapse 2000 (after_call_js (env_up Json.Null) receipt))).1 =
    inl (Some {| jsonrpc := "2.0"; res_id := Some (Json.Num 3);
                 result := Some Json.Null |}) ∧
  new_events
    (elapse 2000 (after_call_js (env_up Json.Null) receipt))
    (exec (env_up mined) (AppJs.handlePost upstream_url 10 receipt)
       (elapse 2000 (after_call_js (env_up Json.Null) receipt))).2 =
    [EvSend 200 (PCached {| jsonrpc := "2.0"; res_id := Some (Json.Num 3);
                            result := Some Json.Null |})].
Proof. by vm_compute. Qed.

End NullSafety.

(** ** Which calls are read with which age *)

Module Policy.
Import Js Shared Obs Samples JsFacts CacheStore.

(** Whatever its parameters, [eth_call] is looked up with the configured
    age, and a request whose entry is older than that goes to the
    upstream. *)
Lemma eth_call_read_with_finite_age env rpc CACHE_MAX_AGE parse req e w :
  body_method req = "eth_call" →
  cache (globals w) !! getCacheKey req = Some e →
  ts e + CACHE_MAX_AGE * 1000 < now w →
  AppDb.cacheMaxAgeMs CACHE_MAX_AGE (body_method req) = Ms (CACHE_MAX_AGE * 1000) ∧
  forwarded rpc req w
    (exec env (AppDb.handlePost rpc CACHE_MAX_AGE parse req) w).2.
Proof.
  intros Hm He Hold.
  assert (AppDb.cacheMaxAgeMs CACHE_MAX_AGE (body_method req) =
          Ms (CACHE_MAX_AGE * 1000)) as Hage by (by rewrite Hm).
  split; [done|]. by eapply stale_entry_forwards.
Qed.

(** C3 at its failing input.  [eth_call] with a [blockHash] parameter is
    answered at time 0 and its result written to the cache; it is looked up
    with [CACHE_MAX_AGE * 1000], and the same call 11 s later is posted to
    the upstream again. *)
Theorem pinned_call_expires :
  AppDb.cacheMaxAgeMs 10 (body_method call_at_block) = Ms 10000 ∧
  cache (globals (after_call (env_up (Json.Str "0xaa")) call_at_block))
    !! getCacheKey call_at_block =
    Some {| val := Some (Json.Str "0xaa"); ts := 0; readCnt := 0; writeCnt := 1 |} ∧
  new_events
    (elapse 11000 (after_call (env_up (Json.Str "0xaa")) call_at_block))
    (exec (env_up (Json.Str "0xaa"))
       (AppDb.handlePost upstream_url 10 no_parse call_at_block)
       (elapse 11000 (after_call (env_up (Json.Str "0xaa")) call_at_block))).2 =
    [EvPost upstream_url call_at_block;
     EvSend 200 (PUpstream
       (Json.Obj [("jsonrpc", Json.Str "2.0"); ("id", Json.Num 1);
                  ("result", Json.Str "0xaa")]))].
Proof. by vm_compute. Qed.

End Policy.

(** ** Cache keys *)

Module Keys.
Import Js Shared Obs Samples JsonLex JsonFacts.
Local Arguments String.append !_ _ : simpl nomatch.


Lemma params_text_inj (p1 p2 : option Json.value) :
  match p1 with Some p => Json.stringify p | None => "undefined" end =
  match p2 with Some p => Json.stringify p | None => "undefined" end →
  p1 = p2.
Proof.
  destruct p1 as [p1|], p2 as [p2|]; intros E; [| | |done].
  - f_equal. by apply stringify_inj.
  - destruct (stringify_head p1 EmptyString) as (h & t & Eh & Hh).
    rewrite append_empty_r, E in Eh. injection Eh as <- _.
    vm_compute in Hh. discriminate Hh.
  - destruct (stringify_head p2 EmptyString) as (h & t & Eh & Hh).
    rewrite append_empty_r, <- E in Eh. injection Eh as <- _.
    vm_compute in Hh. discriminate Hh.
Qed.

(** Every call whose result is written to the cache has one of the
    methods of [cacheable_methods]. *)
Lemma AppDb_cacheable_method env w req :
  (exec env (AppDb.cacheable req) w).1 = inl true →
  body_method req ∈ cacheable_methods.
Proof.
  unfold AppDb.cacheable, includes, cacheable_methods.
  case_bool_decide as Hin.
  - intros _. revert Hin. rewrite !elem_of_cons, !elem_of_nil. tauto.
  - case_decide as Hcall; [|done].
    intros _. rewrite Hcall, !elem_of_cons. tauto.
Qed.

Lemma AppJs_cacheable_method req :
  AppJs.cacheable req = true → body_method req ∈ cacheable_methods.
Proof.
  unfold AppJs.cacheable, includes, cacheable_methods.
  case_bool_decide as Hin; [|done].
  intros _. revert Hin. rewrite !elem_of_cons, !elem_of_nil. tauto.
Qed.




End Keys.

(** ** Further properties of the pipeline *)

Module Pipeline.
Import Js Shared Obs Samples JsFacts Retry Frame Throttle CacheStore.

(** The loop stops at the first post that succeeds, when the failures
    before it carried no response. *)
Lemma upstreamHttpRequest_recovers env rpc reqBody res nrRetries :
  ∀ k initialTimeoutMs w,
    (k ≤ nrRetries)%nat →
    upstream_unreachable env w k →
    upstream env (n_post w + k) = inr res →
    ∃ w',
      exec env (upstreamHttpRequest rpc reqBody nrRetries initialTimeoutMs) w =
        (inl res, w') ∧
      trace w' = trace w ++ retry_trace rpc reqBody k initialTimeoutMs ∧
      globals w' = globals w.
Proof.
  induction nrRetries as [|n IH]; intros k t w Hk Hdown Hok;
    rewrite upstreamHttpRequest_unfold, exec_try_catch, exec_axios_post.
  - assert (k = 0%nat) as -> by lia. rewrite Nat.add_0_r in Hok. rewrite Hok.
    eexists. split; [done|]. by simpl.
  - destruct k as [|k].
    + rewrite Nat.add_0_r in Hok. rewrite Hok. eexists. split; [done|]. by simpl.
    + destruct (Hdown 0%nat ltac:(lia)) as (f & Hf & Hr).
      rewrite Nat.add_0_r in Hf. rewrite Hf.
      destruct (exec_catch_no_response env f
                  (perform (SetTimeout t);;
                   upstreamHttpRequest rpc reqBody n (t * 2))
                  (waited env 0 (posted (emit (EvPost rpc reqBody) w))) Hr)
        as [msg ->].
      rewrite exec_bind, exec_perform.
      set (w1 := (handle env (SetTimeout t) _).2).
      destruct (IH k (t * 2) w1) as (w' & -> & Htr & Hg).
      * lia.
      * by apply (upstream_unreachable_next env w).
      * rewrite <- Hok. f_equal. simpl. lia.
      * exists w'. split; [done|]. rewrite Htr, Hg. simpl.
        split; [by rewrite <- !app_assoc|done].
Qed.

(** X2.  Recovery.  If the first [k <= 10] posts fail without a response
    (the upstream cannot be reached) and the next one succeeds,
    [upstreamHttpRequest] returns that response after [k + 1] posts, having
    waited [2000 * 2^j] ms before retry [j + 1], and leaves the shared
    state as it was. *)
Theorem upstream_recovers env rpc reqBody res k w :
  (k ≤ 10)%nat →
  upstream_unreachable env w k →
  upstream env (n_post w + k) = inr res →
  ∃ w',
    exec env (upstreamHttpRequest rpc reqBody 10 2000) w = (inl res, w') ∧
    new_events w w' = retry_trace rpc reqBody k 2000 ∧
    attempts (new_events w w') = S k ∧
    sleeps (new_events w w') = (λ j, 2000 * 2 ^ Z.of_nat j) <$> seq 0 k ∧
    globals w' = globals w.
Proof.
  intros Hk Hdown Hok.
  destruct (upstreamHttpRequest_recovers env rpc reqBody res 10 k 2000 w
              Hk Hdown Hok) as (w' & Hexec & Htrace & Hg).
  exists w'. rewrite (new_events_app _ _ _ Htrace).
  split_and!; [done|done| | |done].
  - apply attempts_retry_trace.
  - apply sleeps_retry_trace.
Qed.

Lemma env_recovering_unreachable n v :
  upstream_unreachable (env_recovering n v) (boot 0) n.
Proof.
  intros i Hi. exists (NoResponse None). split; [|done]. simpl.
  by destruct (Nat.ltb_spec i n); [|lia].
Qed.

Lemma upstream_recovers_witness :
  upstream_unreachable (env_recovering 3 (Json.Str "0x1")) (boot 0) 3 ∧
  ∃ w',
    exec (env_recovering 3 (Json.Str "0x1"))
      (upstreamHttpRequest upstream_url chainId 10 2000)
      (boot 0) = (inl {| data := Json.Obj [("jsonrpc", Json.Str "2.0");
                                           ("id", Json.Num 1);
                                           ("result", Json.Str "0x1")] |}, w') ∧
    new_events (boot 0) w' = retry_trace upstream_url chainId 3 2000 ∧
    attempts (new_events (boot 0) w') = 4%nat ∧
    sleeps (new_events (boot 0) w') = [2000; 4000; 8000] ∧
    globals w' = globals (boot 0).
Proof.
  split; [apply env_recovering_unreachable|].
  refine (upstream_recovers (env_recovering 3 (Json.Str "0x1")) upstream_url
            chainId _ 3 (boot 0) _ (env_recovering_unreachable 3 _) eq_refl).
  lia.
Defined.

Lemma upstreamHttpRequest_attempts env rpc reqBody nrRetries :
  ∀ initialTimeoutMs w,
    ∃ evs,
      trace (exec env (upstreamHttpRequest rpc reqBody nrRetries initialTimeoutMs) w).2
        = trace w ++ evs ∧
      (1 ≤ attempts evs ≤ S nrRetries)%nat.
Proof.
  induction nrRetries as [|n IH]; intros t w;
    rewrite upstreamHttpRequest_unfold, exec_try_catch, exec_axios_post;
    destruct (upstream env (n_post w)) as [f|res];
    try (exists [EvPost rpc reqBody]; simpl; split; [done|lia]);
    (destruct (has_response f) eqn:Hr;
     [rewrite (exec_catch_response env f _ _ Hr);
      exists [EvPost rpc reqBody]; simpl; split; [done|lia]|]).
  - destruct (exec_catch_no_response env f
                (@Throw AxiosResponse
                   (ReferenceError "forwardErr is not defined"))
                (waited env 0 (posted (emit (EvPost rpc reqBody) w))) Hr)
      as [msg ->].
    exists [EvPost rpc reqBody]. simpl. split; [done|lia].
  - destruct (exec_catch_no_response env f
                (perform (SetTimeout t);;
                 upstreamHttpRequest rpc reqBody n (t * 2))
                (waited env 0 (posted (emit (EvPost rpc reqBody) w))) Hr)
      as [msg ->].
    rewrite exec_bind, exec_perform.
    set (w1 := (handle env (SetTimeout t) _).2).
    destruct (IH (t * 2) w1) as (evs & Htr & Hn).
    exists (EvPost rpc reqBody :: EvSleep t :: evs). rewrite Htr. simpl.
    split; [by rewrite <- !app_assoc|lia].
Qed.

(** X5.  Bounded retries.  Whatever the upstream answers, one call of
    [upstreamHttpRequest] with the default arguments posts at least once and
    at most 11 times. *)
Theorem upstream_attempts_bounded env rpc reqBody w :
  (1 ≤ attempts (new_events w
                   (exec env (upstreamHttpRequest rpc reqBody 10 2000) w).2)
     ≤ 11)%nat.
Proof.
  destruct (upstreamHttpRequest_attempts env rpc reqBody 10 2000 w)
    as (evs & Htr & Hn).
  by rewrite (new_events_app _ _ _ Htr).
Qed.

Section WithParse.
Context (env : Env) (parse : option string → Json.value + exn).

(** X3.  Immutability.  A request for one of the methods that are read with
    [Infinity], whose key has a value other than [null] in the in-memory
    cache, is answered from the cache however old the entry is: the handler
    sends the envelope with the request's own id and the stored value, and
    posts nothing. *)
Theorem immutable_method_hit rpc maxAge req e r w :
  body_method req ∈ ["eth_chainId"; "net_version"; "eth_getTransactionReceipt"] →
  cache (globals w) !! getCacheKey req = Some e →
  val e = Some r → r ≠ Json.Null →
  ∃ w',
    exec env (AppDb.handlePost rpc maxAge parse req) w = (inl (), w') ∧
    last (trace w') =
      Some (EvSend 200 (PCached {| jsonrpc := "2.0"; res_id := body_id req;
                                   result := Some r |})) ∧
    attempts (new_events w w') = 0%nat.
Proof.
  intros Hm He Hv Hr. unfold AppDb.handlePost. cbv zeta. rewrite exec_handler.
  destruct (lookup_world env (getCacheKey req) w) as (Hc & _ & _).
  assert (trace (recorded (getCacheKey req)
                   (exec env (delayDuplicate (getCacheKey req)) w).2) =
          trace w ++ (if recentb w (getCacheKey req)
                      then [EvSleep (delayMs env w)] else [])) as Htr.
  { rewrite exec_delayDuplicate_recentb. simpl.
    destruct (recentb w (getCacheKey req)); simpl; [done|by rewrite app_nil_r]. }
  set (w2 := recorded _ _) in *.
  rewrite <- Hc in He. unfold AppDb.respond. rewrite exec_bind.
  rewrite (exec_lookup_found _ _ _ _ _ _ e He).
  assert (AppDb.cacheMaxAgeMs maxAge (body_method req) = Infinity) as ->.
  { unfold AppDb.cacheMaxAgeMs, includes. by rewrite bool_decide_eq_true_2. }
  simpl within. cbv iota. rewrite Hv.
  assert (served (body_id req) (Some r) =
          Some {| jsonrpc := "2.0"; res_id := body_id req; result := Some r |})
    as -> by (by destruct r).
  clearbody w2. eexists. split; [reflexivity|]. simpl. rewrite Htr. split.
  - by rewrite last_snoc.
  - unfold new_events. simpl. rewrite Htr, <- app_assoc, drop_app_length.
    by destruct (recentb w (getCacheKey req)).
Qed.

(** X4.  Round trip.  With the in-memory backing, a value other than [null]
    written to the cache and looked up again within [maxAgeMs] comes back
    as it was written, in an envelope with the id of the request that looks
    it up. *)
Theorem written_value_read_back key v maxAgeMs reqId dt w :
  db w = None → v ≠ Json.Null →
  within (Z.of_N dt) maxAgeMs = true →
  (exec env (AppDb.getResponseFromCache parse key maxAgeMs reqId)
     (elapse dt (exec env (AppDb.writeResponseToCache key (Some v)) w).2)).1 =
  inl (Some {| jsonrpc := "2.0"; res_id := reqId; result := Some v |}).
Proof.
  intros Hdb Hv Hage. rewrite (exec_store_memory env key (Some v) w Hdb).
  erewrite exec_lookup_found; [|apply lookup_insert_eq].
  simpl. replace (now w + Z.of_N dt - now w) with (Z.of_N dt) by lia.
  rewrite Hage. simpl. by destruct v.
Qed.

End WithParse.

Lemma immutable_method_hit_witness :
  ∃ w',
    exec (env_up (Json.Str "0x2"))
      (AppDb.handlePost upstream_url 10 no_parse chainId)
      (elapse 100000 (after_call (env_up (Json.Str "0x1")) chainId)) = (inl (), w') ∧
    last (trace w') =
      Some (EvSend 200 (PCached {| jsonrpc := "2.0"; res_id := body_id chainId;
                                   result := Some (Json.Str "0x1") |})) ∧
    attempts (new_events
                (elapse 100000 (after_call (env_up (Json.Str "0x1")) chainId)) w')
      = 0%nat.
Proof.
  refine (immutable_method_hit (env_up (Json.Str "0x2")) no_parse upstream_url 10
            chainId
            {| val := Some (Json.Str "0x1"); ts := 0; readCnt := 0; writeCnt := 1 |}
            (Json.Str "0x1")
            (elapse 100000 (after_call (env_up (Json.Str "0x1")) chainId))
            _ _ eq_refl _).
  - simpl. rewrite !elem_of_cons. tauto.
  - by vm_compute.
  - discriminate.
Defined.

Lemma written_value_read_back_witness :
  (exec (env_up Json.Null)
     (AppDb.getResponseFromCache no_parse (getCacheKey blockNumber) (Ms 10000)
        (Some (Json.Num 7)))
     (elapse 5000
        (exec (env_up Json.Null)
           (AppDb.writeResponseToCache (getCacheKey blockNumber)
              (Some (Json.Str "0x10")))
           (boot 0)).2)).1 =
  inl (Some {| jsonrpc := "2.0"; res_id := Some (Json.Num 7);
               result := Some (Json.Str "0x10") |}).
Proof.
  refine (written_value_read_back (env_up Json.Null) no_parse
            (getCacheKey blockNumber) (Json.Str "0x10") (Ms 10000)
            (Some (Json.Num 7)) 5000 (boot 0) eq_refl _ eq_refl).
  discriminate.
Defined.

End Pipeline.
(** ** What a request is answered with *)

Module Answers.
Import Js Shared Obs Samples Session JsFacts Retry Frame Throttle CacheStore.

Lemma responses_app evs1 evs2 :
  responses (evs1 ++ evs2) = responses evs1 ++ responses evs2.
Proof.
  induction evs1 as [|[] evs1 IH]; simpl; [done|done|done|]. by rewrite IH.
Qed.

Lemma ran_compose sent1 a1 b1 c1 sent2 a2 b2 c2 w1 w2 w3 :
  ran sent1 a1 b1 c1 w1 w2 → ran sent2 a2 b2 c2 w2 w3 →
  ran (sent1 ++ sent2) (a1 + a2) (b1 + b2) (c1 + c2) w1 w3.
Proof.
  intros ((evs1 & Ht1 & Hs1) & Ha1 & Hb1 & Hc1)
         ((evs2 & Ht2 & Hs2) & Ha2 & Hb2 & Hc2).
  unfold ran. split_and!; [|lia..].
  exists (evs1 ++ evs2). rewrite Ht2, Ht1, responses_app, Hs1, Hs2.
  by rewrite <- app_assoc.
Qed.

Lemma ran_silent_l sent a b c w1 w2 w3 :
  silent w1 w2 → ran sent a b c w2 w3 → ran sent a b c w1 w3.
Proof.
  intros H1 H2. pose proof (ran_compose _ _ _ _ _ _ _ _ _ _ _ H1 H2) as H.
  by rewrite !Z.add_0_l in H.
Qed.

Lemma ran_silent_r sent a b c w1 w2 w3 :
  ran sent a b c w1 w2 → silent w2 w3 → ran sent a b c w1 w3.
Proof.
  intros H1 H2. pose proof (ran_compose _ _ _ _ _ _ _ _ _ _ _ H1 H2) as H.
  by rewrite !Z.add_0_r, app_nil_r in H.
Qed.

#[global] Instance silent_refl : Reflexive silent.
Proof.
  intros w. unfold silent, ran. split_and!; [|lia..].
  exists []. by rewrite app_nil_r.
Qed.

#[global] Instance silent_trans : Transitive silent.
Proof. intros w1 w2 w3 H1 H2. by eapply ran_silent_l. Qed.

(** Operations that send nothing and count nothing. *)
Lemma perform_silent {X} (op : eff X) :
  (match op with SetGlobals _ | ResSend _ _ => False | _ => True end) →
  preserves silent (perform op).
Proof.
  intros Hop. apply preserves_perform. intros env w. unfold silent, ran.
  assert (∀ w' : World, ∃ evs, trace w' = trace w' ++ evs ∧ responses evs = [])
    as Hnone by (intros w'; exists []; by rewrite app_nil_r).
  destruct op; simpl; try done;
    try (destruct (db w), (db_error env (n_db w)); simpl);
    (split_and!; [|lia..]); first [apply Hnone | by eexists].
Qed.

Lemma set_silent (f : Globals → Globals) :
  (∀ g, httpReqCnt (f g) = httpReqCnt g ∧
        httpUpstreamResCnt (f g) = httpUpstreamResCnt g ∧
        httpCacheResCnt (f g) = httpCacheResCnt g) →
  preserves silent (g ← perform GetGlobals; perform (SetGlobals (f g))).
Proof.
  intros Hf env w. simpl. destruct (Hf (globals w)) as (Ha & Hb & Hc).
  unfold silent, ran. simpl. rewrite Ha, Hb, Hc. split_and!; [|lia..].
  exists []. by rewrite app_nil_r.
Qed.

Lemma cache_get_silent key : preserves silent (cache_get key).
Proof. intros env w. simpl. reflexivity. Qed.

Lemma cache_set_silent key e : preserves silent (cache_set key e).
Proof. by apply (set_silent (λ g, with_cache (<[key := e]> (cache g)) g)). Qed.

Lemma duplicateDetector_get_silent key :
  preserves silent (duplicateDetector_get key).
Proof. intros env w. simpl. reflexivity. Qed.

Lemma duplicateDetector_set_silent key t :
  preserves silent (duplicateDetector_set key t).
Proof.
  by apply (set_silent
    (λ g, with_duplicateDetector (<[key := t]> (duplicateDetector g)) g)).
Qed.

Ltac quiet :=
  repeat first
    [ apply cache_get_silent | apply cache_set_silent
    | apply duplicateDetector_get_silent | apply duplicateDetector_set_silent
    | apply perform_silent; exact I
    | step_preserves ].

Lemma upstreamHttpRequest_silent rpc reqBody nrRetries t :
  preserves silent (upstreamHttpRequest rpc reqBody nrRetries t).
Proof.
  revert t. induction nrRetries as [|n IH]; intros t;
    rewrite upstreamHttpRequest_unfold;
    unfold axios_post, log_upstream_err, forwardedErr, stringify_response.
  - quiet.
  - apply preserves_try_catch; [apply _| |]; [quiet|].
    intros err. apply preserves_bind; [apply _| |]; [quiet|].
    intros _. apply preserves_bind; [apply _| |]; [quiet|].
    intros _. apply preserves_bind; [apply _| |]; [quiet|].
    intros _. apply IH.
Qed.

Lemma delayDuplicate_silent key : preserves silent (delayDuplicate key).
Proof. unfold delayDuplicate. quiet. Qed.

Lemma recordCall_silent key : preserves silent (recordCall key).
Proof. unfold recordCall. quiet. Qed.

Lemma AppDb_getResponseFromCache_silent parse key maxAgeMs reqId :
  preserves silent (AppDb.getResponseFromCache parse key maxAgeMs reqId).
Proof.
  unfold AppDb.getResponseFromCache, AppDb.getFromDb, AppDb.entry_ts. quiet.
Qed.

Lemma AppJs_getResponseFromCache_silent key maxAgeMs reqId :
  preserves silent (AppJs.getResponseFromCache key maxAgeMs reqId).
Proof. unfold AppJs.getResponseFromCache. quiet. Qed.

Lemma some_silent l : preserves silent (some pins_blockHash l).
Proof.
  induction l as [|x l IH]; simpl; [quiet|].
  apply preserves_bind; [apply _| |].
  - destruct x; quiet.
  - intros []; [quiet|done].
Qed.

Lemma AppDb_cacheResult_silent req key rpcRes :
  preserves silent (AppDb_cacheResult req key rpcRes).
Proof.
  unfold AppDb_cacheResult, AppDb.cacheable, params_some, data_result,
    AppDb.writeResponseToCache.
  quiet; apply some_silent.
Qed.

Lemma AppJs_cacheResult_silent req key rpcRes :
  preserves silent (AppJs_cacheResult req key rpcRes).
Proof.
  unfold AppJs_cacheResult, data_result, AppJs.writeResponseToCache. quiet.
Qed.

(** The POST handler from the lookup on, case by case. *)
Lemma AppDb_exec_respond env rpc maxAge parse req key w :
  exec env (AppDb.respond rpc maxAge parse req key) w =
  match exec env (AppDb.getResponseFromCache parse key
                    (AppDb.cacheMaxAgeMs maxAge (body_method req))
                    (body_id req)) w with
  | (inl (Some c), w1) =>
      (inl (), request_counted (cached_counted (emit (EvSend 200 (PCached c)) w1)))
  | (inl None, w1) =>
      match exec env (upstreamHttpRequest rpc req 10 2000) w1 with
      | (inl rpcRes, w2) =>
          match exec env (AppDb_cacheResult req key rpcRes)
                  (emit (EvSend 200 (PUpstream (data rpcRes)))
                     (upstream_counted w2)) with
          | (inl _, w3) => (inl (), request_counted w3)
          | (inr err, w3) => (inl (), request_counted (failed err w3))
          end
      | (inr err, w2) => (inl (), request_counted (failed err w2))
      end
  | (inr err, w1) => (inr err, w1)
  end.
Proof.
  unfold AppDb.respond. rewrite exec_bind.
  destruct (exec env (AppDb.getResponseFromCache _ _ _ _) w)
    as [[[c|]|err] w1]; [done| |done].
  rewrite exec_bind, exec_try_catch, exec_bind.
  destruct (exec env (upstreamHttpRequest rpc req 10 2000) w1)
    as [[rpcRes|err] w2]; [|done].
  rewrite exec_bind. simpl (exec env incr_httpUpstreamResCnt w2). cbv beta iota.
  rewrite exec_bind. simpl (exec env (perform _) _). cbv beta iota.
  change (exec env (AppDb.cacheable req ≫= _) ?w')
    with (exec env (AppDb_cacheResult req key rpcRes) w').
  by destruct (exec env (AppDb_cacheResult req key rpcRes) _) as [[[]|err] w3].
Qed.

Lemma AppJs_exec_respond env rpc maxAge req key w :
  exec env (AppJs.respond rpc maxAge req key) w =
  match exec env (AppJs.getResponseFromCache key
                    (AppJs.cacheMaxAgeMs maxAge (body_method req))
                    (body_id req)) w with
  | (inl (Some c), w1) =>
      (inl (), request_counted (cached_counted (emit (EvSend 200 (PCached c)) w1)))
  | (inl None, w1) =>
      match exec env (upstreamHttpRequest rpc req 10 2000) w1 with
      | (inl rpcRes, w2) =>
          match exec env (AppJs_cacheResult req key rpcRes)
                  (emit (EvSend 200 (PUpstream (data rpcRes)))
                     (upstream_counted w2)) with
          | (inl _, w3) => (inl (), request_counted w3)
          | (inr err, w3) => (inl (), request_counted (failed err w3))
          end
      | (inr err, w2) => (inl (), request_counted (failed err w2))
      end
  | (inr err, w1) => (inr err, w1)
  end.
Proof.
  unfold AppJs.respond. rewrite exec_bind.
  destruct (exec env (AppJs.getResponseFromCache _ _ _) w)
    as [[[c|]|err] w1]; [done| |done].
  rewrite exec_bind, exec_try_catch, exec_bind.
  destruct (exec env (upstreamHttpRequest rpc req 10 2000) w1)
    as [[rpcRes|err] w2]; [|done].
  rewrite exec_bind. simpl (exec env incr_httpUpstreamResCnt w2). cbv beta iota.
  rewrite exec_bind. simpl (exec env (perform _) _). cbv beta iota.
  change (exec env (if AppJs.cacheable req then _ else _) ?w')
    with (exec env (AppJs_cacheResult req key rpcRes) w').
  by destruct (exec env (AppJs_cacheResult req key rpcRes) _) as [[[]|err] w3].
Qed.

(** The lookup never throws. *)
Lemma AppDb_lookup_returns env parse key maxAgeMs reqId w :
  ∃ r, (exec env (AppDb.getResponseFromCache parse key maxAgeMs reqId) w).1 = inl r.
Proof.
  destruct (cache (globals w) !! key) as [e|] eqn:He.
  - rewrite (exec_lookup_found env parse key maxAgeMs reqId w e He).
    destruct (within _ _); eauto.
  - destruct (exec_lookup_absent env parse key maxAgeMs reqId w He)
      as (w' & -> & _). eauto.
Qed.

Lemma AppJs_exec_lookup env key maxAgeMs reqId w :
  exec env (AppJs.getResponseFromCache key maxAgeMs reqId) w =
  match cache (globals w) !! key with
  | Some e =>
      if within (now w - ts e) maxAgeMs
      then (inl (Some {| jsonrpc := "2.0"; res_id := reqId; result := val e |}),
            cached key (touch e) w)
      else (inl None, w)
  | None => (inl None, w)
  end.
Proof.
  unfold AppJs.getResponseFromCache, cache_get, mbind, prog_bind. simpl.
  destruct (cache (globals w) !! key) as [e|]; simpl; [|done].
  by destruct (within _ _).
Qed.

Lemma AppJs_lookup_returns env key maxAgeMs reqId w :
  ∃ r, (exec env (AppJs.getResponseFromCache key maxAgeMs reqId) w).1 = inl r.
Proof.
  rewrite AppJs_exec_lookup.
  destruct (cache (globals w) !! key) as [e|]; [|eauto].
  destruct (within _ _); eauto.
Qed.

Lemma ran_sent status p w : ran [(status, p)] 0 0 0 w (emit (EvSend status p) w).
Proof. unfold ran. simpl. split_and!; [by eexists|lia..]. Qed.

Lemma ran_failed err w : ran [(500, PError err)] 0 0 0 w (failed err w).
Proof. unfold ran. simpl. split_and!; [by eexists|lia..]. Qed.

Lemma ran_request_counted w : ran [] 1 0 0 w (request_counted w).
Proof.
  unfold ran. simpl. split_and!; [|lia..]. exists []. by rewrite app_nil_r.
Qed.

Lemma ran_upstream_counted w : ran [] 0 1 0 w (upstream_counted w).
Proof.
  unfold ran. simpl. split_and!; [|lia..]. exists []. by rewrite app_nil_r.
Qed.

Lemma ran_cached_counted w : ran [] 0 0 1 w (cached_counted w).
Proof.
  unfold ran. simpl. split_and!; [|lia..]. exists []. by rewrite app_nil_r.
Qed.

Lemma ran_accounted sent b c w w' :
  ran sent 1 b c w w' → answered sent →
  b = Z.of_nat (length (filter is_upstream sent)) →
  c = Z.of_nat (length (filter is_cached sent)) →
  accounted w w'.
Proof.
  intros ((evs & Htr & Hs) & Ha & Hb & Hc) Hans -> ->.
  unfold accounted. rewrite (new_events_app _ _ _ Htr), Hs. done.
Qed.

(** The handler from the lookup on answers the request and counts it,
    given that the lookup returns and sends nothing. *)
Lemma respond_accounted env (lookup : prog (option CachedResponse))
    (upstream : prog AxiosResponse) (cacheResult : AxiosResponse → prog unit)
    (respond : prog unit) w :
  preserves silent lookup → preserves silent upstream →
  (∀ rpcRes, preserves silent (cacheResult rpcRes)) →
  (∃ r, (exec env lookup w).1 = inl r) →
  exec env respond w =
    match exec env lookup w with
    | (inl (Some c), w1) =>
        (inl (), request_counted (cached_counted (emit (EvSend 200 (PCached c)) w1)))
    | (inl None, w1) =>
        match exec env upstream w1 with
        | (inl rpcRes, w2) =>
            match exec env (cacheResult rpcRes)
                    (emit (EvSend 200 (PUpstream (data rpcRes)))
                       (upstream_counted w2)) with
            | (inl _, w3) => (inl (), request_counted w3)
            | (inr err, w3) => (inl (), request_counted (failed err w3))
            end
        | (inr err, w2) => (inl (), request_counted (failed err w2))
        end
    | (inr err, w1) => (inr err, w1)
    end →
  ∃ sent b c w',
    exec env respond w = (inl (), w') ∧ ran sent 1 b c w w' ∧ answered sent ∧
    b = Z.of_nat (length (filter is_upstream sent)) ∧
    c = Z.of_nat (length (filter is_cached sent)).
Proof.
  intros Hlookup Hupstream Hresult [r Hr] ->.
  specialize (Hlookup env w).
  destruct (exec env lookup w) as [r' w1]. simpl in Hr, Hlookup. subst r'.
  destruct r as [c|].
  - exists [(200, PCached c)], 0, 1. eexists. split; [done|].
    split; [|split; [apply from_cache|done]].
    eapply ran_silent_l; [done|].
    eapply (ran_compose [(200, PCached c)] 0 0 0 [] 1 0 1); [apply ran_sent|].
    eapply (ran_compose [] 0 0 1 [] 1 0 0);
      [apply ran_cached_counted|apply ran_request_counted].
  - specialize (Hupstream env w1).
    destruct (exec env upstream w1) as [[rpcRes|err] w2]; simpl in Hupstream.
    + specialize (Hresult rpcRes env
        (emit (EvSend 200 (PUpstream (data rpcRes))) (upstream_counted w2))).
      destruct (exec env (cacheResult rpcRes) _) as [[[]|err] w3];
        simpl in Hresult.
      * exists [(200, PUpstream (data rpcRes))], 1, 0. eexists. split; [done|].
        split; [|split; [apply from_upstream|done]].
        eapply ran_silent_l; [done|]. eapply ran_silent_l; [done|].
        eapply (ran_compose [] 0 1 0 [(200, PUpstream (data rpcRes))] 1 0 0);
          [apply ran_upstream_counted|].
        eapply (ran_compose [(200, PUpstream (data rpcRes))] 0 0 0 [] 1 0 0);
          [apply ran_sent|].
        eapply ran_silent_l; [done|]. apply ran_request_counted.
      * exists [(200, PUpstream (data rpcRes)); (500, PError err)], 1, 0.
        eexists. split; [done|].
        split; [|split; [apply from_upstream_then_error|done]].
        eapply ran_silent_l; [done|]. eapply ran_silent_l; [done|].
        eapply (ran_compose [] 0 1 0
                 [(200, PUpstream (data rpcRes)); (500, PError err)] 1 0 0);
          [apply ran_upstream_counted|].
        eapply (ran_compose [(200, PUpstream (data rpcRes))] 0 0 0
                 [(500, PError err)] 1 0 0); [apply ran_sent|].
        eapply ran_silent_l; [done|].
        eapply (ran_compose [(500, PError err)] 0 0 0 [] 1 0 0);
          [apply ran_failed|apply ran_request_counted].
    + exists [(500, PError err)], 0, 0. eexists. split; [done|].
      split; [|split; [apply with_error|done]].
      eapply ran_silent_l; [done|]. eapply ran_silent_l; [done|].
      eapply (ran_compose [(500, PError err)] 0 0 0 [] 1 0 0);
        [apply ran_failed|apply ran_request_counted].
Qed.

Lemma handler_silent_start env key w :
  silent w (recorded key (exec env (delayDuplicate key) w).2).
Proof.
  etrans; [apply delayDuplicate_silent|].
  apply (recordCall_silent key env).
Qed.

(** X6.  Every request is answered and counted.  In both files the handler of a
    request, whatever the cache holds and whatever the upstream and the
    database do, calls [res.send] once with a response from the cache, or
    once with the upstream response, or with the upstream response and
    then with an exception thrown after it, or once with the exception the
    retry loop ended in.  It adds to [httpCacheResCnt] and
    [httpUpstreamResCnt] the number of cached and of upstream responses it
    has sent and, where it called [res.send] once, one to [httpReqCnt]. *)
Theorem every_request_answered env rpc maxAge parse req w :
  accounted w (exec env (AppDb.handlePost rpc maxAge parse req) w).2 ∧
  accounted w (exec env (AppJs.handlePost rpc maxAge req) w).2.
Proof.
  pose proof (handler_silent_start env (getCacheKey req) w) as Hstart.
  split.
  - unfold AppDb.handlePost. cbv zeta. rewrite exec_handler.
    set (w0 := recorded _ _) in *.
    destruct (respond_accounted env _ _ _ _ w0
                (AppDb_getResponseFromCache_silent parse (getCacheKey req) _ _)
                (upstreamHttpRequest_silent rpc req 10 2000)
                (AppDb_cacheResult_silent req (getCacheKey req))
                (AppDb_lookup_returns env parse _ _ _ w0)
                (AppDb_exec_respond env rpc maxAge parse req (getCacheKey req) w0))
      as (sent & b & c & w' & -> & Hran & Hans & Hb & Hc).
    eapply ran_accounted; [|done..]. by eapply ran_silent_l.
  - unfold AppJs.handlePost. cbv zeta. rewrite exec_handler.
    set (w0 := recorded _ _) in *.
    destruct (respond_accounted env _ _ _ _ w0
                (AppJs_getResponseFromCache_silent (getCacheKey req) _ _)
                (upstreamHttpRequest_silent rpc req 10 2000)
                (AppJs_cacheResult_silent req (getCacheKey req))
                (AppJs_lookup_returns env _ _ _ w0)
                (AppJs_exec_respond env rpc maxAge req (getCacheKey req) w0))
      as (sent & b & c & w' & -> & Hran & Hans & Hb & Hc).
    eapply ran_accounted; [|done..]. by eapply ran_silent_l.
Qed.

(** *** Exact runs *)

Lemma attempts_app evs1 evs2 :
  attempts (evs1 ++ evs2) = (attempts evs1 + attempts evs2)%nat.
Proof.
  induction evs1 as [|[] evs1 IH]; simpl; [done|done| |done]. by rewrite IH.
Qed.

(** The world the lookup starts in: the duplicate check and the record
    have touched neither the cache, the database, the counters nor the
    upstream, and have added at most the delay to the trace. *)
Lemma start_world env key w :
  let w0 := recorded key (exec env (delayDuplicate key) w).2 in
  cache (globals w0) = cache (globals w) ∧ db w0 = db w ∧
  n_post w0 = n_post w ∧ now w ≤ now w0 ∧
  httpUpstreamResCnt (globals w0) = httpUpstreamResCnt (globals w) ∧
  httpCacheResCnt (globals w0) = httpCacheResCnt (globals w) ∧
  httpReqCnt (globals w0) = httpReqCnt (globals w) ∧
  trace w0 = trace w ++ (if recentb w key then [EvSleep (delayMs env w)] else []).
Proof.
  rewrite exec_delayDuplicate_recentb. simpl.
  destruct (recentb w key); simpl; split_and!; try done; try lia.
  by rewrite app_nil_r.
Qed.

Lemma AppDb_lookup_absent_world env parse key maxAgeMs reqId w :
  cache (globals w) !! key = None →
  ∃ w', exec env (AppDb.getResponseFromCache parse key maxAgeMs reqId) w =
          (inl None, w') ∧
        globals w' = globals w ∧ is_Some (db w) = is_Some (db w') ∧
        trace w' = trace w ∧ n_post w' = n_post w ∧ now w ≤ now w' ∧
        (db w = None → w' = w).
Proof.
  intros He. unfold AppDb.getResponseFromCache, AppDb.getFromDb, AppDb.entry_ts,
    cache_get, mbind, prog_bind.
  simpl. rewrite He. simpl.
  destruct (db w) as [store|] eqn:Hdb; simpl.
  - rewrite Hdb. destruct (db_error env (n_db w)) as [msg|]; simpl.
    + eexists. split; [done|]. simpl. rewrite Hdb. split_and!; [done..|lia|done].
    + destruct (store !! key) as [row|]; simpl.
      * rewrite He. simpl. eexists. split; [done|]. simpl. rewrite Hdb.
        split_and!; [done..|lia|done].
      * eexists. split; [done|]. simpl. rewrite Hdb.
        split_and!; [done..|lia|done].
  - eexists. split; [done|]. rewrite Hdb. split_and!; [done..|lia|done].
Qed.

(** The first post succeeds: one post, no wait. *)
Lemma upstream_first_ok env rpc reqBody nrRetries t res w :
  upstream env (n_post w) = inr res →
  exec env (upstreamHttpRequest rpc reqBody nrRetries t) w =
  (inl res, waited env 0 (posted (emit (EvPost rpc reqBody) w))).
Proof.
  intros Hok.
  by rewrite upstreamHttpRequest_unfold, exec_try_catch, exec_axios_post, Hok.
Qed.

(** The write condition reads nothing and changes nothing. *)
Lemma some_pins_pure l :
  ∃ r, ∀ env w, exec env (some pins_blockHash l) w = (r, w).
Proof.
  induction l as [|x l [r IH]]; simpl; [by eexists|].
  destruct x; simpl; try (exists r; intros env w; apply IH).
  - by eexists.
  - destruct (bool_decide _); simpl; [by eexists|].
    exists r. intros env w. apply IH.
Qed.

Lemma params_some_pure params :
  ∃ r, ∀ env w, exec env (params_some pins_blockHash params) w = (r, w).
Proof.
  destruct params as [[]|]; simpl; try (by eexists). apply some_pins_pure.
Qed.

Lemma AppDb_cacheable_pure req :
  ∃ r, ∀ env w, exec env (AppDb.cacheable req) w = (r, w).
Proof.
  unfold AppDb.cacheable. destruct (includes _ _); [by eexists|].
  destruct (decide _); [apply params_some_pure|by eexists].
Qed.

Lemma AppDb_cacheResult_throws env req key rpcRes err w0 w :
  (exec env (AppDb.cacheable req) w0).1 = inr err →
  exec env (AppDb_cacheResult req key rpcRes) w = (inr err, w).
Proof.
  intros Herr. destruct (AppDb_cacheable_pure req) as [r Hr].
  rewrite Hr in Herr. simpl in Herr. subst r.
  unfold AppDb_cacheResult. by rewrite exec_bind, Hr.
Qed.

Lemma AppDb_cacheResult_skips env req key rpcRes w0 w :
  (exec env (AppDb.cacheable req) w0).1 = inl false →
  exec env (AppDb_cacheResult req key rpcRes) w = (inl (), w).
Proof.
  intros Hno. destruct (AppDb_cacheable_pure req) as [r Hr].
  rewrite Hr in Hno. simpl in Hno. subst r.
  unfold AppDb_cacheResult. by rewrite exec_bind, Hr.
Qed.

(** The write of the result of an upstream response whose body is an
    object, with the in-memory backing. *)
Lemma AppDb_cacheResult_writes env req key rpcRes m w0 w :
  (exec env (AppDb.cacheable req) w0).1 = inl true →
  data rpcRes = Json.Obj m → db w = None →
  exec env (AppDb_cacheResult req key rpcRes) w =
  (inl (),
   cached key
     {| val := member "result" m; ts := now w;
        readCnt := match cache (globals w) !! key with
                   | Some e => readCnt e | None => 0 end;
        writeCnt := match cache (globals w) !! key with
                    | Some e => writeCnt e + 1 | None => 1 end |} w).
Proof.
  intros Hyes Hdata Hdb. destruct (AppDb_cacheable_pure req) as [r Hr].
  rewrite Hr in Hyes. simpl in Hyes. subst r.
  unfold AppDb_cacheResult. rewrite exec_bind, Hr. cbv beta iota.
  rewrite exec_bind, Hdata. simpl (exec env (data_result _) w). cbv beta iota.
  by apply exec_store_memory.
Qed.

Lemma AppJs_cacheResult_writes env req key rpcRes m w :
  AppJs.cacheable req = true → data rpcRes = Json.Obj m →
  exec env (AppJs_cacheResult req key rpcRes) w =
  (inl (),
   cached key
     {| val := member "result" m; ts := now w;
        readCnt := match cache (globals w) !! key with
                   | Some e => readCnt e | None => 0 end;
        writeCnt := match cache (globals w) !! key with
                    | Some e => writeCnt e + 1 | None => 1 end |} w).
Proof.
  intros Hyes Hdata. unfold AppJs_cacheResult. rewrite Hyes, exec_bind, Hdata.
  simpl (exec env (data_result _) w). cbv beta iota.
  unfold AppJs.writeResponseToCache, cache_get, mbind, prog_bind. by simpl.
Qed.

(** *** When the write condition throws *)

(** X7.  A throwing write condition.  A request for [eth_call] whose
    [params.some(...)] throws (the parameters are not an array, or hold a
    [null] before any object with a [blockHash]) and whose key is not in
    the cache is posted to the upstream; when the upstream answers, the
    handler sends that answer, counts it, and then runs its [catch] block
    as if the upstream had failed: it logs the exception as a permanent
    failure of the upstream request and calls [res.send] again, with
    status 500.  Nothing is written to the cache. *)
Theorem throwing_condition_sends_twice env rpc maxAge parse req res err w :
  body_method req = "eth_call" →
  (exec env (params_some pins_blockHash (body_params req)) w).1 = inr err →
  cache (globals w) !! getCacheKey req = None →
  upstream env (n_post w) = inr res →
  let w' := (exec env (AppDb.handlePost rpc maxAge parse req) w).2 in
  responses (new_events w w') =
    [(200, PUpstream (data res)); (500, PError err)] ∧
  last (console w') =
    Some ("upstream request permanently failed: " +:+ to_string err) ∧
  httpUpstreamResCnt (globals w') = httpUpstreamResCnt (globals w) + 1 ∧
  cache (globals w') = cache (globals w).
Proof.
  intros Hm Hthrows He Hok. cbv zeta.
  unfold AppDb.handlePost. cbv zeta. rewrite exec_handler.
  destruct (start_world env (getCacheKey req) w)
    as (Hc0 & _ & Hp0 & _ & Hu0 & _ & _ & Ht0).
  set (w0 := recorded _ _) in *.
  rewrite AppDb_exec_respond.
  rewrite <- Hc0 in He.
  destruct (AppDb_lookup_absent_world env parse (getCacheKey req)
              (AppDb.cacheMaxAgeMs maxAge (body_method req)) (body_id req) w0 He)
    as (w1 & -> & Hg1 & _ & Ht1 & Hp1 & _).
  rewrite (upstream_first_ok env rpc req 10 2000 res w1)
    by (by rewrite Hp1, Hp0).
  assert ((exec env (AppDb.cacheable req) w).1 = inr err) as Hcond.
  { unfold AppDb.cacheable. rewrite Hm. simpl. exact Hthrows. }
  rewrite (AppDb_cacheResult_throws env req (getCacheKey req) res err w _ Hcond).
  simpl. rewrite Hg1, Hu0, Hc0. split_and!; [|by rewrite last_snoc|done..].
  unfold new_events. simpl. rewrite Ht1, Ht0.
  rewrite <- !app_assoc, drop_app_length, responses_app.
  by destruct (recentb w (getCacheKey req)).
Qed.

Lemma throwing_condition_sends_twice_witness :
  let w' := (exec (env_up (Json.Str "0xaa"))
               (AppDb.handlePost upstream_url 10 no_parse Cases.call_by_name)
               (boot 0)).2 in
  responses (new_events (boot 0) w') =
    [(200, PUpstream (Json.Obj [("jsonrpc", Json.Str "2.0"); ("id", Json.Num 1);
                                ("result", Json.Str "0xaa")]));
     (500, PError (TypeError "req.body.params.some is not a function"))] ∧
  last (console w') =
    Some ("upstream request permanently failed: " +:+
          to_string (TypeError "req.body.params.some is not a function")) ∧
  httpUpstreamResCnt (globals w') = httpUpstreamResCnt (globals (boot 0)) + 1 ∧
  cache (globals w') = cache (globals (boot 0)).
Proof.
  exact (throwing_condition_sends_twice (env_up (Json.Str "0xaa")) upstream_url 10
           no_parse Cases.call_by_name _ _ (boot 0) eq_refl eq_refl eq_refl eq_refl).
Defined.

(** *** When the upstream stays down *)

Lemma upstreamHttpRequest_exhausted_now env rpc reqBody nrRetries :
  ∀ t w,
    0 ≤ t → upstream_unreachable env w (S nrRetries) →
    now w + t * (2 ^ Z.of_nat nrRetries - 1) ≤
    now (exec env (upstreamHttpRequest rpc reqBody nrRetries t) w).2.
Proof.
  induction nrRetries as [|n IH]; intros t w Ht Hdown;
    rewrite upstreamHttpRequest_unfold, exec_try_catch, exec_axios_post;
    destruct (Hdown 0%nat ltac:(lia)) as (f & Hf & Hr);
    rewrite Nat.add_0_r in Hf; rewrite Hf.
  - destruct (exec_catch_no_response env f
                (@Throw AxiosResponse
                   (ReferenceError "forwardErr is not defined"))
                (waited env 0 (posted (emit (EvPost rpc reqBody) w))) Hr)
      as [msg ->].
    simpl. lia.
  - destruct (exec_catch_no_response env f
                (perform (SetTimeout t);;
                 upstreamHttpRequest rpc reqBody n (t * 2))
                (waited env 0 (posted (emit (EvPost rpc reqBody) w))) Hr)
      as [msg ->].
    rewrite exec_bind, exec_perform.
    set (w1 := (handle env (SetTimeout t) _).2).
    assert (now w + t ≤ now w1) as Hw1 by (unfold w1; simpl; lia).
    specialize (IH (t * 2) w1 ltac:(lia)).
    cbv beta iota. etrans; [|apply IH].
    + rewrite Nat2Z.inj_succ, Z.pow_succ_r by lia. nia.
    + by apply (upstream_unreachable_next env w).
Qed.

Lemma gave_up_after env rpc req key w w1 :
  let w0 := recorded key (exec env (delayDuplicate key) w).2 in
  globals w1 = globals w0 → trace w1 = trace w0 → n_post w1 = n_post w0 →
  now w0 ≤ now w1 →
  upstream_unreachable env w 11 →
  ∃ w2,
    exec env (upstreamHttpRequest rpc req 10 2000) w1 =
      (inr (ReferenceError "forwardErr is not defined"), w2) ∧
    gave_up w (request_counted
                 (failed (ReferenceError "forwardErr is not defined") w2)).
Proof.
  intros w0 Hg1 Ht1 Hp1 Hn1 Hdown.
  destruct (start_world env key w)
    as (Hc0 & _ & Hp0 & Hn0 & Hu0 & Hh0 & Hr0 & Ht0).
  fold w0 in Hc0, Hp0, Hn0, Hu0, Hh0, Hr0, Ht0.
  assert (upstream_unreachable env w1 11) as Hdown1.
  { intros i Hi. rewrite Hp1, Hp0. by apply Hdown. }
  pose proof (upstreamHttpRequest_exhausted_now env rpc req 10 2000 w1
                ltac:(lia) Hdown1) as Hnow.
  destruct (upstreamHttpRequest_exhausted env rpc req 10 2000 w1 Hdown1)
    as (w2 & Hexec & Ht2 & Hg2 & _).
  rewrite Hexec in Hnow. simpl in Hnow.
  exists w2. split; [done|]. unfold gave_up. simpl.
  rewrite Hg2, Hg1, Hc0, Hu0, Hh0, Hr0.
  assert (new_events w
            (request_counted
               (failed (ReferenceError "forwardErr is not defined") w2)) =
          (if recentb w key then [EvSleep (delayMs env w)] else []) ++
          retry_trace rpc req 10 2000 ++
          [EvSend 500 (PError (ReferenceError "forwardErr is not defined"))])
    as ->.
  { apply new_events_app. simpl. rewrite Ht2, Ht1, Ht0.
    by rewrite <- !app_assoc. }
  rewrite !responses_app, !attempts_app, attempts_retry_trace.
  split_and!; try done.
  - by destruct (recentb w key).
  - by destruct (recentb w key).
  - lia.
Qed.

(** X8.  The upstream stays down.  A request whose key is not in the cache, met
    by an upstream whose next eleven posts fail without a response, is
    answered once, with status 500 and the [ReferenceError] of the unbound
    [forwardErr], after eleven posts and no sooner than 2046000 ms (some
    34 minutes) after it arrived; the request is counted, no response
    counter moves, nothing is cached. *)
Theorem upstream_down_answered env rpc maxAge parse req w :
  cache (globals w) !! getCacheKey req = None →
  upstream_unreachable env w 11 →
  gave_up w (exec env (AppDb.handlePost rpc maxAge parse req) w).2 ∧
  gave_up w (exec env (AppJs.handlePost rpc maxAge req) w).2.
Proof.
  intros He Hdown.
  destruct (start_world env (getCacheKey req) w) as (Hc0 & _).
  split.
  - unfold AppDb.handlePost. cbv zeta. rewrite exec_handler.
    rewrite AppDb_exec_respond.
    set (w0 := recorded _ _) in *. rewrite <- Hc0 in He.
    destruct (AppDb_lookup_absent_world env parse (getCacheKey req)
                (AppDb.cacheMaxAgeMs maxAge (body_method req)) (body_id req) w0 He)
      as (w1 & -> & Hg1 & _ & Ht1 & Hp1 & Hn1 & _).
    destruct (gave_up_after env rpc req (getCacheKey req) w w1
                Hg1 Ht1 Hp1 Hn1 Hdown) as (w2 & -> & Hgave).
    exact Hgave.
  - unfold AppJs.handlePost. cbv zeta. rewrite exec_handler.
    rewrite AppJs_exec_respond, AppJs_exec_lookup.
    set (w0 := recorded _ _) in *. rewrite <- Hc0 in He. rewrite He.
    destruct (gave_up_after env rpc req (getCacheKey req) w w0
                eq_refl eq_refl eq_refl (Z.le_refl _) Hdown) as (w2 & -> & Hgave).
    exact Hgave.
Qed.

Lemma upstream_down_answered_witness :
  upstream_unreachable env_unreachable (boot 0) 11 ∧
  gave_up (boot 0)
    (exec env_unreachable (AppDb.handlePost upstream_url 10 no_parse chainId)
       (boot 0)).2 ∧
  gave_up (boot 0)
    (exec env_unreachable (AppJs.handlePost upstream_url 10 chainId) (boot 0)).2.
Proof.
  split; [apply env_unreachable_upstream_unreachable|].
  exact (upstream_down_answered env_unreachable upstream_url 10 no_parse chainId
           (boot 0) eq_refl (env_unreachable_upstream_unreachable (boot 0) 11)).
Defined.

(** *** When the upstream answers with an error status *)

Lemma sleeps_app evs1 evs2 : sleeps (evs1 ++ evs2) = sleeps evs1 ++ sleeps evs2.
Proof.
  induction evs1 as [|[] evs1 IH]; simpl; [done| |done|done]. by rewrite IH.
Qed.

Lemma turned_away_after env rpc req key response w w1 :
  let w0 := recorded key (exec env (delayDuplicate key) w).2 in
  globals w1 = globals w0 → trace w1 = trace w0 → n_post w1 = n_post w0 →
  upstream env (n_post w) = inl (WithResponse response) →
  ∃ w2,
    exec env (upstreamHttpRequest rpc req 10 2000) w1 =
      (inr (rejection (WithResponse response)), w2) ∧
    turned_away env key w
      (request_counted (failed (rejection (WithResponse response)) w2)).
Proof.
  intros w0 Hg1 Ht1 Hp1 Hf.
  destruct (start_world env key w)
    as (Hc0 & _ & Hp0 & Hn0 & Hu0 & Hh0 & Hr0 & Ht0).
  fold w0 in Hc0, Hp0, Hn0, Hu0, Hh0, Hr0, Ht0.
  destruct (upstreamHttpRequest_rejects env rpc req 10 0 (WithResponse response)
              2000 w1) as (w2 & Hexec & Ht2 & Hg2 & _); [lia| | |done|].
  - intros i Hi. lia.
  - by rewrite Nat.add_0_r, Hp1, Hp0.
  - exists w2. split; [done|]. unfold turned_away. simpl.
    rewrite Hg2, Hg1, Hc0, Hu0, Hh0, Hr0.
    assert (new_events w
              (request_counted
                 (failed (rejection (WithResponse response)) w2)) =
            (if recentb w key then [EvSleep (delayMs env w)] else []) ++
            [EvPost rpc req] ++
            [EvSend 500 (PError (rejection (WithResponse response)))])
      as ->.
    { apply new_events_app. simpl. rewrite Ht2, Ht1, Ht0.
      by rewrite <- !app_assoc. }
    rewrite !responses_app, !attempts_app, !sleeps_app.
    split_and!; try done.
    + eexists. by destruct (recentb w key).
    + by destruct (recentb w key).
    + by destruct (recentb w key).
Qed.

(** X21.  An error status is not retried.  A request whose key is not in the
    cache, and whose post the upstream answers with an HTTP error status
    (the failure carries a response), is posted once and answered once,
    with status 500 and the [TypeError] that [JSON.stringify(err.response)]
    throws in the catch block of [upstreamHttpRequest]: no retry, no wait
    but the delay of a duplicate; the request is counted, no response
    counter moves, nothing is cached. *)
Theorem error_status_not_retried env rpc maxAge parse req response w :
  cache (globals w) !! getCacheKey req = None →
  upstream env (n_post w) = inl (WithResponse response) →
  turned_away env (getCacheKey req) w
    (exec env (AppDb.handlePost rpc maxAge parse req) w).2 ∧
  turned_away env (getCacheKey req) w
    (exec env (AppJs.handlePost rpc maxAge req) w).2.
Proof.
  intros He Hf.
  destruct (start_world env (getCacheKey req) w) as (Hc0 & _).
  split.
  - unfold AppDb.handlePost. cbv zeta. rewrite exec_handler.
    rewrite AppDb_exec_respond.
    set (w0 := recorded _ _) in *. rewrite <- Hc0 in He.
    destruct (AppDb_lookup_absent_world env parse (getCacheKey req)
                (AppDb.cacheMaxAgeMs maxAge (body_method req)) (body_id req) w0 He)
      as (w1 & -> & Hg1 & _ & Ht1 & Hp1 & _).
    destruct (turned_away_after env rpc req (getCacheKey req) response w w1
                Hg1 Ht1 Hp1 Hf) as (w2 & -> & Haway).
    exact Haway.
  - unfold AppJs.handlePost. cbv zeta. rewrite exec_handler.
    rewrite AppJs_exec_respond, AppJs_exec_lookup.
    set (w0 := recorded _ _) in *. rewrite <- Hc0 in He. rewrite He.
    destruct (turned_away_after env rpc req (getCacheKey req) response w w0
                eq_refl eq_refl eq_refl Hf) as (w2 & -> & Haway).
    exact Haway.
Qed.

Lemma error_status_not_retried_witness :
  turned_away env_down (getCacheKey chainId) (boot 0)
    (exec env_down (AppDb.handlePost upstream_url 10 no_parse chainId) (boot 0)).2 ∧
  turned_away env_down (getCacheKey chainId) (boot 0)
    (exec env_down (AppJs.handlePost upstream_url 10 chainId) (boot 0)).2.
Proof.
  exact (error_status_not_retried env_down upstream_url 10 no_parse chainId
           (Json.Obj [("status", Json.Num 429)]) (boot 0) eq_refl eq_refl).
Defined.

End Answers.
(** ** Filling the cache and reading it back *)

Module Refill.
Import Js Shared Obs Samples Session JsFacts Retry Frame Throttle CacheStore.
Import Answers.

(** Two requests with the same method and parameters have the same key. *)
Lemma same_call_same_key req req2 :
  body_method req2 = body_method req → body_params req2 = body_params req →
  getCacheKey req2 = getCacheKey req.
Proof. unfold getCacheKey. by intros -> ->. Qed.

(** A miss answered by the first post, with the in-memory backing: the
    world the handler ends in. *)
Lemma AppDb_handlePost_fills env rpc maxAge parse req res m w :
  let key := getCacheKey req in
  let w0 := recorded key (exec env (delayDuplicate key) w).2 in
  let w3 := emit (EvSend 200 (PUpstream (data res)))
              (upstream_counted
                 (waited env 0 (posted (emit (EvPost rpc req) w0)))) in
  db w = None →
  exec env (AppDb.getResponseFromCache parse key
              (AppDb.cacheMaxAgeMs maxAge (body_method req)) (body_id req)) w0 =
    (inl None, w0) →
  upstream env (n_post w) = inr res → data res = Json.Obj m →
  (exec env (AppDb.cacheable req) w).1 = inl true →
  exec env (AppDb.handlePost rpc maxAge parse req) w =
  (inl (),
   request_counted
     (cached key
        {| val := member "result" m; ts := now w3;
           readCnt := match cache (globals w) !! key with
                      | Some e => readCnt e | None => 0 end;
           writeCnt := match cache (globals w) !! key with
                       | Some e => writeCnt e + 1 | None => 1 end |} w3)).
Proof.
  intros key w0 w3 Hdb Hmiss Hok Hdata Hyes.
  destruct (start_world env key w) as (Hc0 & Hdb0 & Hp0 & _).
  fold w0 in Hc0, Hdb0, Hp0.
  unfold AppDb.handlePost. cbv zeta. rewrite exec_handler. fold key w0.
  clearbody w0.
  rewrite AppDb_exec_respond, Hmiss.
  rewrite (upstream_first_ok env rpc req 10 2000 res w0) by (by rewrite Hp0).
  fold w3.
  rewrite (AppDb_cacheResult_writes env req key res m w w3 Hyes Hdata)
    by (unfold w3; simpl; congruence).
  replace (cache (globals w3)) with (cache (globals w))
    by (unfold w3; simpl; congruence).
  done.
Qed.

Lemma AppJs_handlePost_fills env rpc maxAge req res m w :
  let key := getCacheKey req in
  let w0 := recorded key (exec env (delayDuplicate key) w).2 in
  let w3 := emit (EvSend 200 (PUpstream (data res)))
              (upstream_counted
                 (waited env 0 (posted (emit (EvPost rpc req) w0)))) in
  exec env (AppJs.getResponseFromCache key
              (AppJs.cacheMaxAgeMs maxAge (body_method req)) (body_id req)) w0 =
    (inl None, w0) →
  upstream env (n_post w) = inr res → data res = Json.Obj m →
  AppJs.cacheable req = true →
  exec env (AppJs.handlePost rpc maxAge req) w =
  (inl (),
   request_counted
     (cached key
        {| val := member "result" m; ts := now w3;
           readCnt := match cache (globals w) !! key with
                      | Some e => readCnt e | None => 0 end;
           writeCnt := match cache (globals w) !! key with
                       | Some e => writeCnt e + 1 | None => 1 end |} w3)).
Proof.
  intros key w0 w3 Hmiss Hok Hdata Hyes.
  destruct (start_world env key w) as (Hc0 & Hdb0 & Hp0 & _).
  fold w0 in Hc0, Hdb0, Hp0.
  unfold AppJs.handlePost. cbv zeta. rewrite exec_handler. fold key w0.
  clearbody w0.
  rewrite AppJs_exec_respond, Hmiss.
  rewrite (upstream_first_ok env rpc req 10 2000 res w0) by (by rewrite Hp0).
  fold w3.
  rewrite (AppJs_cacheResult_writes env req key res m w3 Hyes Hdata).
  replace (cache (globals w3)) with (cache (globals w))
    by (unfold w3; simpl; congruence).
  done.
Qed.

(** What a run that ends in such a world has sent. *)
Lemma filled_responses env rpc req res key entry w :
  let w0 := recorded key (exec env (delayDuplicate key) w).2 in
  let w3 := emit (EvSend 200 (PUpstream (data res)))
              (upstream_counted
                 (waited env 0 (posted (emit (EvPost rpc req) w0)))) in
  responses (new_events w (request_counted (cached key entry w3))) =
    [(200, PUpstream (data res))].
Proof.
  intros w0 w3.
  destruct (start_world env key w) as (_ & _ & _ & _ & _ & _ & _ & Ht0).
  fold w0 in Ht0. clearbody w0. subst w3. unfold new_events. simpl. rewrite Ht0.
  rewrite <- !app_assoc, drop_app_length, responses_app.
  by destruct (recentb w key).
Qed.

Lemma filled_attempts env rpc req res key entry w :
  let w0 := recorded key (exec env (delayDuplicate key) w).2 in
  let w3 := emit (EvSend 200 (PUpstream (data res)))
              (upstream_counted
                 (waited env 0 (posted (emit (EvPost rpc req) w0)))) in
  attempts (new_events w (request_counted (cached key entry w3))) = 1%nat.
Proof.
  intros w0 w3.
  destruct (start_world env key w) as (_ & _ & _ & _ & _ & _ & _ & Ht0).
  fold w0 in Ht0. clearbody w0. subst w3. unfold new_events. simpl. rewrite Ht0.
  rewrite <- !app_assoc, drop_app_length, attempts_app.
  by destruct (recentb w key).
Qed.

(** A fresh entry with a value other than [null]: the world the handler
    ends in. *)
Lemma AppDb_handlePost_serves env rpc maxAge parse req e r w :
  let key := getCacheKey req in
  let w0 := recorded key (exec env (delayDuplicate key) w).2 in
  cache (globals w) !! key = Some e → val e = Some r → r ≠ Json.Null →
  within (now w0 - ts e) (AppDb.cacheMaxAgeMs maxAge (body_method req)) = true →
  exec env (AppDb.handlePost rpc maxAge parse req) w =
  (inl (),
   request_counted
     (cached_counted
        (emit (EvSend 200 (PCached {| jsonrpc := "2.0"; res_id := body_id req;
                                      result := Some r |}))
           (cached key (touch e) w0)))).
Proof.
  intros key w0 He Hv Hr Hfresh.
  destruct (start_world env key w) as (Hc0 & _). fold w0 in Hc0.
  unfold AppDb.handlePost. cbv zeta. rewrite exec_handler. fold key w0.
  rewrite AppDb_exec_respond. rewrite <- Hc0 in He.
  rewrite (exec_lookup_found env parse key _ _ w0 e He), Hfresh, Hv.
  by destruct r.
Qed.

Lemma AppJs_handlePost_serves env rpc maxAge req e w :
  let key := getCacheKey req in
  let w0 := recorded key (exec env (delayDuplicate key) w).2 in
  cache (globals w) !! key = Some e →
  within (now w0 - ts e) (AppJs.cacheMaxAgeMs maxAge (body_method req)) = true →
  exec env (AppJs.handlePost rpc maxAge req) w =
  (inl (),
   request_counted
     (cached_counted
        (emit (EvSend 200 (PCached {| jsonrpc := "2.0"; res_id := body_id req;
                                      result := val e |}))
           (cached key (touch e) w0)))).
Proof.
  intros key w0 He Hfresh.
  destruct (start_world env key w) as (Hc0 & _). fold w0 in Hc0.
  unfold AppJs.handlePost. cbv zeta. rewrite exec_handler. fold key w0.
  rewrite AppJs_exec_respond, AppJs_exec_lookup. rewrite <- Hc0 in He.
  by rewrite He, Hfresh.
Qed.

Lemma served_responses env key c entry w :
  let w0 := recorded key (exec env (delayDuplicate key) w).2 in
  let w' := request_counted
              (cached_counted
                 (emit (EvSend 200 (PCached c)) (cached key entry w0))) in
  responses (new_events w w') = [(200, PCached c)] ∧
  attempts (new_events w w') = 0%nat.
Proof.
  intros w0 w'.
  destruct (start_world env key w) as (_ & _ & _ & _ & _ & _ & _ & Ht0).
  fold w0 in Ht0. clearbody w0. subst w'. unfold new_events. simpl. rewrite Ht0.
  rewrite <- !app_assoc, drop_app_length, responses_app, attempts_app.
  by destruct (recentb w key).
Qed.

(** X9.  Miss, then hit.  With the in-memory backing, a request whose key is
    not in the cache and whose result the handler caches is posted to the
    upstream, answered with the upstream body, and its result, if it is
    not [null], written under its key with read count 0 and write count 1.
    A later request with the same method and parameters, whose lookup
    comes no later than the age its method is read with after that write,
    is answered from the cache, with its own [id] and the stored result,
    and nothing is posted. *)
Theorem miss_then_hit env env2 rpc maxAge parse req req2 res m v dt w :
  db w = None →
  cache (globals w) !! getCacheKey req = None →
  upstream env (n_post w) = inr res →
  data res = Json.Obj m → member "result" m = Some v → v ≠ Json.Null →
  (exec env (AppDb.cacheable req) w).1 = inl true →
  body_method req2 = body_method req → body_params req2 = body_params req →
  let w1 := (exec env (AppDb.handlePost rpc maxAge parse req) w).2 in
  let w2 := elapse dt w1 in
  within (now (exec env2 (delayDuplicate (getCacheKey req)) w2).2 - now w1)
    (AppDb.cacheMaxAgeMs maxAge (body_method req)) = true →
  let w3 := (exec env2 (AppDb.handlePost rpc maxAge parse req2) w2).2 in
  responses (new_events w w1) = [(200, PUpstream (data res))] ∧
  cache (globals w1) =
    <[getCacheKey req := {| val := Some v; ts := now w1;
                            readCnt := 0; writeCnt := 1 |}]> (cache (globals w)) ∧
  responses (new_events w2 w3) =
    [(200, PCached {| jsonrpc := "2.0"; res_id := body_id req2;
                      result := Some v |})] ∧
  attempts (new_events w2 w3) = 0%nat.
Proof.
  intros Hdb He Hok Hdata Hres Hv Hyes Hm2 Hp2.
  pose proof (same_call_same_key req req2 Hm2 Hp2) as Hkey.
  destruct (start_world env (getCacheKey req) w) as (Hc0 & Hdb0 & _).
  pose proof (AppDb_handlePost_fills env rpc maxAge parse req res m w) as Hfill.
  pose proof (λ entry, filled_responses env rpc req res (getCacheKey req) entry w)
    as Hsent.
  cbv zeta in Hfill, Hsent.
  set (w0 := recorded _ _) in *.
  destruct (AppDb_lookup_absent_world env parse (getCacheKey req)
              (AppDb.cacheMaxAgeMs maxAge (body_method req)) (body_id req) w0)
    as (w' & Hexec & _ & _ & _ & _ & _ & Hsame); [by rewrite Hc0|].
  rewrite Hsame in Hexec by (by rewrite Hdb0).
  rewrite (Hfill Hdb Hexec Hok Hdata Hyes). clear Hfill Hexec Hsame w'.
  rewrite He, Hres. cbv zeta. cbn [snd].
  set (w3 := emit _ _) in *.
  set (entry := {| val := Some v; ts := now w3; readCnt := 0; writeCnt := 1 |}).
  specialize (Hsent entry). clearbody w0.
  set (w1 := request_counted (cached (getCacheKey req) entry w3)) in *.
  change (now w1) with (now w3).
  assert (cache (globals w1) = <[getCacheKey req := entry]> (cache (globals w)))
    as Hc1 by (subst w1 w3; simpl; by rewrite Hc0).
  clearbody w1. intros Hfresh.
  split; [done|]. split; [done|].
  assert (cache (globals (elapse dt w1)) !! getCacheKey req2 = Some entry) as He2.
  { rewrite Hkey. simpl. rewrite Hc1. apply lookup_insert_eq. }
  rewrite (AppDb_handlePost_serves env2 rpc maxAge parse req2 entry v
             (elapse dt w1) He2 eq_refl Hv).
  - apply served_responses.
  - rewrite Hkey, Hm2. exact Hfresh.
Qed.

Lemma miss_then_hit_witness :
  let w1 := (exec (env_up (Json.Str "0x10"))
               (AppDb.handlePost upstream_url 10 no_parse blockNumber) (boot 0)).2 in
  let w2 := elapse 5000 w1 in
  let w3 := (exec (env_up (Json.Str "0x11"))
               (AppDb.handlePost upstream_url 10 no_parse Cases.blockNumber_again)
               w2).2 in
  responses (new_events (boot 0) w1) =
    [(200, PUpstream (Json.Obj [("jsonrpc", Json.Str "2.0"); ("id", Json.Num 1);
                                ("result", Json.Str "0x10")]))] ∧
  cache (globals w1) =
    <[getCacheKey blockNumber :=
        {| val := Some (Json.Str "0x10"); ts := now w1;
           readCnt := 0; writeCnt := 1 |}]> (cache (globals (boot 0))) ∧
  responses (new_events w2 w3) =
    [(200, PCached {| jsonrpc := "2.0"; res_id := Some (Json.Num 7);
                      result := Some (Json.Str "0x10") |})] ∧
  attempts (new_events w2 w3) = 0%nat.
Proof.
  refine (miss_then_hit (env_up (Json.Str "0x10")) (env_up (Json.Str "0x11"))
            upstream_url 10 no_parse blockNumber Cases.blockNumber_again
            _ _ (Json.Str "0x10") 5000 (boot 0)
            eq_refl eq_refl eq_refl eq_refl eq_refl _ eq_refl eq_refl eq_refl
            eq_refl).
  discriminate.
Defined.

(** X10.  Miss, then hit in [app.js], where the lookup does not look at
    the value: whatever the upstream body had under [result], nothing
    included, is what the later request is answered with. *)
Theorem appjs_serves_what_it_stored env env2 rpc maxAge req req2 res m dt w :
  cache (globals w) !! getCacheKey req = None →
  upstream env (n_post w) = inr res → data res = Json.Obj m →
  AppJs.cacheable req = true →
  body_method req2 = body_method req → body_params req2 = body_params req →
  let w1 := (exec env (AppJs.handlePost rpc maxAge req) w).2 in
  let w2 := elapse dt w1 in
  within (now (exec env2 (delayDuplicate (getCacheKey req)) w2).2 - now w1)
    (AppJs.cacheMaxAgeMs maxAge (body_method req)) = true →
  let w3 := (exec env2 (AppJs.handlePost rpc maxAge req2) w2).2 in
  responses (new_events w w1) = [(200, PUpstream (data res))] ∧
  cache (globals w1) =
    <[getCacheKey req := {| val := member "result" m; ts := now w1;
                            readCnt := 0; writeCnt := 1 |}]> (cache (globals w)) ∧
  responses (new_events w2 w3) =
    [(200, PCached {| jsonrpc := "2.0"; res_id := body_id req2;
                      result := member "result" m |})] ∧
  attempts (new_events w2 w3) = 0%nat.
Proof.
  intros He Hok Hdata Hyes Hm2 Hp2.
  pose proof (same_call_same_key req req2 Hm2 Hp2) as Hkey.
  destruct (start_world env (getCacheKey req) w) as (Hc0 & _).
  pose proof (AppJs_handlePost_fills env rpc maxAge req res m w) as Hfill.
  pose proof (λ entry, filled_responses env rpc req res (getCacheKey req) entry w)
    as Hsent.
  cbv zeta in Hfill, Hsent.
  set (w0 := recorded _ _) in *.
  rewrite Hfill; [|by rewrite AppJs_exec_lookup, Hc0, He|done..]. clear Hfill.
  rewrite He. cbv zeta. cbn [snd].
  set (w3 := emit _ _) in *.
  set (entry := {| val := member "result" m; ts := now w3;
                   readCnt := 0; writeCnt := 1 |}).
  specialize (Hsent entry). clearbody w0.
  set (w1 := request_counted (cached (getCacheKey req) entry w3)) in *.
  change (now w1) with (now w3).
  assert (cache (globals w1) = <[getCacheKey req := entry]> (cache (globals w)))
    as Hc1 by (subst w1 w3; simpl; by rewrite Hc0).
  clearbody w1. intros Hfresh.
  split; [done|]. split; [done|].
  assert (cache (globals (elapse dt w1)) !! getCacheKey req2 = Some entry) as He2.
  { rewrite Hkey. simpl. rewrite Hc1. apply lookup_insert_eq. }
  rewrite (AppJs_handlePost_serves env2 rpc maxAge req2 entry (elapse dt w1) He2).
  - apply served_responses.
  - rewrite Hkey, Hm2. exact Hfresh.
Qed.

(** The instance: the upstream answers [eth_blockNumber] with a JSON-RPC
    error; five seconds later another client is sent an envelope with
    neither a result nor an error. *)
Lemma appjs_serves_what_it_stored_witness :
  let w1 := (exec env_rpc_error
               (AppJs.handlePost upstream_url 10 blockNumber) (boot 0)).2 in
  let w2 := elapse 5000 w1 in
  let w3 := (exec (env_up (Json.Str "0x11"))
               (AppJs.handlePost upstream_url 10 Cases.blockNumber_again) w2).2 in
  responses (new_events (boot 0) w1) =
    [(200, PUpstream
             (Json.Obj
                [("jsonrpc", Json.Str "2.0"); ("id", Json.Num 2);
                 ("error", Json.Obj [("code", Json.Num (-32005));
                                     ("message", Json.Str "rate limited")])]))] ∧
  cache (globals w1) =
    <[getCacheKey blockNumber :=
        {| val := None; ts := now w1; readCnt := 0; writeCnt := 1 |}]>
      (cache (globals (boot 0))) ∧
  responses (new_events w2 w3) =
    [(200, PCached {| jsonrpc := "2.0"; res_id := Some (Json.Num 7);
                      result := None |})] ∧
  attempts (new_events w2 w3) = 0%nat.
Proof.
  exact (appjs_serves_what_it_stored env_rpc_error (env_up (Json.Str "0x11"))
           upstream_url 10 blockNumber Cases.blockNumber_again _ _ 5000 (boot 0)
           eq_refl eq_refl eq_refl eq_refl eq_refl eq_refl eq_refl).
Defined.

(** X11.  A stale entry is refreshed.  With the in-memory backing, a request
    whose entry is older than the finite age its method is read with, and
    whose result the handler caches, is posted to the upstream and answered
    with the upstream body; the entry is replaced by one holding the new
    result and the time of the write, with the read count it had and its
    write count plus one.  No other entry changes. *)
Theorem stale_entry_refreshed env rpc maxAge parse req res m e z w :
  db w = None →
  cache (globals w) !! getCacheKey req = Some e →
  AppDb.cacheMaxAgeMs maxAge (body_method req) = Ms z → ts e + z < now w →
  upstream env (n_post w) = inr res → data res = Json.Obj m →
  (exec env (AppDb.cacheable req) w).1 = inl true →
  let w1 := (exec env (AppDb.handlePost rpc maxAge parse req) w).2 in
  responses (new_events w w1) = [(200, PUpstream (data res))] ∧
  attempts (new_events w w1) = 1%nat ∧
  cache (globals w1) =
    <[getCacheKey req := {| val := member "result" m; ts := now w1;
                            readCnt := readCnt e; writeCnt := writeCnt e + 1 |}]>
      (cache (globals w)).
Proof.
  intros Hdb He Hage Hold Hok Hdata Hyes.
  destruct (start_world env (getCacheKey req) w) as (Hc0 & _ & _ & Hn0 & _).
  pose proof (AppDb_handlePost_fills env rpc maxAge parse req res m w) as Hfill.
  pose proof (λ entry, filled_responses env rpc req res (getCacheKey req) entry w)
    as Hsent.
  pose proof (λ entry, filled_attempts env rpc req res (getCacheKey req) entry w)
    as Hposts.
  cbv zeta in Hfill, Hsent, Hposts.
  set (w0 := recorded _ _) in *.
  rewrite Hfill; [|done| |done..]; clear Hfill.
  - rewrite He. cbv zeta. cbn [snd].
    set (w3 := emit _ _) in *.
    set (entry := {| val := member "result" m; ts := now w3;
                     readCnt := readCnt e; writeCnt := writeCnt e + 1 |}).
    specialize (Hsent entry). specialize (Hposts entry). clearbody w0.
    split; [done|]. split; [done|].
    subst w3. simpl. by rewrite Hc0.
  - rewrite <- Hc0 in He.
    rewrite (exec_lookup_found env parse (getCacheKey req) _ _ w0 e He), Hage.
    destruct (within _ _) eqn:Hle; [|done].
    unfold within in Hle. apply Z.leb_le in Hle. lia.
Qed.

Lemma stale_entry_refreshed_witness :
  let w := elapse 11000 (after_call (env_up (Json.Str "0x10")) blockNumber) in
  let w1 := (exec (env_up (Json.Str "0x11"))
               (AppDb.handlePost upstream_url 10 no_parse blockNumber) w).2 in
  responses (new_events w w1) =
    [(200, PUpstream (Json.Obj [("jsonrpc", Json.Str "2.0"); ("id", Json.Num 1);
                                ("result", Json.Str "0x11")]))] ∧
  attempts (new_events w w1) = 1%nat ∧
  cache (globals w1) =
    <[getCacheKey blockNumber :=
        {| val := Some (Json.Str "0x11"); ts := now w1;
           readCnt := 0; writeCnt := 1 + 1 |}]> (cache (globals w)).
Proof.
  exact (stale_entry_refreshed (env_up (Json.Str "0x11")) upstream_url 10 no_parse
           blockNumber _ _
           {| val := Some (Json.Str "0x10"); ts := 0; readCnt := 0; writeCnt := 1 |}
           10000
           (elapse 11000 (after_call (env_up (Json.Str "0x10")) blockNumber))
           eq_refl eq_refl eq_refl eq_refl eq_refl eq_refl eq_refl).
Defined.

(** *** When the upstream is spared *)

Lemma attempts_prefix (evs1 evs2 : list event) :
  evs1 `prefix_of` evs2 → (attempts evs1 ≤ attempts evs2)%nat.
Proof. intros [more ->]. rewrite attempts_app. lia. Qed.

(** After a miss the handler posts. *)
Lemma miss_posts env rpc req (cacheResult : AxiosResponse → prog unit) w w1 :
  trace_grows w w1 →
  (1 ≤ attempts
         (new_events w
            match exec env (upstreamHttpRequest rpc req 10 2000) w1 with
            | (inl rpcRes, w2) =>
                match exec env (cacheResult rpcRes)
                        (emit (EvSend 200 (PUpstream (data rpcRes)))
                           (upstream_counted w2)) with
                | (inl _, w3) => (inl (), request_counted w3)
                | (inr err, w3) => (inl (), request_counted (failed err w3))
                end
            | (inr err, w2) => (@inl unit exn (), request_counted (failed err w2))
            end.2))%nat.
Proof.
  intros [pre Hpre].
  destruct (Pipeline.upstreamHttpRequest_attempts env rpc req 10 2000 w1)
    as (evs & Ht2 & Hn2 & _).
  assert (∀ wf, trace w1 ++ evs `prefix_of` trace wf →
                (1 ≤ attempts (new_events w (request_counted wf)))%nat) as Hend.
  { intros wf [more Hwf]. unfold new_events. simpl.
    rewrite Hwf, Hpre, <- !app_assoc, drop_app_length, !attempts_app. lia. }
  destruct (exec env (upstreamHttpRequest rpc req 10 2000) w1)
    as [[rpcRes|err] w2]; simpl in Ht2.
  - pose proof (exec_trace_grows (cacheResult rpcRes) env
                  (emit (EvSend 200 (PUpstream (data rpcRes)))
                     (upstream_counted w2))) as Hgrow.
    unfold trace_grows in Hgrow.
    destruct (exec env (cacheResult rpcRes) _) as [[[]|err] w3];
      simpl in Hgrow; cbn [snd]; apply Hend.
    + etrans; [|exact Hgrow]. simpl. rewrite Ht2. by apply prefix_app_r.
    + simpl. etrans; [|apply prefix_app_r; exact Hgrow].
      simpl. rewrite Ht2. by apply prefix_app_r.
  - cbn [snd]. apply Hend. simpl. rewrite Ht2. by apply prefix_app_r.
Qed.

(** A request whose key is not in the in-memory cache is posted. *)
Lemma AppDb_no_entry_posts env rpc maxAge parse req w :
  cache (globals w) !! getCacheKey req = None →
  (1 ≤ attempts (new_events w
                   (exec env (AppDb.handlePost rpc maxAge parse req) w).2))%nat.
Proof.
  intros He.
  destruct (start_world env (getCacheKey req) w)
    as (Hc0 & _ & _ & _ & _ & _ & _ & Ht0).
  unfold AppDb.handlePost. cbv zeta. rewrite exec_handler.
  set (w0 := recorded _ _) in *. clearbody w0.
  rewrite AppDb_exec_respond. rewrite <- Hc0 in He.
  destruct (AppDb_lookup_absent_world env parse (getCacheKey req)
              (AppDb.cacheMaxAgeMs maxAge (body_method req)) (body_id req) w0 He)
    as (w1 & -> & _ & _ & Ht1 & _).
  apply miss_posts. unfold trace_grows. rewrite Ht1, Ht0. by apply prefix_app_r.
Qed.

Lemma AppJs_no_entry_posts env rpc maxAge req w :
  cache (globals w) !! getCacheKey req = None →
  (1 ≤ attempts (new_events w (exec env (AppJs.handlePost rpc maxAge req) w).2))%nat.
Proof.
  intros He.
  destruct (start_world env (getCacheKey req) w)
    as (Hc0 & _ & _ & _ & _ & _ & _ & Ht0).
  unfold AppJs.handlePost. cbv zeta. rewrite exec_handler.
  set (w0 := recorded _ _) in *. clearbody w0.
  rewrite AppJs_exec_respond, AppJs_exec_lookup. rewrite <- Hc0 in He. rewrite He.
  apply miss_posts. unfold trace_grows. rewrite Ht0. by apply prefix_app_r.
Qed.

(** X12.  When the upstream is spared.  The handler of the file with the sqlite
    backing posts nothing exactly when the in-memory cache has, for the
    key of the request, an entry that is no older than the age its method
    is read with at the time of the lookup (the arrival, or the end of the
    delay of a duplicate) and whose value is neither [undefined] nor
    [null]; the handler of [app.js], exactly when the cache has such an
    entry, whatever its value.  In every other case the request is posted
    to the upstream. *)
Theorem upstream_spared_iff env rpc maxAge parse req w :
  let key := getCacheKey req in
  let t := now (exec env (delayDuplicate key) w).2 in
  (attempts (new_events w (exec env (AppDb.handlePost rpc maxAge parse req) w).2)
     = 0%nat ↔
   fresh_value key (AppDb.cacheMaxAgeMs maxAge (body_method req)) t w) ∧
  (attempts (new_events w (exec env (AppJs.handlePost rpc maxAge req) w).2)
     = 0%nat ↔
   fresh_entry key (AppJs.cacheMaxAgeMs maxAge (body_method req)) t w).
Proof.
  intros key t.
  destruct (start_world env key w) as (Hc0 & _ & _ & _ & _ & _ & _ & Ht0).
  pose proof (λ c entry, served_responses env key c entry w) as Hserved.
  cbv zeta in Hserved.
  assert (trace_grows w (recorded key (exec env (delayDuplicate key) w).2))
    as Hgrow0 by (unfold trace_grows; rewrite Ht0; by apply prefix_app_r).
  change t with (now (recorded key (exec env (delayDuplicate key) w).2)).
  unfold fresh_value, fresh_entry. clear t.
  split.
  - unfold AppDb.handlePost. cbv zeta. rewrite exec_handler. fold key.
    set (w0 := recorded _ _) in *. clearbody w0.
    rewrite AppDb_exec_respond. rewrite <- Hc0.
    destruct (cache (globals w0) !! key) as [e|] eqn:He.
    + rewrite (exec_lookup_found env parse key _ _ w0 e He).
      destruct (within _ _) eqn:Hfresh.
      * destruct (val e) as [r|] eqn:Hv;
          [assert (r = Json.Null ∨ r ≠ Json.Null) as [->|Hr]
             by (destruct r; auto; by right)|].
        -- simpl served. cbv iota. split.
           ++ intros H0. pose proof (miss_posts env rpc req
                (AppDb_cacheResult req key) w (cached key (touch e) w0) Hgrow0)
                as H1.
              lia.
           ++ intros (e' & [= <-] & _ & _ & Hnull). by rewrite Hv in Hnull.
        -- assert (served (body_id req) (Some r) =
                   Some {| jsonrpc := "2.0"; res_id := body_id req;
                           result := Some r |}) as -> by (by destruct r).
           cbn [snd]. split.
           ++ intros _. exists e. split_and!; [done|done|congruence|congruence].
           ++ intros _. apply Hserved.
        -- simpl served. cbv iota. split.
           ++ intros H0. pose proof (miss_posts env rpc req
                (AppDb_cacheResult req key) w (cached key (touch e) w0) Hgrow0)
                as H1.
              lia.
           ++ intros (e' & [= <-] & _ & Hundef & _). by rewrite Hv in Hundef.
      * split.
        -- intros H0. pose proof (miss_posts env rpc req
             (AppDb_cacheResult req key) w w0 Hgrow0) as H1. lia.
        -- intros (e' & [= <-] & Hfresh' & _). congruence.
    + destruct (AppDb_lookup_absent_world env parse key
                  (AppDb.cacheMaxAgeMs maxAge (body_method req)) (body_id req) w0 He)
        as (w1 & -> & _ & _ & Ht1 & _).
      split.
      * intros H0. pose proof (miss_posts env rpc req
          (AppDb_cacheResult req key) w w1) as H1.
        unfold trace_grows in H1. rewrite Ht1 in H1. specialize (H1 Hgrow0). lia.
      * by intros (e' & [=] & _).
  - unfold AppJs.handlePost. cbv zeta. rewrite exec_handler. fold key.
    set (w0 := recorded _ _) in *. clearbody w0.
    rewrite AppJs_exec_respond, AppJs_exec_lookup. rewrite <- Hc0.
    destruct (cache (globals w0) !! key) as [e|] eqn:He.
    + destruct (within _ _) eqn:Hfresh.
      * cbn [snd]. split; [by eauto|]. intros _. apply Hserved.
      * split.
        -- intros H0. pose proof (miss_posts env rpc req
             (AppJs_cacheResult req key) w w0 Hgrow0) as H1. lia.
        -- intros (e' & [= <-] & Hfresh'). congruence.
    + split.
      * intros H0. pose proof (miss_posts env rpc req
          (AppJs_cacheResult req key) w w0 Hgrow0) as H1. lia.
      * by intros (e' & [=] & _).
Qed.

End Refill.
(** ** The sqlite backing over a history of requests *)

Module DurableMode.
Import Js Shared Obs Samples Session JsFacts Retry Frame Throttle CacheStore.
Import Pipeline Answers.

#[global] Instance keeps_db_refl : Reflexive keeps_db.
Proof. intros w H. exact H. Qed.
#[global] Instance keeps_db_trans : Transitive keeps_db.
Proof. unfold keeps_db. intros w1 w2 w3 H1 H2 H. auto. Qed.

(** No operation takes the database away. *)
Lemma exec_keeps_db {A} (p : prog A) : preserves keeps_db p.
Proof.
  apply exec_preserves_steps; [apply _..|]. intros env X op w. unfold keeps_db.
  destruct op; simpl; try done;
    destruct (db w) eqn:Hdb, (db_error env (n_db w)); simpl; rewrite ?Hdb;
    try done; by eexists.
Qed.

(** With the database in place the write after the response changes no
    shared binding and sends nothing. *)
Lemma AppDb_cacheResult_durable env req key rpcRes w :
  is_Some (db w) →
  globals (exec env (AppDb_cacheResult req key rpcRes) w).2 = globals w ∧
  trace (exec env (AppDb_cacheResult req key rpcRes) w).2 = trace w.
Proof.
  intros [store Hdb]. destruct (AppDb_cacheable_pure req) as [r Hr].
  unfold AppDb_cacheResult. rewrite exec_bind, Hr.
  destruct r as [[]|err]; [|done..].
  rewrite exec_bind. unfold data_result.
  destruct (data rpcRes); simpl (exec env _ w); cbv beta iota;
    try done; rewrite (exec_store_durable env key _ w store Hdb);
    by destruct (db_error env (n_db w)).
Qed.

(** One request, with the database in place and nothing in the in-memory
    cache: it is posted to the upstream, no response comes from the cache,
    and the in-memory cache is empty afterwards. *)
Lemma handlePost_durable env rpc maxAge parse req w :
  durable_only w →
  let w' := (exec env (AppDb.handlePost rpc maxAge parse req) w).2 in
  durable_only w' ∧
  httpCacheResCnt (globals w') = httpCacheResCnt (globals w) ∧
  ∃ evs, trace w' = trace w ++ evs ∧
         filter is_cached (responses evs) = [] ∧ (1 ≤ attempts evs)%nat.
Proof.
  intros [Hempty Hdb]. cbv zeta.
  unfold AppDb.handlePost. cbv zeta. rewrite exec_handler.
  destruct (start_world env (getCacheKey req) w)
    as (Hc0 & Hdb0 & _ & _ & _ & Hh0 & _ & Ht0).
  set (w0 := recorded _ _) in *. clearbody w0.
  rewrite AppDb_exec_respond.
  destruct (AppDb_lookup_absent_world env parse (getCacheKey req)
              (AppDb.cacheMaxAgeMs maxAge (body_method req)) (body_id req) w0)
    as (w1 & -> & Hg1 & Hdb1 & Ht1 & _); [by rewrite Hc0, Hempty|].
  assert (is_Some (db w1)) as Hdb1' by (by rewrite <- Hdb1, Hdb0).
  pose proof (upstreamHttpRequest_same_globals rpc req 10 2000 env w1) as Hg2.
  pose proof (exec_keeps_db (upstreamHttpRequest rpc req 10 2000) env w1 Hdb1')
    as Hdb2.
  destruct (upstreamHttpRequest_attempts env rpc req 10 2000 w1)
    as (evs & Ht2 & Hn2 & _).
  destruct (upstreamHttpRequest_silent rpc req 10 2000 env w1)
    as ((evs' & Ht2' & Hs2) & _).
  rewrite Ht2 in Ht2'. apply app_inv_head in Ht2'. subst evs'.
  unfold same_globals in Hg2.
  assert (∀ wf tail,
            cache (globals wf) = cache (globals w1) →
            httpCacheResCnt (globals wf) = httpCacheResCnt (globals w1) →
            is_Some (db wf) →
            trace wf = trace w1 ++ evs ++ tail →
            filter is_cached (responses tail) = [] →
            durable_only (request_counted wf) ∧
            httpCacheResCnt (globals (request_counted wf)) =
              httpCacheResCnt (globals w) ∧
            ∃ evs0, trace (request_counted wf) = trace w ++ evs0 ∧
                    filter is_cached (responses evs0) = [] ∧
                    (1 ≤ attempts evs0)%nat) as Hend.
  { intros wf tail Hcf Hhf Hdbf Htf Hsf. unfold durable_only. simpl.
    rewrite Hcf, Hhf, Hg1, Hc0, Hh0. split; [done|]. split; [done|].
    rewrite Htf, Ht1, Ht0, <- !app_assoc. eexists. split; [done|].
    rewrite !responses_app, !filter_app, !attempts_app, Hs2, Hsf.
    destruct (recentb w (getCacheKey req)); simpl; split; try done; lia. }
  destruct (exec env (upstreamHttpRequest rpc req 10 2000) w1)
    as [[rpcRes|err] w2]; simpl in Hg2, Hdb2, Ht2.
  - destruct (AppDb_cacheResult_durable env req (getCacheKey req) rpcRes
                (emit (EvSend 200 (PUpstream (data rpcRes))) (upstream_counted w2))
                Hdb2) as [Hg3 Ht3].
    pose proof (exec_keeps_db (AppDb_cacheResult req (getCacheKey req) rpcRes) env
                  (emit (EvSend 200 (PUpstream (data rpcRes)))
                     (upstream_counted w2)) Hdb2) as Hdb3.
    destruct (exec env (AppDb_cacheResult req (getCacheKey req) rpcRes) _)
      as [[[]|err] w3]; simpl in Hg3, Ht3, Hdb3; cbn [snd].
    + apply (Hend w3 [EvSend 200 (PUpstream (data rpcRes))]);
        [by rewrite Hg3, <- Hg2..|by apply Hdb3| |done].
      by rewrite Ht3, Ht2, <- app_assoc.
    + apply (Hend (failed err w3)
               [EvSend 200 (PUpstream (data rpcRes)); EvSend 500 (PError err)]);
        [simpl; by rewrite Hg3, <- Hg2..|by apply Hdb3| |done].
      simpl. by rewrite Ht3, Ht2, <- !app_assoc.
  - apply (Hend (failed err w2) [EvSend 500 (PError err)]);
      [simpl; by rewrite Hg2..|by apply Hdb2| |done].
    simpl. by rewrite Ht2, <- app_assoc.
Qed.

(** X13.  The sqlite backing never serves.  In the file with the sqlite backing,
    once the database is in place and the in-memory cache is empty, as at
    start-up, the cache stays empty over any sequence of requests handled
    one after the other: every one of them is posted to the upstream, none
    is answered from the cache, and [httpCacheResCnt] does not move. *)
Theorem durable_mode_never_hits env rpc maxAge parse reqs w :
  durable_only w →
  let w' := run_requests env (AppDb.handlePost rpc maxAge parse) reqs w in
  durable_only w' ∧
  httpCacheResCnt (globals w') = httpCacheResCnt (globals w) ∧
  filter is_cached (responses (new_events w w')) = [] ∧
  (length reqs ≤ attempts (new_events w w'))%nat.
Proof.
  intros Hw. cbv zeta.
  assert (durable_only (run_requests env (AppDb.handlePost rpc maxAge parse) reqs w) ∧
          httpCacheResCnt
            (globals (run_requests env (AppDb.handlePost rpc maxAge parse) reqs w)) =
            httpCacheResCnt (globals w) ∧
          ∃ evs, trace (run_requests env (AppDb.handlePost rpc maxAge parse) reqs w) =
                   trace w ++ evs ∧
                 filter is_cached (responses evs) = [] ∧
                 (length reqs ≤ attempts evs)%nat) as (Hd & Hh & evs & Ht & Hs & Hn).
  { revert w Hw.
    induction reqs as [|[dt req] reqs IH]; intros w Hw; cbn [run_requests length].
    - split; [done|]. split; [done|]. exists []. by rewrite app_nil_r.
    - destruct (handlePost_durable env rpc maxAge parse req (elapse dt w) Hw)
        as (Hd1 & Hh1 & evs1 & Ht1 & Hs1 & Hn1).
      destruct (IH _ Hd1) as (Hd2 & Hh2 & evs2 & Ht2 & Hs2 & Hn2).
      split; [done|]. split; [by rewrite Hh2, Hh1|].
      exists (evs1 ++ evs2). rewrite Ht2, Ht1.
      change (trace (elapse dt w)) with (trace w).
      rewrite <- app_assoc, responses_app, filter_app, attempts_app, Hs1, Hs2.
      split; [done|]. split; [done|lia]. }
  rewrite (new_events_app _ _ _ Ht). done.
Qed.

Lemma durable_mode_never_hits_witness :
  let w' := run_requests (env_up (Json.Str "0x1"))
              (AppDb.handlePost upstream_url 10 no_parse)
              [(0%N, chainId); (100%N, chainId); (5000%N, chainId)] (boot_db 0) in
  durable_only w' ∧
  httpCacheResCnt (globals w') = httpCacheResCnt (globals (boot_db 0)) ∧
  filter is_cached (responses (new_events (boot_db 0) w')) = [] ∧
  (length [(0%N, chainId); (100%N, chainId); (5000%N, chainId)] ≤
   attempts (new_events (boot_db 0) w'))%nat.
Proof.
  refine (durable_mode_never_hits (env_up (Json.Str "0x1")) upstream_url 10
            no_parse [(0%N, chainId); (100%N, chainId); (5000%N, chainId)]
            (boot_db 0) _).
  split; [reflexivity|]. by eexists.
Defined.

End DurableMode.
(** ** Duplicates of a request in flight, and the records that stay *)

Module Siblings.
Import Js Shared Obs Samples Session JsFacts Retry Frame Throttle CacheStore.
Import Answers.

(** The first atomic stretch of a handler that is not delayed sets the
    record of its key to the time of arrival. *)
Lemma AppDb_first_stretch env rpc maxAge parse key req w :
  let w1 := (run_sync env (recordCall key;;
                           AppDb.respond rpc maxAge parse req key) w).2 in
  duplicateDetector (globals w1) !! key = Some (now w) ∧ now w1 = now w.
Proof.
  unfold recordCall, duplicateDetector_set, AppDb.respond,
    AppDb.getResponseFromCache, AppDb.getFromDb, cache_get, cache_set,
    mbind, prog_bind.
  simpl.
  destruct (cache _ !! _) as [e|]; simpl.
  - destruct (within _ _); simpl.
    + destruct (val e) as [[]|]; simpl; split; try done; apply lookup_insert_eq.
    + split; [apply lookup_insert_eq|done].
  - destruct (db w); simpl; split; try done; apply lookup_insert_eq.
Qed.

Lemma AppJs_first_stretch env rpc maxAge key req w :
  let w1 := (run_sync env (recordCall key;; AppJs.respond rpc maxAge req key) w).2 in
  duplicateDetector (globals w1) !! key = Some (now w) ∧ now w1 = now w.
Proof.
  unfold recordCall, duplicateDetector_set, AppJs.respond,
    AppJs.getResponseFromCache, cache_get, cache_set, mbind, prog_bind.
  simpl.
  destruct (cache _ !! _) as [e|]; simpl.
  - destruct (within _ _); simpl; split; try done; apply lookup_insert_eq.
  - split; [apply lookup_insert_eq|done].
Qed.

Lemma first_stretch env key (rest : prog unit) w :
  recentb w key = false →
  run_sync env (delayDuplicate key;; recordCall key;; rest) w =
  run_sync env (recordCall key;; rest) w.
Proof. intros Hnot. by rewrite run_sync_bind, run_sync_delayDuplicate, Hnot. Qed.

(** A request that finds a record of its key less than 1000 ms old pauses
    on a timer of 500 ms or more and less than 1500 ms. *)
Lemma recent_is_delayed env key (rest : prog unit) t w :
  fair_random env →
  awaited_timeout (run_sync env (recordCall key;; rest) w).1 = None →
  duplicateDetector (globals w) !! key = Some t → now w - t < 1000 →
  ∃ d, 500 ≤ d < 1500 ∧
       awaited_timeout
         (run_sync env (delayDuplicate key;; recordCall key;; rest) w).1 = Some d.
Proof.
  intros Hfair Hrest Hrec Hyoung.
  assert (recentb w key = true) as Hrecent by (apply recentb_true; eauto).
  exists (delayMs env w). split.
  - destruct (Hfair (n_random w)) as [H0 H1].
    pose proof (floor_random_extra _ H0 H1).
    unfold delayMs, DUPLICATE_MIN_DELAY_MS. lia.
  - by rewrite (handler_timer env key rest w Hrest), Hrecent.
Qed.

(** X14.  Duplicates of a request in flight.  A request that is not itself
    delayed sets the record of its key before it first hands control back
    to the event loop, that is before it waits for the upstream or the
    database.  So a request with the same key that arrives less than
    1000 ms after it, even while the first is still waiting, pauses on a
    timer of 500 ms or more and less than 1500 ms. *)
Theorem sibling_is_delayed env env2 rpc maxAge parse req req2 dt w :
  fair_random env2 →
  recentb w (getCacheKey req) = false →
  getCacheKey req2 = getCacheKey req →
  (dt < 1000)%N →
  (∃ d, 500 ≤ d < 1500 ∧
        awaited_timeout
          (run_sync env2 (AppDb.handlePost rpc maxAge parse req2)
             (elapse dt
                (run_sync env (AppDb.handlePost rpc maxAge parse req) w).2)).1 =
          Some d) ∧
  (∃ d, 500 ≤ d < 1500 ∧
        awaited_timeout
          (run_sync env2 (AppJs.handlePost rpc maxAge req2)
             (elapse dt (run_sync env (AppJs.handlePost rpc maxAge req) w).2)).1 =
          Some d).
Proof.
  intros Hfair Hnot Hkey Hdt. split.
  - unfold AppDb.handlePost. cbv zeta. rewrite (first_stretch env _ _ w Hnot).
    destruct (AppDb_first_stretch env rpc maxAge parse (getCacheKey req) req w)
      as [Hrec Hnow].
    set (w1 := (run_sync env _ w).2) in *. clearbody w1.
    rewrite Hkey.
    apply (recent_is_delayed env2 (getCacheKey req) _ (now w)); [done| |done|].
    + rewrite <- Hkey. apply AppDb_rest_no_timer.
    + simpl. lia.
  - unfold AppJs.handlePost. cbv zeta. rewrite (first_stretch env _ _ w Hnot).
    destruct (AppJs_first_stretch env rpc maxAge (getCacheKey req) req w)
      as [Hrec Hnow].
    set (w1 := (run_sync env _ w).2) in *. clearbody w1.
    rewrite Hkey.
    apply (recent_is_delayed env2 (getCacheKey req) _ (now w)); [done| |done|].
    + rewrite <- Hkey. apply AppJs_rest_no_timer.
    + simpl. lia.
Qed.

Lemma sibling_is_delayed_witness :
  (∃ d, 500 ≤ d < 1500 ∧
        awaited_timeout
          (run_sync (env_up (Json.Str "0x1"))
             (AppDb.handlePost upstream_url 10 no_parse Cases.blockNumber_again)
             (elapse 3
                (run_sync (env_up (Json.Str "0x1"))
                   (AppDb.handlePost upstream_url 10 no_parse blockNumber)
                   (boot 0)).2)).1 = Some d) ∧
  (∃ d, 500 ≤ d < 1500 ∧
        awaited_timeout
          (run_sync (env_up (Json.Str "0x1"))
             (AppJs.handlePost upstream_url 10 Cases.blockNumber_again)
             (elapse 3
                (run_sync (env_up (Json.Str "0x1"))
                   (AppJs.handlePost upstream_url 10 blockNumber)
                   (boot 0)).2)).1 = Some d).
Proof.
  exact (sibling_is_delayed (env_up (Json.Str "0x1")) (env_up (Json.Str "0x1"))
           upstream_url 10 no_parse blockNumber Cases.blockNumber_again 3 (boot 0)
           (env_up_fair (Json.Str "0x1")) eq_refl eq_refl eq_refl).
Defined.

(** One request changes the duplicate detector in one place. *)
Lemma handler_detector env key (rest : prog unit) w :
  preserves same_detector rest →
  duplicateDetector (globals (exec env (delayDuplicate key;; recordCall key;; rest) w).2) =
  <[key := now (exec env (delayDuplicate key) w).2]> (duplicateDetector (globals w)).
Proof.
  intros Hrest. rewrite exec_handler, (Hrest env).
  rewrite exec_delayDuplicate_recentb. simpl. by destruct (recentb w key).
Qed.

Lemma run_requests_detector env (handler : ReqBody → prog unit) reqs :
  (∀ req w,
     dom (duplicateDetector (globals (exec env (handler req) w).2)) =
     dom (duplicateDetector (globals w)) ∪ {[getCacheKey req]}) →
  ∀ w,
    dom (duplicateDetector (globals (run_requests env handler reqs w))) =
    dom (duplicateDetector (globals w)) ∪ keys reqs.
Proof.
  intros Hone. unfold keys.
  induction reqs as [|[dt req] reqs IH]; intros w; cbn [run_requests].
  - simpl. by rewrite (right_id_L ∅ (∪)).
  - rewrite IH, Hone. simpl. by rewrite (assoc_L (∪)).
Qed.

(** X15.  No record is ever removed.  In both files one request sets the record
    of its own key and touches no other; so after any sequence of requests
    the duplicate detector has a record for every key it had and for the
    key of every request, whatever became of the request and however long
    ago it came. *)
Theorem detector_never_forgets env rpc maxAge parse reqs w :
  dom (duplicateDetector
         (globals (run_requests env (AppDb.handlePost rpc maxAge parse) reqs w))) =
    dom (duplicateDetector (globals w)) ∪ keys reqs ∧
  dom (duplicateDetector
         (globals (run_requests env (AppJs.handlePost rpc maxAge) reqs w))) =
    dom (duplicateDetector (globals w)) ∪ keys reqs.
Proof.
  split; apply run_requests_detector; intros req w'.
  - unfold AppDb.handlePost. cbv zeta.
    rewrite handler_detector by apply AppDb_respond_same_detector.
    by rewrite dom_insert_L, (comm_L (∪)).
  - unfold AppJs.handlePost. cbv zeta.
    rewrite handler_detector by apply AppJs_respond_same_detector.
    by rewrite dom_insert_L, (comm_L (∪)).
Qed.

End Siblings.

(** ** Keys of calls of any method *)

Module KeyShape.
Import Js Shared Obs Samples Session JsonLex JsonFacts Keys.
Local Arguments String.append !_ _ : simpl nomatch.

(** A plain name followed by an opening bracket or brace: the name ends
    where the first of them stands. *)
Lemma plain_prefix m1 m2 c1 c2 t1 t2 :
  plain m1 = true → plain m2 = true →
  is_opening c1 = true → is_opening c2 = true →
  m1 +:+ String c1 t1 = m2 +:+ String c2 t2 → m1 = m2.
Proof.
  revert m2. induction m1 as [|a1 m1 IH]; intros [|a2 m2] Hp1 Hp2 Hc1 Hc2 E;
    simpl in *.
  - done.
  - injection E as <- _. rewrite Hc1 in Hp2. done.
  - injection E as -> _. rewrite Hc2 in Hp1. done.
  - injection E as <- E. f_equal. apply andb_prop in Hp1 as [_ Hp1].
    apply andb_prop in Hp2 as [_ Hp2]. by apply (IH m2).
Qed.

Lemma structured_text params :
  structured params →
  ∃ c t, match params with Some p => Json.stringify p | None => "undefined" end
           = String c t ∧ is_opening c = true.
Proof.
  destruct params as [[]|]; try done; intros _.
  - rewrite stringify_Arr. by eexists _, _.
  - rewrite stringify_Obj. by eexists _, _.
Qed.

Lemma key_inj req1 req2 :
  well_formed req1 → well_formed req2 →
  getCacheKey req1 = getCacheKey req2 →
  body_method req1 = body_method req2 ∧ body_params req1 = body_params req2.
Proof.
  intros [Hm1 Hs1] [Hm2 Hs2] E. unfold getCacheKey in E.
  destruct (structured_text _ Hs1) as (c1 & t1 & E1 & Hc1).
  destruct (structured_text _ Hs2) as (c2 & t2 & E2 & Hc2).
  assert (body_method req1 = body_method req2) as Hm.
  { rewrite E1, E2 in E. exact (plain_prefix _ _ c1 c2 t1 t2 Hm1 Hm2 Hc1 Hc2 E). }
  split; [done|]. rewrite Hm in E. apply String.app_inj in E.
  by apply params_text_inj.
Qed.



End KeyShape.


(** ** Methods that are never cached *)

Module WriteList.
Import Js Shared Obs Samples Session JsFacts Retry Frame Throttle CacheStore.
Import Bookkeeping Answers Refill KeyShape.

#[global] Instance grows_by_refl added : Reflexive (grows_by added).
Proof. intros w k Hk. by left. Qed.

#[global] Instance grows_by_trans added : Transitive (grows_by added).
Proof.
  intros w1 w2 w3 H12 H23 k Hk.
  destruct (H23 k Hk) as [Hk2|Hin]; [|by right]. by apply H12.
Qed.

Lemma same_globals_grows_by added w w' : same_globals w w' → grows_by added w w'.
Proof. unfold same_globals. intros Hg k Hk. left. by rewrite <- Hg. Qed.

Lemma perform_grows_by added {X} (op : eff X) :
  (match op with SetGlobals _ => False | _ => True end) →
  preserves (grows_by added) (perform op).
Proof.
  intros. eapply preserves_weaken; [apply same_globals_grows_by|].
  by apply preserves_perform_same_globals.
Qed.

Lemma same_cache_grows_by added w w' :
  cache (globals w') = cache (globals w) → grows_by added w w'.
Proof. intros Hc k Hk. left. by rewrite <- Hc. Qed.

Lemma cache_set_grows_by (added : gset string) key e :
  key ∈ added → preserves (grows_by added) (cache_set key e).
Proof.
  intros Hin env w k Hk. simpl in Hk.
  destruct (decide (key = k)) as [<-|Hne]; [by right|].
  left. by rewrite lookup_insert_ne in Hk.
Qed.

Lemma AppDb_lookup_grows_by added parse key maxAgeMs reqId :
  preserves (grows_by added) (AppDb.getResponseFromCache parse key maxAgeMs reqId).
Proof.
  intros env w k Hk. left. rewrite lookup_cache in Hk.
  destruct (cache (globals w) !! key) as [e|] eqn:He; [|done].
  destruct (within _ _); [|done].
  destruct (decide (key = k)) as [<-|Hne]; [by rewrite He|].
  by rewrite lookup_insert_ne in Hk.
Qed.

Lemma AppJs_lookup_grows_by added key maxAgeMs reqId :
  preserves (grows_by added) (AppJs.getResponseFromCache key maxAgeMs reqId).
Proof.
  intros env w k Hk. left. rewrite AppJs_exec_lookup in Hk.
  destruct (cache (globals w) !! key) as [e|] eqn:He; [|done].
  destruct (within _ _); [|done]. simpl in Hk.
  destruct (decide (key = k)) as [<-|Hne]; [by rewrite He|].
  by rewrite lookup_insert_ne in Hk.
Qed.

Lemma cache_get_grows_by added key : preserves (grows_by added) (cache_get key).
Proof. intros env w. by apply same_cache_grows_by. Qed.

Ltac keeps :=
  repeat first
    [ apply cache_get_grows_by
    | apply cache_set_grows_by; apply elem_of_singleton; reflexivity
    | apply perform_grows_by; exact I
    | step_preserves ].

(** The write after the response adds the key of the request, and only
    where the method is on the list. *)
Lemma AppDb_cacheResult_grows_by req rpcRes :
  preserves
    (grows_by (if decide (body_method req ∈ AppDb_written)
               then {[getCacheKey req]} else ∅))
    (AppDb_cacheResult req (getCacheKey req) rpcRes).
Proof.
  intros env w. destruct (AppDb_cacheable_pure req) as [r Hr].
  destruct r as [[]|err].
  - assert (body_method req ∈ AppDb_written) as Hin.
    { specialize (Hr env w). revert Hr.
      unfold AppDb.cacheable, includes, AppDb_written.
      case_bool_decide as Hlist.
      - intros _. revert Hlist. rewrite !elem_of_cons, !elem_of_nil. tauto.
      - case_decide as Hcall; [|done].
        intros _. rewrite Hcall, !elem_of_cons. tauto. }
    rewrite decide_True by done. revert env w.
    change (preserves (grows_by {[getCacheKey req]})
              (AppDb_cacheResult req (getCacheKey req) rpcRes)).
    unfold AppDb_cacheResult. apply preserves_bind; [apply _| |].
    { intros env w. rewrite Hr. reflexivity. }
    intros c. unfold data_result, AppDb.writeResponseToCache.
    keeps.
  - rewrite (AppDb_cacheResult_skips env req _ rpcRes w w) by (by rewrite Hr).
    reflexivity.
  - rewrite (AppDb_cacheResult_throws env req _ rpcRes err w w) by (by rewrite Hr).
    reflexivity.
Qed.

Lemma AppJs_cacheResult_grows_by req rpcRes :
  preserves
    (grows_by (if decide (body_method req ∈ AppJs_written)
               then {[getCacheKey req]} else ∅))
    (AppJs_cacheResult req (getCacheKey req) rpcRes).
Proof.
  unfold AppJs_cacheResult, AppJs.cacheable, includes.
  change ["eth_chainId"; "eth_blockNumber"; "net_version";
          "eth_getTransactionReceipt"] with AppJs_written.
  destruct (decide (body_method req ∈ AppJs_written)) as [Hin|Hout].
  - rewrite bool_decide_eq_true_2 by done.
    unfold data_result, AppJs.writeResponseToCache.
    keeps.
  - rewrite bool_decide_eq_false_2 by done. keeps.
Qed.

(** The handler from the lookup on adds no key but those its write adds. *)
Lemma respond_grows_by added env (lookup : prog (option CachedResponse))
    (upstream : prog AxiosResponse) (cacheResult : AxiosResponse → prog unit)
    (respond : prog unit) w :
  preserves (grows_by added) lookup → preserves same_globals upstream →
  (∀ rpcRes, preserves (grows_by added) (cacheResult rpcRes)) →
  exec env respond w =
    match exec env lookup w with
    | (inl (Some c), w1) =>
        (inl (), request_counted (cached_counted (emit (EvSend 200 (PCached c)) w1)))
    | (inl None, w1) =>
        match exec env upstream w1 with
        | (inl rpcRes, w2) =>
            match exec env (cacheResult rpcRes)
                    (emit (EvSend 200 (PUpstream (data rpcRes)))
                       (upstream_counted w2)) with
            | (inl _, w3) => (inl (), request_counted w3)
            | (inr err, w3) => (inl (), request_counted (failed err w3))
            end
        | (inr err, w2) => (inl (), request_counted (failed err w2))
        end
    | (inr err, w1) => (inr err, w1)
    end →
  grows_by added w (exec env respond w).2.
Proof.
  intros Hlookup Hupstream Hresult ->.
  specialize (Hlookup env w).
  destruct (exec env lookup w) as [[[c|]|err] w1]; simpl in Hlookup; [| |done].
  - etrans; [done|]. by apply same_cache_grows_by.
  - etrans; [done|]. specialize (Hupstream env w1). unfold same_globals in Hupstream.
    destruct (exec env upstream w1) as [[rpcRes|err] w2]; simpl in Hupstream.
    + etrans; [apply (same_cache_grows_by added w1
                        (emit (EvSend 200 (PUpstream (data rpcRes)))
                           (upstream_counted w2))); simpl; by rewrite Hupstream|].
      specialize (Hresult rpcRes env
        (emit (EvSend 200 (PUpstream (data rpcRes))) (upstream_counted w2))).
      destruct (exec env (cacheResult rpcRes) _) as [[[]|err] w3];
        simpl in Hresult; (etrans; [done|]); by apply same_cache_grows_by.
    + apply same_cache_grows_by. simpl. by rewrite Hupstream.
Qed.

(** The handler adds no key to the cache but its own, and that only for
    a method on the list of those it writes. *)
Lemma AppDb_handler_grows_by env rpc maxAge parse req w :
  grows_by (if decide (body_method req ∈ AppDb_written)
            then {[getCacheKey req]} else ∅)
    w (exec env (AppDb.handlePost rpc maxAge parse req) w).2.
Proof.
  unfold AppDb.handlePost. cbv zeta. rewrite exec_handler.
  destruct (start_world env (getCacheKey req) w) as (Hc0 & _).
  etrans; [by apply same_cache_grows_by|].
  apply (respond_grows_by _ env
           (AppDb.getResponseFromCache parse (getCacheKey req)
              (AppDb.cacheMaxAgeMs maxAge (body_method req)) (body_id req))
           (upstreamHttpRequest rpc req 10 2000)
           (AppDb_cacheResult req (getCacheKey req))).
  - apply AppDb_lookup_grows_by.
  - apply upstreamHttpRequest_same_globals.
  - apply AppDb_cacheResult_grows_by.
  - apply AppDb_exec_respond.
Qed.

Lemma AppJs_handler_grows_by env rpc maxAge req w :
  grows_by (if decide (body_method req ∈ AppJs_written)
            then {[getCacheKey req]} else ∅)
    w (exec env (AppJs.handlePost rpc maxAge req) w).2.
Proof.
  unfold AppJs.handlePost. cbv zeta. rewrite exec_handler.
  destruct (start_world env (getCacheKey req) w) as (Hc0 & _).
  etrans; [by apply same_cache_grows_by|].
  apply (respond_grows_by _ env
           (AppJs.getResponseFromCache (getCacheKey req)
              (AppJs.cacheMaxAgeMs maxAge (body_method req)) (body_id req))
           (upstreamHttpRequest rpc req 10 2000)
           (AppJs_cacheResult req (getCacheKey req))).
  - apply AppJs_lookup_grows_by.
  - apply upstreamHttpRequest_same_globals.
  - apply AppJs_cacheResult_grows_by.
  - apply AppJs_exec_respond.
Qed.

Lemma keyed_by_step methods req w w' :
  well_formed req →
  grows_by (if decide (body_method req ∈ methods) then {[getCacheKey req]} else ∅)
    w w' →
  keyed_by methods w → keyed_by methods w'.
Proof.
  intros Hwf Hgrow Hkeyed k Hk.
  destruct (Hgrow k Hk) as [Hold|Hnew]; [by apply Hkeyed|].
  destruct (decide (body_method req ∈ methods)) as [Hin|Hout].
  - apply elem_of_singleton in Hnew. by exists req.
  - by apply elem_of_empty in Hnew.
Qed.

Lemma run_requests_keyed env methods (handler : ReqBody → prog unit) reqs :
  (∀ req w,
     grows_by (if decide (body_method req ∈ methods)
               then {[getCacheKey req]} else ∅)
       w (exec env (handler req) w).2) →
  Forall (λ r, well_formed r.2) reqs →
  ∀ w, keyed_by methods w → keyed_by methods (run_requests env handler reqs w).
Proof.
  intros Hone Hwf. induction Hwf as [|[dt req] reqs Hreq _ IH]; intros w Hw;
    cbn [run_requests]; [done|].
  apply IH. eapply (keyed_by_step methods req (elapse dt w)); [done|apply Hone|].
  exact Hw.
Qed.

Lemma unwritten_key_absent methods req w :
  well_formed req → body_method req ∉ methods → keyed_by methods w →
  cache (globals w) !! getCacheKey req = None.
Proof.
  intros Hwf Hout Hkeyed.
  destruct (cache (globals w) !! getCacheKey req) as [e|] eqn:He; [|done].
  destruct (Hkeyed (getCacheKey req)) as (req' & Hwf' & Hin & Hkey);
    [by rewrite He|].
  destruct (key_inj req req' Hwf Hwf' Hkey) as [Hm _]. by rewrite Hm in Hout.
Qed.

(** X17.  Calls that always reach the upstream.  Start with an empty in-memory
    cache and handle any sequence of requests, one after the other, whose
    method names hold no opening bracket or brace and whose parameters are
    an array or an object.  Then a request of that shape for a method that
    is not on the list of those the file writes to the cache is posted to
    the upstream, whenever it comes.  In the file with the sqlite backing
    the list is [eth_chainId], [eth_blockNumber], [net_version] and
    [eth_call]: [eth_getTransactionReceipt], which is read with
    [Infinity], is not on it and is never cached.  In [app.js] the list is
    [eth_chainId], [eth_blockNumber], [net_version] and
    [eth_getTransactionReceipt]. *)
Theorem unwritten_method_always_forwarded env rpc maxAge parse reqs req dt w :
  cache (globals w) = ∅ →
  Forall (λ r, well_formed r.2) reqs → well_formed req →
  (body_method req ∉ AppDb_written →
   let w' := elapse dt (run_requests env (AppDb.handlePost rpc maxAge parse) reqs w) in
   (1 ≤ attempts (new_events w'
                    (exec env (AppDb.handlePost rpc maxAge parse req) w').2))%nat) ∧
  (body_method req ∉ AppJs_written →
   let w' := elapse dt (run_requests env (AppJs.handlePost rpc maxAge) reqs w) in
   (1 ≤ attempts (new_events w'
                    (exec env (AppJs.handlePost rpc maxAge req) w').2))%nat).
Proof.
  intros Hempty Hreqs Hwf.
  assert (∀ methods, keyed_by methods w) as Hstart.
  { intros methods k Hk. rewrite Hempty, lookup_empty in Hk. by destruct Hk. }
  split; intros Hout; cbv zeta.
  - apply AppDb_no_entry_posts.
    apply (unwritten_key_absent AppDb_written req); [done..|].
    apply (run_requests_keyed env AppDb_written); [|done|apply Hstart].
    intros req' w'. apply AppDb_handler_grows_by.
  - apply AppJs_no_entry_posts.
    apply (unwritten_key_absent AppJs_written req); [done..|].
    apply (run_requests_keyed env AppJs_written); [|done|apply Hstart].
    intros req' w'. apply AppJs_handler_grows_by.
Qed.

Lemma unwritten_method_always_forwarded_witness :
  (1 ≤ attempts
         (new_events
            (elapse 50
               (run_requests (env_up (Json.Str "0x1"))
                  (AppDb.handlePost upstream_url 10 no_parse)
                  [(0%N, chainId); (100%N, Cases.getBalance)] (boot 0)))
            (exec (env_up (Json.Str "0x1"))
               (AppDb.handlePost upstream_url 10 no_parse Cases.getBalance_again)
               (elapse 50
                  (run_requests (env_up (Json.Str "0x1"))
                     (AppDb.handlePost upstream_url 10 no_parse)
                     [(0%N, chainId); (100%N, Cases.getBalance)] (boot 0)))).2))%nat ∧
  (1 ≤ attempts
         (new_events
            (elapse 50
               (run_requests (env_up (Json.Str "0x1"))
                  (AppJs.handlePost upstream_url 10)
                  [(0%N, chainId); (100%N, Cases.getBalance)] (boot 0)))
            (exec (env_up (Json.Str "0x1"))
               (AppJs.handlePost upstream_url 10 Cases.getBalance_again)
               (elapse 50
                  (run_requests (env_up (Json.Str "0x1"))
                     (AppJs.handlePost upstream_url 10)
                     [(0%N, chainId); (100%N, Cases.getBalance)] (boot 0)))).2))%nat.
Proof.
  assert (Forall (λ r : N * ReqBody, well_formed r.2)
            [(0%N, chainId); (100%N, Cases.getBalance)]) as Hreqs.
  { apply Forall_cons. split; [by split|].
    apply Forall_cons. split; [by split|]. apply Forall_nil_2. }
  destruct (unwritten_method_always_forwarded (env_up (Json.Str "0x1"))
              upstream_url 10 no_parse
              [(0%N, chainId); (100%N, Cases.getBalance)]
              Cases.getBalance_again 50 (boot 0) eq_refl Hreqs (conj eq_refl I))
    as [HDb HJs].
  split; [apply HDb|apply HJs]; intros H;
    repeat (apply elem_of_cons in H as [H|H]; [discriminate H|]);
    by apply elem_of_nil in H.
Defined.

End WriteList.

(** ** The counts [printStats] reports *)

Module Tally.
Import Js Shared Obs Samples Session JsFacts Retry Frame Throttle CacheStore.
Import Answers Refill.

Lemma sum_comm (count : CacheEntry → Z) (j1 j2 : string) (z1 z2 : CacheEntry) (y : Z) :
  count z1 + (count z2 + y) = count z2 + (count z1 + y).
Proof. lia. Qed.

(** Replacing an entry replaces its count in the sum. *)
Lemma sum_insert (count : CacheEntry → Z) (m : gmap string CacheEntry) k e :
  map_fold (λ _ e acc, count e + acc) 0 (<[k := e]> m) =
  map_fold (λ _ e acc, count e + acc) 0 m - from_option count 0 (m !! k) + count e.
Proof.
  destruct (m !! k) as [e0|] eqn:Hk; simpl.
  - rewrite <- insert_delete_eq.
    rewrite map_fold_insert_L;
      [|intros; apply sum_comm; done|apply lookup_delete_eq].
    rewrite (map_fold_delete_L _ _ k e0 m);
      [|intros; apply sum_comm; done|done].
    lia.
  - rewrite map_fold_insert_L; [|intros; apply sum_comm; done|done]. lia.
Qed.

Lemma total_same count w w' :
  cache (globals w') = cache (globals w) → total count w' = total count w.
Proof. unfold total. by intros ->. Qed.

(** What the write after the response does to the cache: nothing, or it
    replaces the entry of the key by one with the read count it had and
    the write count it had plus one. *)
Lemma AppJs_cacheResult_cache env req key rpcRes w :
  let w' := (exec env (AppJs_cacheResult req key rpcRes) w).2 in
  total readCnt w' = total readCnt w ∧
  total writeCnt w ≤ total writeCnt w' ≤ total writeCnt w + 1.
Proof.
  cbv zeta. unfold AppJs_cacheResult.
  destruct (AppJs.cacheable req); [|simpl; lia].
  rewrite exec_bind. unfold data_result.
  destruct (data rpcRes); simpl (exec env _ w); cbv beta iota; try (simpl; lia);
    unfold AppJs.writeResponseToCache, cache_get, cache_set, mbind, prog_bind;
    simpl; unfold total; simpl; rewrite !sum_insert;
    destruct (cache (globals w) !! key); simpl; lia.
Qed.

Lemma AppDb_cacheResult_cache env req key rpcRes w :
  let w' := (exec env (AppDb_cacheResult req key rpcRes) w).2 in
  total readCnt w' = total readCnt w ∧
  total writeCnt w ≤ total writeCnt w' ≤ total writeCnt w + 1.
Proof.
  cbv zeta. destruct (AppDb_cacheable_pure req) as [r Hr].
  unfold AppDb_cacheResult. rewrite exec_bind, Hr.
  destruct r as [[]|err]; [|simpl; lia..].
  rewrite exec_bind. unfold data_result.
  assert (∀ v,
    total readCnt (exec env (AppDb.writeResponseToCache key v) w).2 =
      total readCnt w ∧
    total writeCnt w ≤
      total writeCnt (exec env (AppDb.writeResponseToCache key v) w).2 ≤
      total writeCnt w + 1) as Hwrite.
  { intros v. destruct (db w) as [store|] eqn:Hdb.
    - rewrite (exec_store_durable env key v w store Hdb).
      destruct (db_error env (n_db w)); simpl; unfold total; simpl; lia.
    - rewrite (exec_store_memory env key v w Hdb). unfold total. simpl.
      rewrite !sum_insert. destruct (cache (globals w) !! key); simpl; lia. }
  destruct (data rpcRes); simpl (exec env _ w); cbv beta iota;
    try apply Hwrite. simpl. lia.
Qed.

(** One request, from the lookup on.  [exact] says that the lookup counts
    a read only where it returns a response. *)
Lemma respond_tally (exact : bool) env (lookup : prog (option CachedResponse))
    (upstream : prog AxiosResponse) (cacheResult : AxiosResponse → prog unit)
    (respond : prog unit) w :
  preserves silent lookup →
  match exec env lookup w with
  | (inl r, w1) =>
      total writeCnt w1 = total writeCnt w ∧
      (total readCnt w1 =
         total readCnt w + match r with Some _ => 1 | None => 0 end ∨
       (exact = false ∧ total readCnt w1 = total readCnt w + 1))
  | (inr _, _) => False
  end →
  preserves same_globals upstream →
  (∀ rpcRes w2,
     total readCnt (exec env (cacheResult rpcRes) w2).2 = total readCnt w2 ∧
     total writeCnt w2 ≤ total writeCnt (exec env (cacheResult rpcRes) w2).2
       ≤ total writeCnt w2 + 1) →
  (∀ rpcRes, preserves silent (cacheResult rpcRes)) →
  exec env respond w =
    match exec env lookup w with
    | (inl (Some c), w1) =>
        (inl (), request_counted (cached_counted (emit (EvSend 200 (PCached c)) w1)))
    | (inl None, w1) =>
        match exec env upstream w1 with
        | (inl rpcRes, w2) =>
            match exec env (cacheResult rpcRes)
                    (emit (EvSend 200 (PUpstream (data rpcRes)))
                       (upstream_counted w2)) with
            | (inl _, w3) => (inl (), request_counted w3)
            | (inr err, w3) => (inl (), request_counted (failed err w3))
            end
        | (inr err, w2) => (inl (), request_counted (failed err w2))
        end
    | (inr err, w1) => (inr err, w1)
    end →
  hits_are_reads w (exec env respond w).2 ∧
  writes_are_responses w (exec env respond w).2 ∧
  (exact = true → reads_are_hits w (exec env respond w).2).
Proof.
  intros Hquiet Hlookup Hupstream Hresult Hsilent ->.
  unfold hits_are_reads, writes_are_responses, reads_are_hits.
  destruct (Hquiet env w) as (_ & _ & Hu1 & Hh1).
  destruct (exec env lookup w) as [[[c|]|err] w1]; simpl in Hu1, Hh1.
  - destruct Hlookup as [Hw Hr]. simpl. unfold total in *. simpl.
    split; [lia|]. split; [lia|]. intros ->. destruct Hr as [Hr|[[=] _]]. lia.
  - destruct Hlookup as [Hw Hr].
    specialize (Hupstream env w1). unfold same_globals in Hupstream.
    assert (∀ wf,
      httpCacheResCnt (globals wf) = httpCacheResCnt (globals w1) →
      total readCnt wf = total readCnt w1 →
      total writeCnt wf - total writeCnt w1 ≤
        httpUpstreamResCnt (globals wf) - httpUpstreamResCnt (globals w1) →
      httpCacheResCnt (globals wf) - httpCacheResCnt (globals w) ≤
        total readCnt wf - total readCnt w ∧
      total writeCnt wf - total writeCnt w ≤
        httpUpstreamResCnt (globals wf) - httpUpstreamResCnt (globals w) ∧
      (exact = true →
       total readCnt wf - total readCnt w =
         httpCacheResCnt (globals wf) - httpCacheResCnt (globals w))) as Hend.
    { intros wf Hhf Hrf Hwf. split; [lia|]. split; [lia|].
      intros ->. destruct Hr as [Hr|[[=] _]]. lia. }
    destruct (exec env upstream w1) as [[rpcRes|err] w2]; simpl in Hupstream.
    + specialize (Hresult rpcRes
        (emit (EvSend 200 (PUpstream (data rpcRes))) (upstream_counted w2))).
      destruct (Hsilent rpcRes env
        (emit (EvSend 200 (PUpstream (data rpcRes))) (upstream_counted w2)))
        as (_ & _ & Hu3 & Hh3).
      destruct (exec env (cacheResult rpcRes) _) as [[[]|err] w3];
        simpl in Hresult, Hu3, Hh3; destruct Hresult as [Hr3 Hw3];
        cbn [snd]; apply Hend; unfold total in *; simpl in *;
        rewrite ?Hupstream in *; lia.
    + cbn [snd]. apply Hend; unfold total; simpl; rewrite ?Hupstream; lia.
  - done.
Qed.

Lemma AppJs_lookup_tally env key maxAgeMs reqId w :
  match exec env (AppJs.getResponseFromCache key maxAgeMs reqId) w with
  | (inl r, w1) =>
      total writeCnt w1 = total writeCnt w ∧
      (total readCnt w1 =
         total readCnt w + match r with Some _ => 1 | None => 0 end ∨
       (true = false ∧ total readCnt w1 = total readCnt w + 1))
  | (inr _, _) => False
  end.
Proof.
  rewrite AppJs_exec_lookup.
  destruct (cache (globals w) !! key) as [e|] eqn:He.
  - destruct (within _ _).
    + unfold total. simpl. rewrite !sum_insert, He. simpl.
      split; [lia|]. left. lia.
    + split; [done|]. left. lia.
  - split; [done|]. left. lia.
Qed.

Lemma AppDb_lookup_tally env parse key maxAgeMs reqId w :
  match exec env (AppDb.getResponseFromCache parse key maxAgeMs reqId) w with
  | (inl r, w1) =>
      total writeCnt w1 = total writeCnt w ∧
      (total readCnt w1 =
         total readCnt w + match r with Some _ => 1 | None => 0 end ∨
       (false = false ∧ total readCnt w1 = total readCnt w + 1))
  | (inr _, _) => False
  end.
Proof.
  destruct (cache (globals w) !! key) as [e|] eqn:He.
  - rewrite (exec_lookup_found env parse key maxAgeMs reqId w e He).
    destruct (within _ _).
    + unfold total. simpl. rewrite !sum_insert, He. simpl.
      split; [lia|]. right. split; [done|]. lia.
    + split; [done|]. left. lia.
  - destruct (AppDb_lookup_absent_world env parse key maxAgeMs reqId w He)
      as (w' & -> & Hg & _).
    unfold total. rewrite Hg. split; [done|]. left. lia.
Qed.

(** One request. *)
Lemma AppJs_handler_tally env rpc maxAge req w :
  reads_are_hits w (exec env (AppJs.handlePost rpc maxAge req) w).2 ∧
  writes_are_responses w (exec env (AppJs.handlePost rpc maxAge req) w).2.
Proof.
  unfold AppJs.handlePost. cbv zeta. rewrite exec_handler.
  destruct (start_world env (getCacheKey req) w)
    as (Hc0 & _ & _ & _ & Hu0 & Hh0 & _).
  set (w0 := recorded _ _) in *. clearbody w0.
  destruct (respond_tally true env
              (AppJs.getResponseFromCache (getCacheKey req)
                 (AppJs.cacheMaxAgeMs maxAge (body_method req)) (body_id req))
              (upstreamHttpRequest rpc req 10 2000)
              (AppJs_cacheResult req (getCacheKey req))
              (AppJs.respond rpc maxAge req (getCacheKey req)) w0)
    as (_ & Hw & Hr).
  - apply AppJs_getResponseFromCache_silent.
  - apply AppJs_lookup_tally.
  - apply upstreamHttpRequest_same_globals.
  - intros rpcRes w2. apply AppJs_cacheResult_cache.
  - apply AppJs_cacheResult_silent.
  - apply AppJs_exec_respond.
  - specialize (Hr eq_refl). unfold reads_are_hits, writes_are_responses in *.
    rewrite <- (total_same readCnt w w0), <- (total_same writeCnt w w0),
      <- Hu0, <- Hh0 by done.
    done.
Qed.

Lemma AppDb_handler_tally env rpc maxAge parse req w :
  hits_are_reads w (exec env (AppDb.handlePost rpc maxAge parse req) w).2 ∧
  writes_are_responses w (exec env (AppDb.handlePost rpc maxAge parse req) w).2.
Proof.
  unfold AppDb.handlePost. cbv zeta. rewrite exec_handler.
  destruct (start_world env (getCacheKey req) w)
    as (Hc0 & _ & _ & _ & Hu0 & Hh0 & _).
  set (w0 := recorded _ _) in *. clearbody w0.
  destruct (respond_tally false env
              (AppDb.getResponseFromCache parse (getCacheKey req)
                 (AppDb.cacheMaxAgeMs maxAge (body_method req)) (body_id req))
              (upstreamHttpRequest rpc req 10 2000)
              (AppDb_cacheResult req (getCacheKey req))
              (AppDb.respond rpc maxAge parse req (getCacheKey req)) w0)
    as (Hh & Hw & _).
  - apply AppDb_getResponseFromCache_silent.
  - apply AppDb_lookup_tally.
  - apply upstreamHttpRequest_same_globals.
  - intros rpcRes w2. apply AppDb_cacheResult_cache.
  - apply AppDb_cacheResult_silent.
  - apply AppDb_exec_respond.
  - unfold hits_are_reads, writes_are_responses in *.
    rewrite <- (total_same readCnt w w0), <- (total_same writeCnt w w0),
      <- Hu0, <- Hh0 by done.
    done.
Qed.

Lemma run_requests_tally (R : World → World → Prop) env
    (handler : ReqBody → prog unit) reqs :
  (∀ w, R w w) → (∀ w1 w2 w3, R w1 w2 → R w2 w3 → R w1 w3) →
  (∀ dt w w', R (elapse dt w) w' → R w w') →
  (∀ req w, R w (exec env (handler req) w).2) →
  ∀ w, R w (run_requests env handler reqs w).
Proof.
  intros Hrefl Htrans Helapse Hone.
  induction reqs as [|[dt req] reqs IH]; intros w; cbn [run_requests]; [done|].
  apply (Helapse dt). eapply Htrans; [apply Hone|apply IH].
Qed.

(** X20.  The counts add up.  Over any sequence of requests handled one
    after the other by [app.js], the read counts of the cache entries,
    added up, go up by exactly as much as [httpCacheResCnt]: every read
    that is counted is a response from the cache.  In the file with the
    sqlite backing they go up by no less: a fresh entry holding [null] or
    [undefined] is counted as read and not served.  In both files the
    write counts, added up, go up by no more than [httpUpstreamResCnt]:
    every write follows an upstream response. *)
Theorem counts_add_up env rpc maxAge parse reqs w :
  let wJs := run_requests env (AppJs.handlePost rpc maxAge) reqs w in
  let wDb := run_requests env (AppDb.handlePost rpc maxAge parse) reqs w in
  reads_are_hits w wJs ∧ writes_are_responses w wJs ∧
  hits_are_reads w wDb ∧ writes_are_responses w wDb.
Proof.
  cbv zeta. split_and!.
  - apply run_requests_tally.
    + intros w0. unfold reads_are_hits. lia.
    + unfold reads_are_hits. intros w1 w2 w3 H1 H2. lia.
    + intros dt w0 w'. done.
    + intros req w0. apply AppJs_handler_tally.
  - apply run_requests_tally.
    + intros w0. unfold writes_are_responses. lia.
    + unfold writes_are_responses. intros w1 w2 w3 H1 H2. lia.
    + intros dt w0 w'. done.
    + intros req w0. apply AppJs_handler_tally.
  - apply run_requests_tally.
    + intros w0. unfold hits_are_reads. lia.
    + unfold hits_are_reads. intros w1 w2 w3 H1 H2. lia.
    + intros dt w0 w'. done.
    + intros req w0. apply AppDb_handler_tally.
  - apply run_requests_tally.
    + intros w0. unfold writes_are_responses. lia.
    + unfold writes_are_responses. intros w1 w2 w3 H1 H2. lia.
    + intros dt w0 w'. done.
    + intros req w0. apply AppDb_handler_tally.
Qed.

End Tally.

(** ** The websocket relay *)

Module Relay.
Import Ws.

Lemma to_clients_app os1 os2 :
  to_clients (os1 ++ os2) = to_clients os1 ++ to_clients os2.
Proof.
  induction os1 as [|[] os1 IH]; simpl; [done|done|done|]. by rewrite IH.
Qed.

Lemma to_upstream_app os1 os2 :
  to_upstream (os1 ++ os2) = to_upstream os1 ++ to_upstream os2.
Proof.
  induction os1 as [|[] os1 IH]; simpl; [done|done| |done]. by rewrite IH.
Qed.

(** The listeners after a history: one on each emitter for every socket
    accepted, in the order the sockets connected. *)
Lemma run_listeners ins :
  ∀ s,
    (on_client_message (run ins s).2).*2 =
      (on_client_message s).*2 ++ connections ins ∧
    (on_conn_message (run ins s).2).*1 =
      (on_conn_message s).*1 ++ connections ins.
Proof.
  induction ins as [|i ins IH]; intros s; cbn [run].
  - simpl. by rewrite !app_nil_r.
  - destruct (step i s) as [o s1] eqn:Hstep.
    specialize (IH s1). destruct (run ins s1) as [os s2]. cbn [snd] in *.
    destruct IH as [IH1 IH2]. rewrite IH1, IH2.
    destruct i; simpl in Hstep; try (injection Hstep as <- <-; done).
    + injection Hstep as <- <-. simpl. rewrite !fmap_app. simpl.
      by rewrite <- !app_assoc.
    + destruct (once_open s); injection Hstep as <- <-; done.
Qed.

Lemma broadcast_calls msg (ls : list (nat * sock)) :
  to_clients
    (flat_map
       (λ l : nat * sock,
          [Log ("WS #" +:+ show l.1 +:+ " backwarding: " +:+ msg);
           ConnSend l.2 msg]) ls) = (λ conn, (conn, msg)) <$> ls.*2 ∧
  to_upstream
    (flat_map
       (λ l : nat * sock,
          [Log ("WS #" +:+ show l.1 +:+ " backwarding: " +:+ msg);
           ConnSend l.2 msg]) ls) = [].
Proof.
  induction ls as [|l ls [IH1 IH2]]; [done|].
  cbn [flat_map]. rewrite to_clients_app, to_upstream_app, IH1, IH2. done.
Qed.

Lemma forward_calls conn data (ls : list (sock * nat)) :
  to_clients
    (flat_map
       (λ l : sock * nat,
          if decide (l.1 = conn)
          then [Log ("WS #" +:+ show l.2 +:+ " forwarding: " +:+ data);
                ClientSend data]
          else []) ls) = [] ∧
  (conn ∉ ls.*1 →
   to_upstream
     (flat_map
        (λ l : sock * nat,
           if decide (l.1 = conn)
           then [Log ("WS #" +:+ show l.2 +:+ " forwarding: " +:+ data);
                 ClientSend data]
           else []) ls) = []) ∧
  (NoDup ls.*1 → conn ∈ ls.*1 →
   to_upstream
     (flat_map
        (λ l : sock * nat,
           if decide (l.1 = conn)
           then [Log ("WS #" +:+ show l.2 +:+ " forwarding: " +:+ data);
                 ClientSend data]
           else []) ls) = [data]).
Proof.
  induction ls as [|l ls (IH1 & IH2 & IH3)]; cbn [flat_map fmap list_fmap].
  - split; [done|]. split; [done|]. intros _ Hin. by apply elem_of_nil in Hin.
  - rewrite to_clients_app, to_upstream_app, IH1.
    destruct (decide (l.1 = conn)) as [Heq|Hne]; simpl.
    + split; [done|]. split.
      * intros Hnot. exfalso. apply Hnot. apply elem_of_cons. by left.
      * intros Hnd _. apply NoDup_cons in Hnd as [Hfresh _].
        rewrite IH2; [done|]. by rewrite <- Heq.
    + split; [done|]. split.
      * intros Hnot. apply IH2. intros Hin. apply Hnot. apply elem_of_cons. by right.
      * intros Hnd Hin. apply NoDup_cons in Hnd as [_ Hnd].
        apply elem_of_cons in Hin as [Hin|Hin]; [by subst conn|]. by apply IH3.
Qed.

(** X18.  Upstream messages go to every client.  Whatever has happened so far, a
    message that arrives from the upstream is handed to [conn.send] of
    every socket that was ever accepted, once each, in the order they
    connected, its text unchanged; nothing is sent to the upstream.  A
    reply is not routed to the client whose message it answers. *)
Theorem upstream_message_broadcast ins msg :
  to_clients (step (ClientMessage msg) (run ins handleWsConnection).2).1 =
    (λ conn, (conn, msg)) <$> connections ins ∧
  to_upstream (step (ClientMessage msg) (run ins handleWsConnection).2).1 = [].
Proof.
  destruct (run_listeners ins handleWsConnection) as [Hls _]. simpl in Hls.
  cbn [step fst]. destruct (broadcast_calls msg (on_client_message (run ins handleWsConnection).2))
    as [H1 H2].
  by rewrite H1, H2, Hls.
Qed.

(** X19.  Client messages go to the upstream.  A message that arrives on an
    accepted socket is handed to [client.send] once, its text unchanged,
    and to no client, provided the socket was accepted once; a message on
    a socket that was never accepted is dropped. *)
Theorem client_message_forwarded ins conn data :
  NoDup (connections ins) →
  to_clients (step (ConnMessage conn data) (run ins handleWsConnection).2).1 = [] ∧
  to_upstream (step (ConnMessage conn data) (run ins handleWsConnection).2).1 =
    if decide (conn ∈ connections ins) then [data] else [].
Proof.
  intros Hnd. destruct (run_listeners ins handleWsConnection) as [_ Hls]. simpl in Hls.
  cbn [step fst].
  destruct (forward_calls conn data (on_conn_message (run ins handleWsConnection).2))
    as (H1 & H2 & H3).
  rewrite Hls in H2, H3. split; [done|].
  destruct (decide (conn ∈ connections ins)); auto.
Qed.

Lemma client_message_forwarded_witness :
  to_clients
    (step (ConnMessage 7%nat "ping")
       (run [Connection 4%nat; ClientOpen; Connection 7%nat; ClientMessage "x"]
          handleWsConnection).2).1 = [] ∧
  to_upstream
    (step (ConnMessage 7%nat "ping")
       (run [Connection 4%nat; ClientOpen; Connection 7%nat; ClientMessage "x"]
          handleWsConnection).2).1 =
    if decide (7%nat ∈
               connections [Connection 4%nat; ClientOpen; Connection 7%nat;
                            ClientMessage "x"])
    then ["ping"] else [].
Proof.
  refine (client_message_forwarded
            [Connection 4%nat; ClientOpen; Connection 7%nat; ClientMessage "x"]
            7%nat "ping" _).
  simpl. apply NoDup_cons. split.
  - intros [H|H]%elem_of_cons; [discriminate H|by apply elem_of_nil in H].
  - apply NoDup_singleton.
Defined.

End Relay.
